(** * Checkpoint lifecycle manager: a shallow embedding of
      [diffusion_distillation/checkpoints.py] and the properties of its
      natural sort, its checkpoint store, its loader and its watcher.

    Conventions.
    - Python [str] and [bytes] are Rocq [string] and [list byte]; the
      characters of a [str] are the code points below 256, among which the
      digit class of [re] holds the ten digits [0] to [9] only.
    - A Python exception is a value of [exn]; a call that may raise returns
      [exn + A].
    - The checkpoint directory is a finite map from file names to contents;
      [None] stands for a directory that does not exist yet.
    - [float] values are modelled exactly: a decimal numeral is rounded to
      the nearest binary64 value (ties to even), as [float(s)] does. *)

From Stdlib Require Import ZArith QArith Ascii String OrdersEx.
From stdpp Require Import gmap strings list fin_maps pretty sorting.

Local Open Scope Z_scope.

(** ** Python values shared by the whole module *)

Inductive exn : Type :=
| FileExistsError
| FileNotFoundError
| ValueError
| TypeError
| UnpicklingError.

Global Instance exn_eq_dec : EqDecision exn.
Proof. solve_decision. Defined.

Definition result (A : Type) : Type := (exn + A)%type.

Module Float.

(** A binary64 value without NaN (no numeral of the module's regular
    expressions denotes one): [Finite m e] is [m * 2^e]. *)
Inductive t : Type :=
| Finite (m e : Z)
| Inf (negative : bool).

Definition neg (x : t) : t :=
  match x with
  | Finite m e => Finite (- m) e
  | Inf b => Inf (negb b)
  end.

Definition abs (x : t) : t :=
  match x with
  | Finite m e => Finite (Z.abs m) e
  | Inf _ => Inf false
  end.

(** Three-way comparison by value. *)
Definition compare (x y : t) : comparison :=
  match x, y with
  | Finite m1 e1, Finite m2 e2 =>
      let e := Z.min e1 e2 in
      Z.compare (m1 * 2 ^ (e1 - e)) (m2 * 2 ^ (e2 - e))
  | Inf true, Inf true => Eq
  | Inf true, _ => Lt
  | _, Inf true => Gt
  | Inf false, Inf false => Eq
  | Inf false, _ => Gt
  | _, Inf false => Lt
  end.

Definition eqb (x y : t) : bool :=
  match compare x y with Eq => true | _ => false end.

Definition ltb (x y : t) : bool :=
  match compare x y with Lt => true | _ => false end.

(** [ge_pow2 n d e] decides [n / d >= 2^e] for [0 <= n] and [0 < d]. *)
Definition ge_pow2 (n d e : Z) : bool :=
  if 0 <=? e then d * 2 ^ e <=? n else d <=? n * 2 ^ (- e).

(** Correctly rounded conversion of the non-negative rational [n / d]
    ([0 <= n], [0 < d]): 53 bits of precision, the least exponent of a
    subnormal is -1074, ties go to the even significand and a result of
    at least [2^1024] overflows to infinity. *)
Definition round (n d : Z) : t :=
  if n =? 0 then Finite 0 0 else
  let e0 := Z.log2 n - Z.log2 d in
  let e := if ge_pow2 n d e0 then e0 else e0 - 1 in
  let ex := Z.max (e - 52) (-1074) in
  let num := if 0 <=? ex then n else n * 2 ^ (- ex) in
  let den := if 0 <=? ex then d * 2 ^ ex else d in
  let q := num / den in
  let r := num mod den in
  let q' := if (den <? 2 * r) || ((2 * r =? den) && Z.odd q)
            then q + 1 else q in
  if (0 <? q') && (1024 <=? Z.log2 q' + ex) then Inf false
  else Finite q' ex.

End Float.

(** ** The exception monad *)

Global Instance result_ret : MRet result := fun A a => inr a.
Global Instance result_bind : MBind result :=
  fun A B f m => match m with inl e => inl e | inr a => f a end.
Global Instance result_fmap : FMap result :=
  fun A B f m => match m with inl e => inl e | inr a => inr (f a) end.

Definition raise {A : Type} (e : exn) : result A := inl e.

Fixpoint mapM_result {A B : Type} (f : A -> result B) (l : list A)
  : result (list B) :=
  match l with
  | [] => mret []
  | x :: l' => y ← f x; ys ← mapM_result f l'; mret (y :: ys)
  end.

(** ** Natural sort (lines 35-70) *)

Module Re.

Definition is_digit (c : ascii) : bool :=
  let n := N_of_ascii c in ((48 <=? n) && (n <=? 57))%N.

Definition is_sign (c : ascii) : bool :=
  Ascii.eqb c "-" || Ascii.eqb c "+".

Definition is_exp_mark (c : ascii) : bool :=
  Ascii.eqb c "e" || Ascii.eqb c "E".

(** The longest run of digits at the head, and what follows it. *)
Fixpoint span_digits (s : string) : string * string :=
  match s with
  | String c s' =>
      if is_digit c
      then let '(ds, r) := span_digits s' in (String c ds, r)
      else (EmptyString, s)
  | EmptyString => (EmptyString, EmptyString)
  end.

(** A match of the numeral grammar shared by [SIGNED_FLOAT_RE] and
    [UNSIGNED_FLOAT_RE], kept with its parts: an optional sign; then
    either digits with an optional point and optional further digits, or
    a point and digits; then an optional exponent. *)
Record numeral : Type := Numeral {
  n_sign : string;      (* the sign character, or empty *)
  n_int : string;       (* digits before the point *)
  n_dot : bool;         (* whether a point was matched *)
  n_frac : string;      (* digits after the point *)
  n_exp : option (ascii * string * string)
                        (* exponent mark, its sign or empty, its digits *)
}.

Definition exp_text (x : option (ascii * string * string)) : string :=
  match x with
  | Some (c, sg, ds) => String c (sg +:+ ds)
  | None => EmptyString
  end.

(** The text captured by the group of [UNSIGNED_FLOAT_RE]. *)
Definition unsigned_text (n : numeral) : string :=
  n_int n +:+ (if n_dot n then "." else "") +:+ n_frac n +:+ exp_text (n_exp n).

(** The whole match, which is also the group of [SIGNED_FLOAT_RE]. *)
Definition text (n : numeral) : string := n_sign n +:+ unsigned_text n.

(** The optional exponent [e] or [E], optional sign, digits: taken only
    when a digit follows the mark and the optional sign; otherwise the
    group matches the empty string. *)
Definition match_exponent (s : string)
  : option (ascii * string * string) * string :=
  match s with
  | String c s1 =>
      if is_exp_mark c then
        let '(sg, s2) :=
          match s1 with
          | String c' s2 =>
              if is_sign c' then (String c' EmptyString, s2)
              else (EmptyString, s1)
          | EmptyString => (EmptyString, s1)
          end in
        let '(ds, r) := span_digits s2 in
        match ds with
        | EmptyString => (None, s)
        | _ => (Some (c, sg, ds), r)
        end
      else (None, s)
  | EmptyString => (None, s)
  end.

(** A point at the head, and what follows it. *)
Definition match_point (s : string) : option string :=
  match s with
  | String c r => if Ascii.eqb c "." then Some r else None
  | EmptyString => None
  end.

(** The mantissa (first alternative: digits, optional point, optional
    digits; second alternative: point, digits) followed by the optional
    exponent.  Every quantifier is greedy and what follows each of them
    may match the empty string, so the first attempt of the backtracking
    matcher succeeds. *)
Definition match_unsigned (sg : string) (s : string)
  : option (numeral * string) :=
  let '(ds, r) := span_digits s in
  match ds with
  | String _ _ =>
      match match_point r with
      | Some r1 =>
          let '(fs, r2) := span_digits r1 in
          let '(ex, r3) := match_exponent r2 in
          Some (Numeral sg ds true fs ex, r3)
      | None =>
          let '(ex, r3) := match_exponent r in
          Some (Numeral sg ds false EmptyString ex, r3)
      end
  | EmptyString =>
      match match_point s with
      | Some r1 =>
          let '(fs, r2) := span_digits r1 in
          match fs with
          | String _ _ =>
              let '(ex, r3) := match_exponent r2 in
              Some (Numeral sg EmptyString true fs ex, r3)
          | EmptyString => None
          end
      | None => None
      end
  end.

(** [float_re.match(s)]: a match anchored at the head of [s], with the
    rest of the string.  Both regular expressions match the same text;
    they differ in what their group captures.  When a sign is not followed
    by a numeral the attempt without the sign fails too, since a sign is
    neither a digit nor a point. *)
Definition match_at (s : string) : option (numeral * string) :=
  match s with
  | String c s' =>
      if is_sign c then match_unsigned (String c EmptyString) s'
      else match_unsigned EmptyString s
  | EmptyString => None
  end.

(** The group of the chosen regular expression. *)
Definition group (signed : bool) (n : numeral) : string :=
  if signed then text n else unsigned_text n.

(** [float_re.split(s)]: the text between successive leftmost matches,
    interleaved with the group of each match.  [skip] counts characters of
    the current match still to pass over and [acc] holds, reversed, the
    text since the last match. *)
Fixpoint split_go (signed : bool) (skip : nat) (acc : string) (s : string)
  : list string :=
  match s with
  | EmptyString => [String.rev acc]
  | String c s' =>
      match skip with
      | S k => split_go signed k acc s'
      | O =>
          match match_at s with
          | Some (n, _) =>
              String.rev acc :: group signed n
                :: split_go signed (String.length (text n) - 1) EmptyString s'
          | None => split_go signed 0 (String c acc) s'
          end
      end
  end.

Definition split (signed : bool) (s : string) : list string :=
  split_go signed 0 EmptyString s.

End Re.

(** *** [float(s)] on the numerals of the grammar *)

Definition digit_val (c : ascii) : Z := Z.of_N (N_of_ascii c) - 48.

Fixpoint digits_val (acc : Z) (s : string) : Z :=
  match s with
  | EmptyString => acc
  | String c s' => digits_val (10 * acc + digit_val c) s'
  end.

Definition exponent_val (x : option (ascii * string * string)) : Z :=
  match x with
  | Some (_, sg, ds) =>
      if String.eqb sg "-" then - digits_val 0 ds else digits_val 0 ds
  | None => 0
  end.

(** The binary64 value nearest to the decimal numeral. *)
Definition numeral_val (n : Re.numeral) : Float.t :=
  let d := digits_val 0 (Re.n_int n +:+ Re.n_frac n) in
  let x := exponent_val (Re.n_exp n) - Z.of_nat (String.length (Re.n_frac n)) in
  let mag := if 0 <=? x then Float.round (d * 10 ^ x) 1
             else Float.round d (10 ^ (- x)) in
  if String.eqb (Re.n_sign n) "-" then Float.neg mag else mag.

(** [float(s)].  Python accepts a few more spellings ([inf], [nan],
    surrounding blanks, underscores between digits); none of them is a
    full match of the grammar, and [maybe_num] passes to [float] only the
    pieces of [Re.split], so they are left as [ValueError] here. *)
Definition py_float (s : string) : result Float.t :=
  match Re.match_at s with
  | Some (n, EmptyString) => mret (numeral_val n)
  | _ => raise ValueError
  end.

(** *** Sort keys *)

(** An element of a key: a [str] or a [float]. *)
Inductive token : Type :=
| TStr (s : string)
| TNum (x : Float.t).

(** [x == y]: values of different types are unequal, without error. *)
Definition token_eqb (x y : token) : bool :=
  match x, y with
  | TStr a, TStr b => String.eqb a b
  | TNum a, TNum b => Float.eqb a b
  | _, _ => false
  end.

(** [x < y]: code-point order on [str], numeric order on [float], and
    [TypeError] between a [str] and a [float]. *)
Definition token_lt (x y : token) : result bool :=
  match x, y with
  | TStr a, TStr b => mret (String.ltb a b)
  | TNum a, TNum b => mret (Float.ltb a b)
  | _, _ => raise TypeError
  end.

(** [a < b] on lists: the first pair of unequal elements decides; when one
    list is a prefix of the other the shorter one is smaller. *)
Fixpoint key_lt (a b : list token) : result bool :=
  match a, b with
  | [], [] => mret false
  | [], _ :: _ => mret true
  | _ :: _, [] => mret false
  | x :: a', y :: b' => if token_eqb x y then key_lt a' b' else token_lt x y
  end.

Definition maybe_num (signed : bool) (s : string) : result token :=
  if bool_decide (is_Some (Re.match_at s))
  then TNum <$> py_float s
  else mret (TStr s).

Definition split_keys (signed : bool) (s : string) : result (list token) :=
  mapM_result (maybe_num signed) (Re.split signed s).

(** *** [sorted] *)

(** [sorted] is stable and compares with [<] only.  For an order in which
    [<] is a strict weak order every stable sort returns the same list;
    the model is the stable insertion sort. *)
Section Sorted.
Context {A : Type}.

Fixpoint insert_sorted (lt : A -> A -> bool) (x : A) (l : list A) : list A :=
  match l with
  | [] => [x]
  | y :: l' => if lt y x then y :: insert_sorted lt x l' else x :: y :: l'
  end.

Fixpoint sorted (lt : A -> A -> bool) (l : list A) : list A :=
  match l with
  | [] => []
  | x :: l' => insert_sorted lt x (sorted lt l')
  end.

Fixpoint insert_sorted_exn (lt : A -> A -> result bool) (x : A) (l : list A)
  : result (list A) :=
  match l with
  | [] => mret [x]
  | y :: l' =>
      b ← lt y x;
      if b : bool then (y ::.) <$> insert_sorted_exn lt x l'
      else mret (x :: y :: l')
  end.

Fixpoint sorted_exn (lt : A -> A -> result bool) (l : list A)
  : result (list A) :=
  match l with
  | [] => mret []
  | x :: l' => s ← sorted_exn lt l'; insert_sorted_exn lt x s
  end.
End Sorted.

(** [sorted(file_list, key=split_keys)]: every key is computed first, then
    the names are sorted by their keys. *)
Definition natural_sort (file_list : list string) (signed : bool)
  : result (list string) :=
  keyed ← mapM_result (fun s => k ← split_keys signed s; mret (k, s)) file_list;
  s ← sorted_exn (fun a b => key_lt a.1 b.1) keyed;
  mret (s.*2).

(** ** The checkpoint directory *)

Abbreviation bytes := (list Byte.byte).

Global Instance byte_eq_dec : EqDecision Byte.byte := Byte.byte_eq_dec.

(** The regular files of [ckpt_dir], by file name. *)
Abbreviation directory := (gmap string bytes).

(** [None] when [ckpt_dir] does not exist. *)
Definition filesystem : Type := option directory.

Definition entries (fs : filesystem) : directory := default ∅ fs.

(** [pickle.dump] and [pickle.load], the serializer boundary. *)
Class Pickle (T : Type) : Type := {
  pickle_dumps : T -> bytes;
  pickle_loads : bytes -> option T
}.

(** What the module asks of a step: its rendering in an f-string and its
    truth value.  The documented steps are [int] and [float]; neither
    renders as [tmp]. *)
Class Step (S : Type) : Type := {
  step_str : S -> string;
  step_bool : S -> bool;
  step_str_not_tmp : forall s, step_str s <> "tmp"
}.

(** [os.path.join(a, p)] on POSIX. *)
Definition ends_with_slash (a : string) : bool :=
  match String.rev a with
  | String "/" _ => true
  | _ => false
  end.

Definition path_join (a p : string) : string :=
  if String.prefix "/" p then p
  else if String.eqb a "" || ends_with_slash a then a +:+ p
  else a +:+ "/" +:+ p.

Fixpoint strip_prefix (p s : string) : option string :=
  match p, s with
  | EmptyString, _ => Some s
  | String a p', String b s' => if Ascii.eqb a b then strip_prefix p' s' else None
  | String _ _, EmptyString => None
  end.

(** The entry of [ckpt_dir] a path denotes, for a path spelled as
    [os.path.join(ckpt_dir, name)]. *)
Definition path_name (ckpt_dir path : string) : option string :=
  strip_prefix (path_join ckpt_dir "") path.

Definition _checkpoint_path {S : Type} `{Step S}
    (ckpt_dir : string) (step : S) (prefix : string) : string :=
  path_join ckpt_dir (prefix +:+ step_str step).

(** The reserved temporary name and its path:
    [_checkpoint_path(ckpt_dir, 'tmp', prefix)]. *)
Definition tmp_name (prefix : string) : string := prefix +:+ "tmp".
Definition tmp_path (ckpt_dir prefix : string) : string :=
  path_join ckpt_dir (tmp_name prefix).

(** *** Mutations of the directory and programs over it *)

Inductive mutation : Type :=
| MakeDirs                               (* os.makedirs(ckpt_dir) *)
| Create (name : string)                 (* open(path, 'wb') *)
| Write (name : string) (data : bytes)   (* a write to an open file *)
| Remove (name : string)                 (* os.remove(path) *)
| Rename (src dst : string).             (* shutil.move(src, dst) *)

Global Instance mutation_eq_dec : EqDecision mutation.
Proof. solve_decision. Defined.

Definition apply_mutation (fs : filesystem) (m : mutation) : filesystem :=
  match m with
  | MakeDirs => Some (entries fs)
  | Create n => <[n := []]> <$> fs
  | Write n data => alter (fun old => old ++ data) n <$> fs
  | Remove n => delete n <$> fs
  | Rename src dst =>
      d ← fs;
      match d !! src with
      | Some b => Some (<[dst := b]> (delete src d))
      | None => Some d
      end
  end.

(** The directory after a sequence of mutations. *)
Definition replay (fs : filesystem) (ms : list mutation) : filesystem :=
  foldl apply_mutation fs ms.

(** A run of a program: what it returned or raised, the directory it left
    and the mutations it made, in order. *)
Record run (A : Type) : Type := Run {
  outcome : result A;
  final : filesystem;
  trace : list mutation
}.
Arguments Run {A} _ _ _.
Arguments outcome {A} _.
Arguments final {A} _.
Arguments trace {A} _.

Definition fsM (A : Type) : Type := filesystem -> run A.

Global Instance fsM_ret : MRet fsM := fun A a fs => Run (inr a) fs [].
Global Instance fsM_bind : MBind fsM := fun A B f m fs =>
  let r := m fs in
  match outcome r with
  | inl e => Run (inl e) (final r) (trace r)
  | inr a => let r' := f a (final r) in
             Run (outcome r') (final r') (trace r ++ trace r')
  end.

Definition fs_raise {A : Type} (e : exn) : fsM A := fun fs => Run (inl e) fs [].
Definition emit (m : mutation) : fsM unit :=
  fun fs => Run (inr tt) (apply_mutation fs m) [m].
Definition inspect {A : Type} (f : filesystem -> A) : fsM A :=
  fun fs => Run (inr (f fs)) fs [].

Fixpoint for_each {A : Type} (f : A -> fsM unit) (l : list A) : fsM unit :=
  match l with
  | [] => mret tt
  | x :: l' => f x;; for_each f l'
  end.

(** *** File-system calls *)

Definition dir_exists : fsM bool := inspect (fun fs => bool_decide (is_Some fs)).

Definition os_makedirs : fsM unit :=
  e ← dir_exists; if e : bool then fs_raise FileExistsError else emit MakeDirs.

Definition os_path_exists (name : string) : fsM bool :=
  inspect (fun fs => bool_decide (is_Some (entries fs !! name))).

Definition open_wb (name : string) : fsM unit :=
  e ← dir_exists; if e : bool then emit (Create name) else fs_raise FileNotFoundError.

Definition file_write (name : string) (data : bytes) : fsM unit :=
  emit (Write name data).

Definition os_remove (name : string) : fsM unit :=
  e ← os_path_exists name;
  if e : bool then emit (Remove name) else fs_raise FileNotFoundError.

Definition shutil_move (src dst : string) : fsM unit :=
  e ← os_path_exists src;
  if e : bool then emit (Rename src dst) else fs_raise FileNotFoundError.

(** [l[:stop]]. *)
Definition py_slice_to {A : Type} (l : list A) (stop : Z) : list A :=
  if stop <? 0 then take (Z.to_nat (Z.of_nat (length l) + stop)) l
  else take (Z.to_nat stop) l.

(** ** The checkpoint store and loader (lines 73-146)

    Scope of the model: [prefix] and the rendering of a step are plain file
    names (no separator, no [glob] metacharacter), and [ckpt_dir] is
    spelled without metacharacters or doubled trailing separators, so
    that [os.path.join(ckpt_dir, name)] denotes the entry [name] of the
    directory and [glob] returns that same spelling. *)

Section Store.
(** The order in which the operating system enumerates a directory
    ([os.listdir], [glob.glob]): any order will do. *)
Variable scan : directory -> list string.

Definition os_listdir : fsM (list string) :=
  fun fs => match fs with
            | Some d => Run (inr (scan d)) fs []
            | None => Run (inl FileNotFoundError) fs []
            end.

(** The names [glob] selects for the pattern [prefix*]: a name with a
    leading dot is matched only by a pattern with a leading dot. *)
Definition glob_match (prefix name : string) : bool :=
  String.prefix prefix name
  && (String.prefix "." prefix || negb (String.prefix "." name)).

(** [glob.glob(os.path.join(ckpt_dir, prefix + '*'))]; empty when the
    directory does not exist. *)
Definition glob_glob (fs : filesystem) (ckpt_dir prefix : string) : list string :=
  path_join ckpt_dir <$> filter (fun n => glob_match prefix n) (scan (entries fs)).

Context {T : Type} `{Pickle T} {S : Type} `{Step S}.

(** Lines 95-109: the temporary file is written, the target is checked
    and the temporary file is renamed. *)
Definition save_write_and_rename (ckpt_dir : string) (target : T) (step : S)
    (prefix : string) (overwrite : bool) : fsM string :=
  let ckpt_tmp := tmp_name prefix in
  let ckpt := prefix +:+ step_str step in
  open_wb ckpt_tmp;;
  file_write ckpt_tmp (pickle_dumps target);;
  e ← os_path_exists ckpt;
  (if e : bool then
     if overwrite then os_remove ckpt else fs_raise FileExistsError
   else mret tt);;
  shutil_move ckpt_tmp ckpt;;
  mret (path_join ckpt_dir ckpt).

(** Line 114: the files the retention step considers, in order. *)
Definition checkpoint_files (prefix : string) (names : list string) : list string :=
  sorted String.ltb (filter (fun p => String.prefix prefix p) names).

(** Lines 113-120. *)
Definition save_cleanup (prefix : string) (keep : Z) : fsM unit :=
  names ← os_listdir;
  let files := checkpoint_files prefix names in
  if keep <? Z.of_nat (length files)
  then for_each os_remove (py_slice_to files (- keep))
  else mret tt.

Definition save_checkpoint (ckpt_dir : string) (target : T) (step : S)
    (prefix : string) (keep : Z) (overwrite : bool) : fsM string :=
  e ← dir_exists;
  (if e : bool then mret tt else os_makedirs);;
  ckpt_path ← save_write_and_rename ckpt_dir target step prefix overwrite;
  save_cleanup prefix keep;;
  mret ckpt_path.

(** [checkpoint_files[-1] if checkpoint_files else None]. *)
Definition latest_checkpoint_path (fs : filesystem) (ckpt_dir prefix : string)
  : result (option string) :=
  files ← natural_sort (glob_glob fs ckpt_dir prefix) true;
  let ckpt_tmp_path := tmp_path ckpt_dir prefix in
  let files := filter (fun f => f <> ckpt_tmp_path) files in
  mret (last files).

(** The [target] argument is not used by the body. *)
Definition restore_from_path {U : Type} (fs : filesystem) (ckpt_dir : string)
    (ckpt_path : string) (target : U) : result T :=
  match path_name ckpt_dir ckpt_path ≫= (entries fs !!.) with
  | None => raise FileNotFoundError
  | Some data =>
      match pickle_loads data with
      | Some v => mret v
      | None => raise UnpicklingError
      end
  end.

(** [if step:] takes the strict branch for a step that is given and
    true; [None] and a false step ([0], [0.0]) take the other. *)
Definition restore_checkpoint (fs : filesystem) (ckpt_dir : string) (target : T)
    (step : option S) (prefix : string) : result T :=
  let by_step (s : S) : result T :=
    if bool_decide (is_Some (entries fs !! (prefix +:+ step_str s)))
    then restore_from_path fs ckpt_dir (_checkpoint_path ckpt_dir s prefix) target
    else raise ValueError in
  let latest : result T :=
    p ← latest_checkpoint_path fs ckpt_dir prefix;
    match p with
    | None => mret target
    | Some ckpt_path => restore_from_path fs ckpt_dir ckpt_path target
    end in
  match step with
  | Some s => if step_bool s then by_step s else latest
  | None => latest
  end.
End Store.

(** ** The watcher and the stream (lines 149-217) *)

Definition Qgtb (a b : Q) : bool := negb (Qle_bool a b).

(** [time.sleep(secs)] lets the world go on; a negative length raises. *)
Definition time_sleep (secs : Q) : result unit :=
  if Qgtb 0 secs then raise ValueError else mret tt.

(** What a watching process observes from outside: the clock and the
    directory as the writer leaves it.  [poll_time i] is what [time.time()]
    returns in iteration [i] of the polling loop, [disk i] is the directory
    that iteration lists. *)
Record world : Type := World {
  start_time : Q;
  poll_time : nat -> Q;
  disk : nat -> filesystem
}.

Section Watcher.
Variable scan : directory -> list string.

(** The [while True] loop, run for at most [fuel] iterations from
    iteration [i]; [None] when it is still polling after them. *)
Fixpoint wait_loop (fuel : nat) (w : world) (i : nat) (ckpt_dir : string)
    (last_ckpt_path : option string) (seconds_to_sleep : Q)
    (stop_time : option Q) (prefix : string) : option (result (option string)) :=
  match fuel with
  | O => None
  | Datatypes.S fuel' =>
      match latest_checkpoint_path scan (disk w i) ckpt_dir prefix with
      | inl e => Some (inl e)
      | inr ckpt_path =>
          if bool_decide (ckpt_path = None \/ ckpt_path = last_ckpt_path) then
            if match stop_time with
               | Some st => Qgtb (poll_time w i + seconds_to_sleep) st
               | None => false
               end
            then Some (inr None)
            else match time_sleep seconds_to_sleep with
                 | inl e => Some (inl e)
                 | inr _ => wait_loop fuel' w (Datatypes.S i) ckpt_dir last_ckpt_path
                              seconds_to_sleep stop_time prefix
                 end
          else Some (inr ckpt_path)
      end
  end.

Definition wait_for_new_checkpoint (fuel : nat) (w : world) (ckpt_dir : string)
    (last_ckpt_path : option string) (seconds_to_sleep : Q)
    (timeout : option Q) (prefix : string) : option (result (option string)) :=
  let stop_time := (fun t => start_time w + t)%Q <$> timeout in
  wait_loop fuel w 0 ckpt_dir last_ckpt_path seconds_to_sleep stop_time prefix.

(** *** The generator *)

(** Where the generator is suspended: before its first [next], at its
    [yield] (with the cursor and the time recorded in [start]), or after
    it has returned or raised. *)
Inductive gen_state : Type :=
| GenCreated
| GenSuspended (ckpt_path : string) (start : Q)
| GenDone.

(** What one call of [next] gives. *)
Inductive gen_event (T : Type) : Type :=
| Yield (v : string + T)
| StopIteration
| GenRaise (e : exn).
Arguments Yield {T} _.
Arguments StopIteration {T}.
Arguments GenRaise {T} _.

(** What one resumption of the generator observes besides the watcher's
    world: the clock when it resumes after a [yield], the clock when a
    checkpoint has been found, and the directory when it is loaded. *)
Record resumption : Type := Resumption {
  resume_time : Q;
  watch : world;
  found_time : Q;
  load_disk : filesystem
}.

Context {T : Type} `{Pickle T}.

Definition checkpoints_iterator_next (fuel : nat) (r : resumption)
    (st : gen_state) (ckpt_dir : string) (target : option T) (timeout : option Q)
    (min_interval_secs : Q) (prefix : string)
  : option (gen_event T * gen_state) :=
  let loop (ckpt_path : option string) :=
    match wait_for_new_checkpoint fuel (watch r) ckpt_dir ckpt_path 1 timeout prefix with
    | None => None
    | Some (inl e) => Some (GenRaise e, GenDone)
    | Some (inr None) => Some (StopIteration, GenDone)
    | Some (inr (Some new_ckpt_path)) =>
        let start := found_time r in
        match target with
        | None => Some (Yield (inl new_ckpt_path), GenSuspended new_ckpt_path start)
        | Some t =>
            match restore_from_path (load_disk r) ckpt_dir new_ckpt_path t with
            | inr v => Some (Yield (inr v), GenSuspended new_ckpt_path start)
            | inl e => Some (GenRaise e, GenDone)
            end
        end
    end in
  match st with
  | GenCreated => loop None
  | GenSuspended ckpt_path start =>
      let time_to_next_eval := (start + min_interval_secs - resume_time r)%Q in
      if Qgtb time_to_next_eval 0 then
        match time_sleep time_to_next_eval with
        | inl e => Some (GenRaise e, GenDone)
        | inr _ => loop (Some ckpt_path)
        end
      else loop (Some ckpt_path)
  | GenDone => Some (StopIteration, GenDone)
  end.
End Watcher.

Arguments Yield {T} _.
Arguments StopIteration {T}.
Arguments GenRaise {T} _.

(** ** Instances used by the examples *)

(** [int] steps: [str] is the decimal rendering and [0] is false. *)
#[global, refine] Instance int_step : Step Z :=
  {| step_str := pretty; step_bool := fun z => negb (z =? 0) |}.
Proof.
  assert (forall x s r, (forall r', s <> String "t" r') ->
            pretty_N_go x s <> String "t" r) as go.
  { intros x. induction (N.lt_wf_0 x) as [x _ IH]. intros s r Hs.
    destruct (decide (x = 0%N)) as [->|Hx].
    - rewrite pretty_N_go_0. apply Hs.
    - rewrite pretty_N_go_step by lia. apply IH.
      + apply N.div_lt; lia.
      + intros r'. unfold pretty_N_char. repeat case_match; discriminate. }
  intros [|p|p]; unfold pretty, pretty_Z; try discriminate.
  unfold pretty, pretty_positive, pretty, pretty_N. simpl.
  apply go. discriminate.
Defined.

(** A serializer for the examples: the object is its own pickle. *)
#[global] Instance bytes_pickle : Pickle bytes :=
  {| pickle_dumps := fun b => b; pickle_loads := fun b => Some b |}.

(** The enumeration order of the examples. *)
Definition scan_dom (d : directory) : list string := elements (dom d).

(** ** A training loop *)

Section Loop.
Context (scan : directory -> list string).
Context {T S : Type} `{Pickle T} `{Step S}.

(** A training loop: one save after another into the same directory,
    up to the first that raises. *)
Fixpoint save_all (ckpt_dir prefix : string) (keep : Z) (overwrite : bool)
    (saves : list (S * T)) (fs : filesystem) : result filesystem :=
  match saves with
  | [] => inr fs
  | (step, target) :: rest =>
      let r := save_checkpoint scan ckpt_dir target step prefix keep overwrite fs in
      match outcome r with
      | inl e => inl e
      | inr _ => save_all ckpt_dir prefix keep overwrite rest (final r)
      end
  end.

(** The files a sequence of saves writes: name and contents. *)
Definition saved_files (prefix : string) (saves : list (S * T))
  : list (string * bytes) :=
  (fun st => (prefix +:+ step_str st.1, pickle_dumps st.2)) <$> saves.
End Loop.

(** * Vocabulary of the properties *)

(** ** Orders and lists *)

(** The order of [str], as a relation. *)
Definition str_lt (a b : string) : Prop := String.ltb a b = true.
Definition str_le (a b : string) : Prop := String.ltb b a = false.

Global Instance str_lt_dec (a b : string) : Decision (str_lt a b).
Proof. unfold str_lt. apply _. Defined.

(** For a comparison [lt], [x] is not after [y]. *)
Definition not_after {A : Type} (lt : A -> A -> bool) (x y : A) : Prop :=
  lt y x = false.

(** The last [k] elements of a list. *)
Definition lastn {A : Type} (k : nat) (l : list A) : list A :=
  drop (length l - k) l.

(** Text in which no numeral can start: no digit, sign or point. *)
Fixpoint plain (s : string) : bool :=
  match s with
  | EmptyString => true
  | String c s' =>
      negb (Re.is_digit c || Re.is_sign c || Ascii.eqb c ".") && plain s'
  end.

(** Text made of digits. *)
Fixpoint all_digits (s : string) : bool :=
  match s with
  | EmptyString => true
  | String c s' => Re.is_digit c && all_digits s'
  end.

(** The value of an integer numeral. *)
Definition integer_val (sg d : string) : Float.t :=
  let mag := Float.round (digits_val 0 d) 1 in
  if String.eqb sg "-" then Float.neg mag else mag.

(** ** Numerals and keys *)

(** Whether a numeral starts at the head of a string: after an optional
    sign, a digit, or a point and a digit. *)
Definition starts_unsigned (s : string) : bool :=
  match s with
  | String c s' =>
      Re.is_digit c
      || (Ascii.eqb c "."
          && match s' with String c' _ => Re.is_digit c' | EmptyString => false end)
  | EmptyString => false
  end.

Definition starts_numeral (s : string) : bool :=
  match s with
  | String c s' => if Re.is_sign c then starts_unsigned s' else starts_unsigned s
  | EmptyString => false
  end.

(** A string that does not go on with a digit. *)
Definition no_digit_head (r : string) : Prop :=
  match r with
  | String c _ => Re.is_digit c = false
  | EmptyString => True
  end.

(** The empty string or one sign. *)
Definition sign_or_empty (s : string) : Prop :=
  s = EmptyString \/ exists c, Re.is_sign c = true /\ s = String c EmptyString.

Definition wf_exp (x : option (ascii * string * string)) : Prop :=
  match x with
  | Some (c, sg, ds) =>
      Re.is_exp_mark c = true /\ sign_or_empty sg
      /\ all_digits ds = true /\ ds <> EmptyString
  | None => True
  end.

(** The numerals of the grammar. *)
Definition wf_numeral (n : Re.numeral) : Prop :=
  sign_or_empty (Re.n_sign n)
  /\ all_digits (Re.n_int n) = true
  /\ all_digits (Re.n_frac n) = true
  /\ (Re.n_dot n = false -> Re.n_frac n = EmptyString)
  /\ (Re.n_int n <> EmptyString \/ (Re.n_dot n = true /\ Re.n_frac n <> EmptyString))
  /\ wf_exp (Re.n_exp n).

(** The numeral without its sign. *)
Definition unsign (n : Re.numeral) : Re.numeral :=
  Re.Numeral EmptyString (Re.n_int n) (Re.n_dot n) (Re.n_frac n) (Re.n_exp n).

(** The result of [re.split]: texts and the groups of the numerals between
    them, then the last text. *)
Fixpoint interleave_groups (signed : bool) (segs : list (string * Re.numeral))
    (last : string) : list string :=
  match segs with
  | [] => [last]
  | (t, n) :: segs' =>
      t :: Re.group signed n :: interleave_groups signed segs' last
  end.

(** The key of such a result. *)
Fixpoint key_of (signed : bool) (segs : list (string * Re.numeral))
    (last : string) : list token :=
  match segs with
  | [] => [TStr last]
  | (t, n) :: segs' =>
      TStr t :: TNum (numeral_val (if signed then n else unsign n))
        :: key_of signed segs' last
  end.

(** A text in which no numeral starts, then a numeral of the grammar. *)
Definition segment_ok (seg : string * Re.numeral) : Prop :=
  starts_numeral seg.1 = false /\ wf_numeral seg.2.

(** Keys in which texts and numbers take turns, up to a last text;
    [text] tells which of the two comes first. *)
Fixpoint takes_turns (text : bool) (k : list token) : Prop :=
  match k with
  | [] => text = false
  | TStr _ :: k' => text = true /\ takes_turns false k'
  | TNum _ :: k' => text = false /\ k' <> [] /\ takes_turns true k'
  end.

Definition alternating (k : list token) : Prop := takes_turns true k.

(** A number without its sign. *)
Definition abs_token (x : token) : token :=
  match x with
  | TStr s => TStr s
  | TNum v => TNum (Float.abs v)
  end.

(** The order of keys where [key_lt] does not raise. *)
Definition key_ltb (a b : list token) : bool :=
  match key_lt a b with
  | inr r => r
  | inl _ => false
  end.

(** The key of a name. *)
Definition the_key (signed : bool) (s : string) : list token :=
  match split_keys signed s with
  | inr k => k
  | inl _ => []
  end.

(** ** Directories and runs *)

(** An enumeration lists every entry once, in some order. *)
Definition fair (scan : directory -> list string) : Prop :=
  forall d, scan d ≡ₚ elements (dom d).

(** A program whose recorded mutations account for the directory it
    leaves. *)
Definition logged {A : Type} (m : fsM A) : Prop :=
  forall fs, final (m fs) = replay fs (trace (m fs)).

(** A run with further mutations recorded before its own. *)
Definition after {A : Type} (tr : list mutation) (r : run A) : run A :=
  Run (outcome r) (final r) (tr ++ trace r).

(** The directory without the names of a list. *)
Definition remove_all (l : list string) (d : directory) : directory :=
  foldr delete d l.

(** The directory once the temporary file has been renamed. *)
Definition renamed {T S : Type} `{Pickle T} `{Step S}
    (d : directory) (target : T) (step : S) (prefix : string) : directory :=
  <[prefix +:+ step_str step := pickle_dumps target]> (delete (tmp_name prefix) d).

(** Lines 115-116: the files the retention step removes. *)
Definition old_ckpts (scan : directory -> list string)
    (prefix : string) (keep : Z) (d : directory) : list string :=
  let files := checkpoint_files prefix (scan d) in
  if keep <? Z.of_nat (length files) then py_slice_to files (- keep) else [].

(** What line 91 adds to the trace. *)
Definition made (fs : filesystem) : list mutation :=
  match fs with Some _ => [] | None => [MakeDirs] end.

(** A mutation that leaves the entry [n] alone. *)
Definition spares (n : string) (m : mutation) : Prop :=
  match m with
  | MakeDirs => True
  | Create n' | Write n' _ | Remove n' => n' <> n
  | Rename src dst => src <> n /\ dst <> n
  end.

(** The mutations of a save up to the rename of the temporary file. *)
Definition before_rename {T S : Type} `{Pickle T} `{Step S}
    (fs : filesystem) (target : T) (step : S) (prefix : string) (overwrite : bool)
    (m : mutation) : Prop :=
  m = MakeDirs
  \/ m = Create (tmp_name prefix)
  \/ m = Write (tmp_name prefix) (pickle_dumps target)
  \/ (m = Remove (prefix +:+ step_str step) /\ overwrite = true
      /\ is_Some (entries fs !! (prefix +:+ step_str step))).

Definition is_rename (m : mutation) : Prop :=
  match m with Rename _ _ => True | _ => False end.

(** The files of the family that sort after a name. *)
Definition newer_files (prefix name : string) (d : directory) : list string :=
  filter (fun n => String.prefix prefix n = true /\ str_lt name n)
         (elements (dom d)).

(** The files of a directory whose names start with [prefix]. *)
Definition family (prefix : string) (d : directory) : directory :=
  filter (fun e => String.prefix prefix e.1 = true) d.

(** The family of the directory holds exactly the files of [L]. *)
Definition holds (prefix : string) (fs : filesystem)
    (L : list (string * bytes)) : Prop :=
  forall n, String.prefix prefix n = true ->
    entries fs !! n = (list_to_map L : directory) !! n.

(** ** The watcher *)

(** What the watcher takes for no news: no checkpoint, or the one seen
    last. *)
Definition nothing_new (scan : directory -> list string) (fs : filesystem)
    (ckpt_dir : string) (last_ckpt_path : option string) (prefix : string) : Prop :=
  latest_checkpoint_path scan fs ckpt_dir prefix = inr None
  \/ latest_checkpoint_path scan fs ckpt_dir prefix = inr last_ckpt_path.

(** The cursor the generator passes to the watcher. *)
Definition cursor (st : gen_state) : option string :=
  match st with
  | GenSuspended ckpt_path _ => Some ckpt_path
  | _ => None
  end.

(** ** Inputs of the examples *)

Definition blob (s : string) : bytes := String.list_byte_of_string s.

Definition dir_old5 : filesystem := Some {[ "checkpoint_5" := blob "old" ]}.

Definition dir_5_and_7 : filesystem :=
  Some {[ "checkpoint_5" := blob "old"; "checkpoint_7" := blob "seven" ]}.

Definition dir_with_tmp : filesystem :=
  Some {[ "checkpoint_3" := blob "three"; "checkpoint_tmp" := blob "half" ]}.

Definition three_saves : list (Z * bytes) :=
  [(1, blob "one"); (2, blob "two"); (3, blob "three")].

(** A world in which nothing is ever written and the clock shows the
    number of the iteration, in seconds. *)
Definition quiet_world : world :=
  World 0 (fun i => inject_Z (Z.of_nat i)) (fun _ => Some ∅).

(** ** The order of keys *)

Global Instance float_eq_dec : EqDecision Float.t.
Proof. solve_decision. Defined.

Global Instance token_eq_dec : EqDecision token.
Proof. solve_decision. Defined.

(** Three-way comparison of the elements of keys; between a text and a
    number, where [<] raises, the text is put first. *)
Definition token_compare (x y : token) : comparison :=
  match x, y with
  | TStr a, TStr b => String.compare a b
  | TNum a, TNum b => Float.compare a b
  | TStr _, TNum _ => Lt
  | TNum _, TStr _ => Gt
  end.

(** Three-way comparison of keys, element by element. *)
Fixpoint key_compare (a b : list token) : comparison :=
  match a, b with
  | [], [] => Eq
  | [], _ :: _ => Lt
  | _ :: _, [] => Gt
  | x :: a', y :: b' =>
      match token_compare x y with
      | Eq => key_compare a' b'
      | c => c
      end
  end.

(** The key of [a] is not greater than the key of [b]: the comparison
    [key(b) < key(a)] is made without an exception and is false. *)
Definition key_le (signed : bool) (a b : string) : Prop :=
  (ka ← split_keys signed a; kb ← split_keys signed b; key_lt kb ka) = inr false.

(** [float(str(z))] for an [int] [z]. *)
Definition float_of_int (z : Z) : Float.t :=
  if z <? 0 then Float.neg (Float.round (- z) 1) else Float.round z 1.

(** A name without a sign character. *)
Fixpoint signless (s : string) : bool :=
  match s with
  | EmptyString => true
  | String c s' => negb (Re.is_sign c) && signless s'
  end.

(** ** The polling loop *)

(** Iteration [i] of the polling loop goes on to the next one: it sees no
    news and its sleep would not pass the deadline. *)
Definition keeps_waiting (scan : directory -> list string) (w : world)
    (ckpt_dir : string) (last_ckpt_path : option string) (seconds_to_sleep : Q)
    (stop_time : option Q) (prefix : string) (i : nat) : Prop :=
  nothing_new scan (disk w i) ckpt_dir last_ckpt_path prefix
  /\ match stop_time with
     | Some st => Qgtb (poll_time w i + seconds_to_sleep) st = false
     | None => True
     end.

(** ** Further inputs of the examples *)

(** Checkpoints and a file of another family. *)
Definition dir_two_families : filesystem :=
  Some {[ "checkpoint_5" := blob "old"; "checkpoint_7" := blob "seven";
          "best_1" := blob "best" ]}.

(** The file of step 9 alone. *)
Definition dir_only_9 : filesystem := Some {[ "checkpoint_9" := blob "nine" ]}.

(** The files of steps 9 and 10, and a temporary file. *)
Definition dir_9_and_10 : filesystem :=
  Some {[ "checkpoint_9" := blob "nine"; "checkpoint_10" := blob "ten";
          "checkpoint_tmp" := blob "half" ]}.

(** A directory with nothing but a half-written temporary file. *)
Definition dir_only_tmp : filesystem :=
  Some {[ "checkpoint_tmp" := blob "half" ]}.

(** The files of steps 8 and 9, and a temporary file. *)
Definition dir_8_and_9 : filesystem :=
  Some {[ "checkpoint_8" := blob "eight"; "checkpoint_9" := blob "nine";
          "checkpoint_tmp" := blob "half" ]}.

(** A world in which the file of step 3 appears before the third poll; the
    clock shows the number of the iteration, in seconds. *)
Definition arrival_world : world :=
  World 0 (fun i => inject_Z (Z.of_nat i))
        (fun i => if (i <? 2)%nat then Some ∅
                  else Some {[ "checkpoint_3" := blob "three" ]}).

(** * Properties *)

(** ** Programs over the directory *)

Lemma logged_ret {A : Type} (a : A) : logged (mret a).
Proof. intros fs. reflexivity. Qed.

Lemma logged_raise {A : Type} (e : exn) : logged (@fs_raise A e).
Proof. intros fs. reflexivity. Qed.

Lemma logged_emit (m : mutation) : logged (emit m).
Proof. intros fs. reflexivity. Qed.

Lemma logged_inspect {A : Type} (f : filesystem -> A) : logged (inspect f).
Proof. intros fs. reflexivity. Qed.

Lemma logged_bind {A B : Type} (m : fsM A) (f : A -> fsM B) :
  logged m -> (forall a, logged (f a)) -> logged (m ≫= f).
Proof.
  intros Hm Hf fs. unfold mbind, fsM_bind.
  destruct (outcome (m fs)) as [e|a]; simpl; [apply Hm|].
  unfold replay. rewrite foldl_app. fold (replay fs (trace (m fs))).
  rewrite <- Hm. apply Hf.
Qed.

Lemma logged_if {A : Type} (b : bool) (m1 m2 : fsM A) :
  logged m1 -> logged m2 -> logged (if b then m1 else m2).
Proof. by destruct b. Qed.

Lemma logged_for_each {A : Type} (f : A -> fsM unit) (l : list A) :
  (forall a, logged (f a)) -> logged (for_each f l).
Proof.
  intros Hf. induction l as [|x l IH]; simpl.
  - apply logged_ret.
  - apply logged_bind; auto.
Qed.

Lemma logged_os_listdir scan : logged (os_listdir scan).
Proof. intros [d|]; reflexivity. Qed.

Create HintDb logged.
#[local] Hint Resolve logged_ret logged_raise logged_emit logged_inspect
  logged_bind logged_if logged_for_each logged_os_listdir : logged.

Lemma logged_os_remove name : logged (os_remove name).
Proof. unfold os_remove, os_path_exists. apply logged_bind; [auto with logged|]. intros []; auto with logged. Qed.

Lemma logged_save_checkpoint scan {T S : Type} `{Pickle T} `{Step S}
    ckpt_dir (target : T) (step : S) prefix keep overwrite :
  logged (save_checkpoint scan ckpt_dir target step prefix keep overwrite).
Proof.
  unfold save_checkpoint, save_write_and_rename, save_cleanup, os_makedirs,
    open_wb, file_write, shutil_move, os_path_exists, dir_exists.
  repeat first
    [ apply logged_bind; [|intros ?]
    | apply logged_if
    | apply logged_for_each; intros ?
    | apply logged_os_remove
    | match goal with |- logged (match ?b with true => _ | false => _ end) => destruct b end
    | apply logged_inspect
    | solve [auto with logged] ].
Qed.

(** ** Names *)

Lemma append_inj_r (p a b : string) : p +:+ a = p +:+ b -> a = b.
Proof. induction p as [|c p IH]; simpl; [done|]. intros [= ?]. auto. Qed.

Lemma prefix_append (p s : string) : String.prefix p (p +:+ s) = true.
Proof.
  induction p as [|c p IH]; simpl.
  - by destruct s.
  - destruct (ascii_dec c c); [done|congruence].
Qed.

Lemma ckpt_name_not_tmp {S : Type} `{Step S} (prefix : string) (step : S) :
  prefix +:+ step_str step <> tmp_name prefix.
Proof. intros E. apply append_inj_r in E. by apply step_str_not_tmp in E. Qed.

(** ** Runs of the file-system calls *)

Lemma after_nil {A : Type} (r : run A) : after [] r = r.
Proof. by destruct r. Qed.

Lemma after_Run {A : Type} tr (o : result A) fs tr' :
  after tr (Run o fs tr') = Run o fs (tr ++ tr').
Proof. done. Qed.

Lemma bind_run_ok {A B : Type} (m : fsM A) (f : A -> fsM B) fs a fs' tr :
  m fs = Run (inr a) fs' tr -> (m ≫= f) fs = after tr (f a fs').
Proof. intros E. unfold mbind, fsM_bind. by rewrite E. Qed.

Lemma bind_run_err {A B : Type} (m : fsM A) (f : A -> fsM B) fs e fs' tr :
  m fs = Run (inl e) fs' tr -> (m ≫= f) fs = Run (inl e) fs' tr.
Proof. intros E. unfold mbind, fsM_bind. by rewrite E. Qed.

Lemma ret_run {A : Type} (a : A) fs : (mret a : fsM A) fs = Run (inr a) fs [].
Proof. done. Qed.

Section Calls.
Implicit Types (d : directory) (n : string).

Lemma dir_exists_run fs :
  dir_exists fs = Run (inr (bool_decide (is_Some fs))) fs [].
Proof. done. Qed.

Lemma os_path_exists_run fs n :
  os_path_exists n fs = Run (inr (bool_decide (is_Some (entries fs !! n)))) fs [].
Proof. done. Qed.

Lemma open_wb_run d n :
  open_wb n (Some d) = Run (inr tt) (Some (<[n := []]> d)) [Create n].
Proof. done. Qed.

Lemma file_write_run d n data :
  file_write n data (Some d)
  = Run (inr tt) (Some (alter (fun old => old ++ data) n d)) [Write n data].
Proof. done. Qed.

Lemma os_remove_run d n :
  is_Some (d !! n) ->
  os_remove n (Some d) = Run (inr tt) (Some (delete n d)) [Remove n].
Proof.
  intros Hn. unfold os_remove.
  erewrite bind_run_ok by apply os_path_exists_run. simpl.
  by rewrite bool_decide_true.
Qed.

Lemma shutil_move_run d src dst data :
  d !! src = Some data ->
  shutil_move src dst (Some d)
  = Run (inr tt) (Some (<[dst := data]> (delete src d))) [Rename src dst].
Proof.
  intros Hn. unfold shutil_move.
  erewrite bind_run_ok by apply os_path_exists_run. simpl.
  rewrite bool_decide_true by (by rewrite Hn). unfold emit. simpl.
  by rewrite Hn.
Qed.

Lemma lookup_remove_all l d n :
  remove_all l d !! n = if decide (n ∈ l) then None else d !! n.
Proof.
  induction l as [|x l IH]; simpl; [done|].
  destruct (decide (n = x)) as [->|Hne].
  - rewrite lookup_delete_eq. rewrite decide_True; [done|by left].
  - rewrite lookup_delete_ne, IH by done.
    destruct (decide (n ∈ l)).
    + rewrite decide_True; [done|by right].
    + rewrite decide_False; [done|]. by intros [?|?]%elem_of_cons.
Qed.

Lemma for_each_remove_run l d :
  NoDup l -> (forall n, n ∈ l -> is_Some (d !! n)) ->
  for_each os_remove l (Some d)
  = Run (inr tt) (Some (remove_all l d)) (Remove <$> l).
Proof.
  intros Hnd. revert d. induction Hnd as [|x l Hx Hnd IH]; intros d Hin; simpl.
  - done.
  - erewrite bind_run_ok by (apply os_remove_run, Hin; by left).
    rewrite IH.
    + rewrite after_Run. f_equal. f_equal. apply map_eq. intros n.
      rewrite lookup_remove_all. destruct (decide (n = x)) as [->|Hne].
      * rewrite !lookup_delete_eq. by destruct (decide (x ∈ l)).
      * by rewrite !lookup_delete_ne, lookup_remove_all by done.
    + intros n Hn. rewrite lookup_delete_ne; [apply Hin; by right|].
      intros ->. done.
Qed.
End Calls.

(** ** Runs of [save_checkpoint] *)

Section SaveRuns.
Context (scan : directory -> list string).
Context {T S : Type} `{Pickle T} `{Step S}.
Implicit Types (d : directory) (fs : filesystem).

Lemma write_and_rename_run d ckpt_dir target step prefix overwrite :
  let tmp := tmp_name prefix in
  let name := prefix +:+ step_str step in
  let data := pickle_dumps target in
  save_write_and_rename ckpt_dir target step prefix overwrite (Some d) =
    match d !! name with
    | Some _ =>
        if overwrite
        then Run (inr (path_join ckpt_dir name))
                 (Some (renamed d target step prefix))
                 [Create tmp; Write tmp data; Remove name; Rename tmp name]
        else Run (inl FileExistsError) (Some (<[tmp := data]> d))
                 [Create tmp; Write tmp data]
    | None =>
        Run (inr (path_join ckpt_dir name))
            (Some (renamed d target step prefix))
            [Create tmp; Write tmp data; Rename tmp name]
    end.
Proof.
  intros tmp name data.
  assert (name <> tmp) as Hne by apply ckpt_name_not_tmp.
  unfold save_write_and_rename. fold tmp name data.
  erewrite bind_run_ok by apply open_wb_run.
  erewrite bind_run_ok by apply file_write_run.
  rewrite alter_insert_eq. simpl.
  erewrite bind_run_ok by apply os_path_exists_run. simpl.
  rewrite lookup_insert_ne by done.
  destruct (d !! name) as [old|] eqn:Hname; simpl.
  - destruct overwrite; simpl.
    + erewrite (bind_run_ok (os_remove name)).
      2:{ apply os_remove_run. by rewrite lookup_insert_ne, Hname. }
      erewrite bind_run_ok.
      2:{ apply shutil_move_run. by rewrite lookup_delete_ne, lookup_insert_eq. }
      rewrite ret_run, !after_Run. simpl. f_equal. f_equal.
      unfold renamed. fold tmp name data.
      apply map_eq. intros n.
      destruct (decide (n = name)) as [->|]; [by rewrite !lookup_insert_eq|].
      rewrite !lookup_insert_ne by done.
      destruct (decide (n = tmp)) as [->|]; [by rewrite !lookup_delete_eq|].
      by rewrite !lookup_delete_ne, lookup_insert_ne by done.
    + erewrite (bind_run_err (fs_raise _)) by reflexivity. done.
  - erewrite (bind_run_ok (mret tt)) by reflexivity.
    erewrite bind_run_ok.
    2:{ apply shutil_move_run. by rewrite lookup_insert_eq. }
    rewrite ret_run, !after_Run. simpl. f_equal. f_equal.
    unfold renamed. fold tmp name data.
    by rewrite delete_insert_eq.
Qed.
End SaveRuns.

(** ** The order of [str] *)

Lemma compare_as_OT (a b : string) :
  String.compare a b = String_as_OT.compare a b.
Proof.
  revert b. induction a as [|x a IH]; intros [|y b]; simpl; [done..|].
  rewrite IH. unfold Ascii.compare, Ascii_as_OT.compare, N_as_OT.compare.
  by destruct (N.compare (N_of_ascii x) (N_of_ascii y)).
Qed.

Lemma str_lt_compare (a b : string) : str_lt a b <-> String_as_OT.lt a b.
Proof.
  unfold str_lt, String.ltb, String_as_OT.lt. rewrite compare_as_OT.
  by destruct (String_as_OT.compare a b).
Qed.

Global Instance str_lt_strict : StrictOrder str_lt.
Proof.
  split.
  - intros a Ha%str_lt_compare. by apply (irreflexivity String_as_OT.lt a).
  - intros a b c Hab%str_lt_compare Hbc%str_lt_compare. apply str_lt_compare.
    by transitivity b.
Qed.

Lemma str_trichotomy (a b : string) : str_lt a b \/ a = b \/ str_lt b a.
Proof.
  destruct (String_as_OT.compare_spec a b) as [E|L|L].
  - right; by left.
  - left. by apply str_lt_compare.
  - right; right. by apply str_lt_compare.
Qed.

Lemma str_le_lt (a b : string) : str_le a b <-> str_lt a b \/ a = b.
Proof.
  unfold str_le. split.
  - intros Hba. destruct (str_trichotomy a b) as [?|[?|Hlt]]; auto.
    unfold str_lt in Hlt. congruence.
  - intros [Hlt| ->].
    + destruct (String.ltb b a) eqn:E; [|done].
      exfalso. apply (irreflexivity str_lt a). by transitivity b.
    + destruct (String.ltb b b) eqn:E; [|done].
      exfalso. by apply (irreflexivity str_lt b).
Qed.

Global Instance str_le_trans : Transitive str_le.
Proof.
  intros a b c. rewrite !str_le_lt. intros [?| ->] [?| ->]; auto.
  left. by transitivity b.
Qed.

Lemma str_le_antisym (a b : string) : str_le a b -> str_le b a -> a = b.
Proof.
  rewrite !str_le_lt. intros [?| ->] [?| E]; auto.
  exfalso. apply (irreflexivity str_lt a). by transitivity b.
Qed.

(** ** [sorted] *)

Section SortedFacts.
Context {A : Type} (lt : A -> A -> bool).

Lemma insert_sorted_perm x l : insert_sorted lt x l ≡ₚ x :: l.
Proof.
  induction l as [|y l IH]; simpl; [done|].
  destruct (lt y x); [|done]. rewrite IH. apply perm_swap.
Qed.

Lemma sorted_perm l : sorted lt l ≡ₚ l.
Proof.
  induction l as [|x l IH]; simpl; [done|].
  by rewrite insert_sorted_perm, IH.
Qed.

Hypothesis lt_asym : forall x y, lt x y = true -> lt y x = false.

Lemma insert_sorted_Sorted x l :
  Sorted (not_after lt) l -> Sorted (not_after lt) (insert_sorted lt x l).
Proof.
  induction 1 as [|y l Hl IH Hy]; simpl.
  - by repeat constructor.
  - destruct (lt y x) eqn:E.
    + constructor; [done|].
      destruct Hy as [|z l' Hz]; simpl.
      * constructor. by apply lt_asym.
      * destruct (lt z x); constructor; [done|]. by apply lt_asym.
    + constructor; [by constructor|]. by constructor.
Qed.

Lemma sorted_Sorted l : Sorted (not_after lt) (sorted lt l).
Proof.
  induction l as [|x l IH]; simpl; [constructor|].
  by apply insert_sorted_Sorted.
Qed.
End SortedFacts.

Lemma str_ltb_asym (a b : string) : String.ltb a b = true -> String.ltb b a = false.
Proof.
  intros Hab. destruct (String.ltb b a) eqn:E; [|done].
  exfalso. apply (irreflexivity str_lt a). by transitivity b.
Qed.

(** Sorting a list of distinct names gives the one increasing list of
    these names, whatever their order in the input. *)
Lemma sorted_names_increasing (l : list string) :
  NoDup l -> StronglySorted str_lt (sorted String.ltb l).
Proof.
  intros Hnd.
  assert (NoDup (sorted String.ltb l)) as Hnd' by (by rewrite sorted_perm).
  assert (StronglySorted str_le (sorted String.ltb l)) as Hs.
  { apply Sorted_StronglySorted; [apply _|].
    apply (sorted_Sorted String.ltb str_ltb_asym). }
  induction Hs as [|x l' Hs IH Hx]; [constructor|].
  apply NoDup_cons in Hnd' as [Hx' Hnd'].
  constructor; [by apply IH|].
  rewrite Forall_forall in Hx |- *. intros y Hy.
  destruct (proj1 (str_le_lt x y) (Hx y Hy)) as [?| ->]; [done|].
  by destruct Hx'.
Qed.

Lemma sorted_names_unique (l inc : list string) :
  StronglySorted str_lt inc -> l ≡ₚ inc -> sorted String.ltb l = inc.
Proof.
  intros Hinc Hperm.
  assert (NoDup inc) as Hnd.
  { clear Hperm. induction Hinc as [|x inc' Hs IH Hx]; constructor; [|done].
    intros Hin. rewrite Forall_forall in Hx.
    by apply (irreflexivity str_lt x), Hx. }
  apply (StronglySorted_unique_strong str_lt).
  - intros x y _ _ Hxy Hyx. exfalso. apply (irreflexivity str_lt x).
    by transitivity y.
  - apply sorted_names_increasing. by rewrite Hperm.
  - done.
  - by rewrite sorted_perm.
Qed.

(** ** Directory listings *)

Lemma scan_dom_fair : fair scan_dom.
Proof. intros d. reflexivity. Qed.

Lemma py_slice_to_take {A : Type} (l : list A) (stop : Z) :
  exists k, py_slice_to l stop = take k l.
Proof. unfold py_slice_to. destruct (stop <? 0); eauto. Qed.

Lemma py_slice_to_neg {A : Type} (l : list A) (keep : Z) :
  0 < keep -> py_slice_to l (- keep) = take (length l - Z.to_nat keep) l.
Proof.
  intros Hk. unfold py_slice_to.
  destruct (Z.ltb_spec (- keep) 0); [|lia]. f_equal. lia.
Qed.

Section Listing.
Context (scan : directory -> list string) (Hscan : fair scan).
Implicit Types (d : directory).

Lemma elem_of_scan d n : n ∈ scan d <-> is_Some (d !! n).
Proof. by rewrite (Hscan d), elem_of_elements, elem_of_dom. Qed.

Lemma NoDup_scan d : NoDup (scan d).
Proof. rewrite (Hscan d). apply NoDup_elements. Qed.

Lemma elem_of_checkpoint_files d prefix n :
  n ∈ checkpoint_files prefix (scan d)
  <-> String.prefix prefix n = true /\ is_Some (d !! n).
Proof.
  unfold checkpoint_files.
  rewrite sorted_perm, list_elem_of_filter, elem_of_scan.
  by rewrite Is_true_true.
Qed.

Lemma NoDup_checkpoint_files d prefix :
  NoDup (checkpoint_files prefix (scan d)).
Proof.
  unfold checkpoint_files. rewrite sorted_perm.
  apply NoDup_filter, NoDup_scan.
Qed.

Lemma checkpoint_files_increasing d prefix :
  StronglySorted str_lt (checkpoint_files prefix (scan d)).
Proof. apply sorted_names_increasing, NoDup_filter, NoDup_scan. Qed.

Lemma old_ckpts_sublist prefix keep d :
  exists k, old_ckpts scan prefix keep d = take k (checkpoint_files prefix (scan d)).
Proof.
  unfold old_ckpts. destruct (keep <? _).
  - apply py_slice_to_take.
  - by exists 0%nat.
Qed.

Lemma save_cleanup_run prefix keep d :
  save_cleanup scan prefix keep (Some d)
  = Run (inr tt) (Some (remove_all (old_ckpts scan prefix keep d) d))
        (Remove <$> old_ckpts scan prefix keep d).
Proof.
  unfold save_cleanup.
  erewrite bind_run_ok by reflexivity. rewrite after_nil.
  destruct (old_ckpts_sublist prefix keep d) as [k Hk].
  assert (for_each os_remove (old_ckpts scan prefix keep d) (Some d)
          = Run (inr tt) (Some (remove_all (old_ckpts scan prefix keep d) d))
                (Remove <$> old_ckpts scan prefix keep d)) as Hrun.
  { apply for_each_remove_run.
    - rewrite Hk. eapply sublist_NoDup; [|apply sublist_take].
      apply NoDup_checkpoint_files.
    - intros n. rewrite Hk. intros Hn%elem_of_take.
      destruct Hn as (i & Hi & _).
      apply list_elem_of_lookup_2 in Hi.
      by apply elem_of_checkpoint_files in Hi as [_ ?]. }
  unfold old_ckpts in *.
  destruct (keep <? _); [done|]. done.
Qed.
End Listing.

(** ** Runs of [save_checkpoint] *)

Section SaveCheckpoint.
Context (scan : directory -> list string).
Context {T S : Type} `{Pickle T} `{Step S}.
Implicit Types (d : directory) (fs : filesystem).

Lemma save_checkpoint_split fs ckpt_dir (target : T) (step : S) prefix keep overwrite :
  save_checkpoint scan ckpt_dir target step prefix keep overwrite fs
  = after (made fs)
      ((ckpt_path ← save_write_and_rename ckpt_dir target step prefix overwrite;
        save_cleanup scan prefix keep;; mret ckpt_path) (Some (entries fs))).
Proof.
  unfold save_checkpoint.
  erewrite bind_run_ok by apply dir_exists_run. rewrite after_nil.
  destruct fs as [d|]; simpl.
  - erewrite (bind_run_ok (mret tt)) by reflexivity. by rewrite !after_nil.
  - erewrite (bind_run_ok os_makedirs) by reflexivity. done.
Qed.

(** The run that stops at the existence check. *)
Lemma save_checkpoint_exists fs ckpt_dir (target : T) (step : S) prefix keep :
  is_Some (entries fs !! (prefix +:+ step_str step)) ->
  save_checkpoint scan ckpt_dir target step prefix keep false fs
  = Run (inl FileExistsError)
        (Some (<[tmp_name prefix := pickle_dumps target]> (entries fs)))
        [Create (tmp_name prefix); Write (tmp_name prefix) (pickle_dumps target)].
Proof.
  intros [old Hold]. rewrite save_checkpoint_split.
  erewrite bind_run_err.
  2:{ rewrite write_and_rename_run, Hold. reflexivity. }
  destruct fs as [d|]; [done|]. simpl in Hold. by rewrite lookup_empty in Hold.
Qed.

(** The run that renames: the mutations up to the rename, then those of
    the retention step. *)
Lemma save_checkpoint_renames fs ckpt_dir (target : T) (step : S) prefix keep overwrite :
  let name := prefix +:+ step_str step in
  (is_Some (entries fs !! name) -> overwrite = true) ->
  fair scan ->
  let d1 := renamed (entries fs) target step prefix in
  save_checkpoint scan ckpt_dir target step prefix keep overwrite fs
  = Run (inr (path_join ckpt_dir name))
        (Some (remove_all (old_ckpts scan prefix keep d1) d1))
        (made fs
         ++ [Create (tmp_name prefix); Write (tmp_name prefix) (pickle_dumps target)]
         ++ match entries fs !! name with Some _ => [Remove name] | None => [] end
         ++ [Rename (tmp_name prefix) name]
         ++ (Remove <$> old_ckpts scan prefix keep d1)).
Proof.
  intros name Hov Hscan d1. rewrite save_checkpoint_split.
  assert (save_write_and_rename ckpt_dir target step prefix overwrite
            (Some (entries fs))
          = Run (inr (path_join ckpt_dir name)) (Some d1)
              ([Create (tmp_name prefix);
                Write (tmp_name prefix) (pickle_dumps target)]
               ++ match entries fs !! name with
                  | Some _ => [Remove name]
                  | None => []
                  end
               ++ [Rename (tmp_name prefix) name])) as Hrun.
  { rewrite write_and_rename_run. fold name.
    destruct (entries fs !! name) as [old|] eqn:E; [|done].
    by rewrite Hov. }
  erewrite bind_run_ok by apply Hrun.
  erewrite bind_run_ok by (by apply save_cleanup_run).
  rewrite ret_run, !after_Run. f_equal.
  rewrite app_nil_r. by rewrite <- !app_assoc.
Qed.
End SaveCheckpoint.

(** ** Save: the failure on an existing target *)

(** C9.  When the target exists and [overwrite] is false, [save_checkpoint]
    raises [FileExistsError] after it has written the new blob to the
    temporary file: the run consists of the creation and the write of
    [<prefix>tmp], that file holds the blob when the exception leaves the
    call, and every file under another name is as it was, neither created
    nor removed. *)
Theorem save_existing_leaves_tmp
    (scan : directory -> list string) {T S : Type} `{Pickle T} `{Step S}
    (fs : filesystem) (ckpt_dir : string) (target : T) (step : S)
    (prefix : string) (keep : Z) :
  let r := save_checkpoint scan ckpt_dir target step prefix keep false fs in
  is_Some (entries fs !! (prefix +:+ step_str step)) ->
  outcome r = inl FileExistsError
  /\ trace r = [Create (tmp_name prefix);
                Write (tmp_name prefix) (pickle_dumps target)]
  /\ entries (final r) !! tmp_name prefix = Some (pickle_dumps target)
  /\ forall n, n <> tmp_name prefix -> entries (final r) !! n = entries fs !! n.
Proof.
  intros r Hex. unfold r. rewrite save_checkpoint_exists by done. simpl.
  repeat split.
  - apply lookup_insert_eq.
  - intros n Hn. by rewrite lookup_insert_ne.
Qed.

Lemma save_existing_leaves_tmp_witness :
  let r := save_checkpoint scan_dom "ckpt" (blob "new") 5 "checkpoint_" 1 false
             dir_old5 in
  outcome r = inl FileExistsError
  /\ trace r = [Create (tmp_name "checkpoint_");
                Write (tmp_name "checkpoint_") (pickle_dumps (blob "new"))]
  /\ entries (final r) !! tmp_name "checkpoint_" = Some (pickle_dumps (blob "new"))
  /\ forall n, n <> tmp_name "checkpoint_" ->
       entries (final r) !! n = entries dir_old5 !! n.
Proof.
  apply (save_existing_leaves_tmp scan_dom dir_old5 "ckpt" (blob "new") 5
           "checkpoint_" 1).
  vm_compute. eauto.
Defined.

(** ** Save: what happens before the rename *)

Lemma apply_spares fs m n :
  spares n m -> entries (apply_mutation fs m) !! n = entries fs !! n.
Proof.
  destruct m as [|n'|n' data|n'|src dst]; simpl; intros Hn.
  - done.
  - destruct fs as [d|]; simpl; [|done]. by rewrite lookup_insert_ne.
  - destruct fs as [d|]; simpl; [|done]. by rewrite lookup_alter_ne.
  - destruct fs as [d|]; simpl; [|done]. by rewrite lookup_delete_ne.
  - destruct Hn as [Hsrc Hdst]. destruct fs as [d|]; simpl; [|done].
    destruct (d !! src); simpl; [|done].
    by rewrite lookup_insert_ne, lookup_delete_ne.
Qed.

Lemma replay_spares fs ms n :
  Forall (spares n) ms -> entries (replay fs ms) !! n = entries fs !! n.
Proof.
  intros Hms. revert fs. induction Hms as [|m ms Hm Hms IH]; intros fs; simpl.
  - done.
  - unfold replay in *. simpl. by rewrite IH, apply_spares.
Qed.

(** The trace of a save: mutations of the kind above, then nothing more or
    the rename and what follows it. *)
Lemma save_trace_shape
    (scan : directory -> list string) {T S : Type} `{Pickle T} `{Step S}
    (fs : filesystem) (ckpt_dir : string) (target : T) (step : S)
    (prefix : string) (keep : Z) (overwrite : bool) :
  exists ms rest,
    trace (save_checkpoint scan ckpt_dir target step prefix keep overwrite fs)
    = ms ++ rest
    /\ Forall (before_rename fs target step prefix overwrite) ms
    /\ (rest = [] \/ exists rest',
          rest = Rename (tmp_name prefix) (prefix +:+ step_str step) :: rest').
Proof.
  rewrite save_checkpoint_split.
  set (name := prefix +:+ step_str step). set (tmp := tmp_name prefix).
  assert (Forall (before_rename fs target step prefix overwrite) (made fs)) as Hmade.
  { destruct fs; simpl; repeat constructor. }
  pose proof (write_and_rename_run (entries fs) ckpt_dir target step prefix overwrite)
    as Hrun. simpl in Hrun. fold name tmp in Hrun.
  destruct (entries fs !! name) as [old|] eqn:Hname; [destruct overwrite|].
  - erewrite bind_run_ok by apply Hrun.
    exists (made fs ++ [Create tmp; Write tmp (pickle_dumps target); Remove name]).
    eexists. split; [|split].
    + simpl. rewrite <- app_assoc. simpl. reflexivity.
    + apply Forall_app. split; [done|].
      apply Forall_cons; split; [by right; left|].
      apply Forall_cons; split; [by right; right; left|].
      apply Forall_cons; split; [|done].
      right; right; right. fold name. rewrite Hname. eauto.
    + right. eauto.
  - erewrite bind_run_err by apply Hrun.
    exists (made fs ++ [Create tmp; Write tmp (pickle_dumps target)]), [].
    split; [|split].
    + simpl. by rewrite app_nil_r.
    + apply Forall_app. split; [done|].
      apply Forall_cons; split; [by right; left|].
      apply Forall_cons; split; [by right; right; left|]. done.
    + by left.
  - erewrite bind_run_ok by apply Hrun.
    exists (made fs ++ [Create tmp; Write tmp (pickle_dumps target)]).
    eexists. split; [|split].
    + simpl. rewrite <- app_assoc. simpl. reflexivity.
    + apply Forall_app. split; [done|].
      apply Forall_cons; split; [by right; left|].
      apply Forall_cons; split; [by right; right; left|]. done.
    + right. eauto.
Qed.

Lemma prefix_before {A : Type} (P : A -> Prop) (pre suf ms rest : list A) :
  pre ++ suf = ms ++ rest ->
  Forall (fun x => ~ P x) pre ->
  (rest = [] \/ exists x rest', rest = x :: rest' /\ P x) ->
  exists ms', ms = pre ++ ms'.
Proof.
  intros E Hpre Hrest.
  apply app_eq_inv in E as [(k & -> & ->)|(k & -> & ->)]; [|eauto].
  destruct k as [|x k]; [exists []; by rewrite !app_nil_r|].
  exfalso. destruct Hrest as [?|(y & rest' & E & Hy)]; [done|].
  simplify_eq/=. apply Forall_app in Hpre as [_ Hk].
  by apply Forall_cons in Hk as [? _].
Qed.

(** C2, as amended.  Up to the rename of the temporary file a save only
    creates the directory, creates and writes [<prefix>tmp], and, when
    [overwrite] is set and the target exists, removes the target.  So
    whenever the save is interrupted before the rename, every file other
    than [<prefix>tmp] and other than a target being overwritten is as it
    was before the call. *)
Theorem save_confined_before_rename
    (scan : directory -> list string) {T S : Type} `{Pickle T} `{Step S}
    (fs : filesystem) (ckpt_dir : string) (target : T) (step : S)
    (prefix : string) (keep : Z) (overwrite : bool)
    (ran pending : list mutation) :
  trace (save_checkpoint scan ckpt_dir target step prefix keep overwrite fs)
  = ran ++ pending ->
  Forall (fun m => ~ is_rename m) ran ->
  Forall (before_rename fs target step prefix overwrite) ran
  /\ forall n, n <> tmp_name prefix ->
       (n = prefix +:+ step_str step -> overwrite = false) ->
       entries (replay fs ran) !! n = entries fs !! n.
Proof.
  intros Htrace Hran.
  destruct (save_trace_shape scan fs ckpt_dir target step prefix keep overwrite)
    as (ms & rest & Hshape & Hms & Hrest).
  rewrite Htrace in Hshape.
  destruct (prefix_before is_rename ran pending ms rest Hshape Hran) as [ms' ->].
  { destruct Hrest as [?|[rest' ->]]; [by left|]. right. by eexists _, _. }
  apply Forall_app in Hms as [Hms _]. split; [done|].
  intros n Htmp Hname. apply replay_spares.
  eapply Forall_impl; [exact Hms|].
  intros m [->|[->|[->|(-> & Hov & _)]]]; simpl.
  - done.
  - by intros <-.
  - by intros <-.
  - intros <-. specialize (Hname eq_refl). congruence.
Qed.

(** ** Positions in an increasing list *)

Lemma filter_Forall_id {A : Type} (P : A -> Prop) `{!forall x, Decision (P x)}
    (l : list A) :
  Forall P l -> filter P l = l.
Proof.
  induction 1 as [|x l Hx Hl IH]; [done|].
  by rewrite filter_cons_True, IH.
Qed.

Lemma filter_Forall_nil {A : Type} (P : A -> Prop) `{!forall x, Decision (P x)}
    (l : list A) :
  Forall (fun x => ~ P x) l -> filter P l = [].
Proof.
  induction 1 as [|x l Hx Hl IH]; [done|].
  by rewrite filter_cons_False, IH.
Qed.

Lemma increasing_NoDup (l : list string) : StronglySorted str_lt l -> NoDup l.
Proof.
  induction 1 as [|x l Hs IH Hx]; constructor; [|done].
  intros Hin. rewrite Forall_forall in Hx.
  by apply (irreflexivity str_lt x), Hx.
Qed.

(** In an increasing list a name is among the first [k] exactly when at
    most [k] names, counted with those after it, make up the list. *)
Lemma elem_of_take_increasing (files : list string) (name : string) (k : nat) :
  StronglySorted str_lt files -> name ∈ files ->
  name ∈ take k files
  <-> (length files <= k + length (filter (str_lt name) files))%nat.
Proof.
  intros Hs Hin. pose proof (increasing_NoDup files Hs) as Hnd.
  apply list_elem_of_split in Hin as (l1 & l2 & ->).
  apply StronglySorted_app in Hs as (Hlt & _ & Hs2).
  apply StronglySorted_cons in Hs2 as [Hl2 _].
  assert (filter (str_lt name) (l1 ++ name :: l2) = l2) as ->.
  { rewrite filter_app, filter_cons_False by apply (irreflexivity str_lt).
    rewrite (filter_Forall_id _ l2) by done.
    rewrite filter_Forall_nil; [done|].
    apply Forall_forall. intros x Hx Hnx.
    apply (irreflexivity str_lt x). transitivity name; [|done].
    apply Hlt; [done|by left]. }
  rewrite length_app. simpl.
  assert ((l1 ++ name :: l2) !! length l1 = Some name) as Hat
    by (by apply list_lookup_middle).
  rewrite elem_of_take. split.
  - intros (i & Hi & Hik).
    assert (i = length l1) by (eapply NoDup_lookup; eauto). lia.
  - intros Hk. exists (length l1). split; [done|lia].
Qed.

(** ** Save: an existing target *)

Section ExistingTarget.
Context (scan : directory -> list string) (Hscan : fair scan).
Context {T S : Type} `{Pickle T} `{Step S}.

Lemma newer_in_checkpoint_files (d : directory) (target : T) (step : S) prefix :
  let name := prefix +:+ step_str step in
  let d1 := renamed d target step prefix in
  length (filter (str_lt name) (checkpoint_files prefix (scan d1)))
  = length (newer_files prefix name (delete (tmp_name prefix) d)).
Proof.
  intros name d1. apply Permutation_length, NoDup_Permutation.
  - by apply NoDup_filter, NoDup_checkpoint_files.
  - apply NoDup_filter, NoDup_elements.
  - intros n. unfold newer_files.
    rewrite !list_elem_of_filter, elem_of_checkpoint_files by done.
    rewrite elem_of_elements, elem_of_dom. unfold d1, renamed. fold name.
    split.
    + intros (Hlt & Hp & Hn). split; [done|].
      rewrite lookup_insert_ne in Hn; [done|].
      intros <-. by apply (irreflexivity str_lt name).
    + intros ((Hp & Hlt) & Hn). split; [done|]. split; [done|].
      rewrite lookup_insert_ne; [done|].
      intros <-. by apply (irreflexivity str_lt name).
Qed.

(** Whether the retention step removes the file just saved. *)
Lemma saved_in_old_ckpts (d : directory) (target : T) (step : S) prefix keep :
  let name := prefix +:+ step_str step in
  let d1 := renamed d target step prefix in
  0 < keep ->
  name ∈ old_ckpts scan prefix keep d1
  <-> (Z.to_nat keep
       <= length (newer_files prefix name (delete (tmp_name prefix) d)))%nat.
Proof.
  intros name d1 Hkeep.
  pose proof (newer_in_checkpoint_files d target step prefix) as Hnew.
  simpl in Hnew. fold name d1 in Hnew. rewrite <- Hnew. clear Hnew.
  assert (name ∈ checkpoint_files prefix (scan d1)) as Hin.
  { apply elem_of_checkpoint_files; [done|]. split; [apply prefix_append|].
    unfold d1, renamed. fold name. by rewrite lookup_insert_eq. }
  pose proof (checkpoint_files_increasing scan Hscan d1 prefix) as Hinc.
  pose proof (length_filter (str_lt name) (checkpoint_files prefix (scan d1)))
    as Hle.
  assert (length (filter (str_lt name) (checkpoint_files prefix (scan d1)))
          < length (checkpoint_files prefix (scan d1)))%nat as Hlt.
  { eapply length_filter_lt; [exact Hin|]. apply (irreflexivity str_lt). }
  unfold old_ckpts.
  destruct (Z.ltb_spec keep (Z.of_nat (length (checkpoint_files prefix (scan d1)))))
    as [Hk|Hk].
  - rewrite py_slice_to_neg by done.
    rewrite elem_of_take_increasing by done. lia.
  - split; [by intros ?%elem_of_nil|lia].
Qed.

(** C7, as amended.  When the target of a save exists: without
    [overwrite] the call raises [FileExistsError] and the file is as it
    was; with [overwrite] the old file is removed and the call returns
    the path, after which (for [keep >= 1]) the path holds the new blob
    when fewer than [keep] files of the family sort after it, and is
    absent, removed by the retention step of the same call, otherwise. *)
Theorem save_existing_target
    (fs : filesystem) (ckpt_dir : string) (target : T) (step : S)
    (prefix : string) (keep : Z) (overwrite : bool) :
  let name := prefix +:+ step_str step in
  let r := save_checkpoint scan ckpt_dir target step prefix keep overwrite fs in
  is_Some (entries fs !! name) ->
  if overwrite then
    outcome r = inr (path_join ckpt_dir name)
    /\ Remove name ∈ trace r
    /\ (0 < keep ->
        entries (final r) !! name
        = if bool_decide
               (length (newer_files prefix name
                          (delete (tmp_name prefix) (entries fs)))
                < Z.to_nat keep)%nat
          then Some (pickle_dumps target) else None)
  else
    outcome r = inl FileExistsError
    /\ entries (final r) !! name = entries fs !! name.
Proof.
  intros name r Hex. destruct overwrite.
  - unfold r. rewrite save_checkpoint_renames by done. simpl. fold name.
    split; [done|]. split.
    + destruct Hex as [old ->]. rewrite elem_of_app. right. simpl.
      rewrite !elem_of_cons. auto.
    + intros Hkeep. rewrite lookup_remove_all.
      pose proof (saved_in_old_ckpts (entries fs) target step prefix keep Hkeep)
        as Hold. simpl in Hold. fold name in Hold.
      destruct (decide (name ∈ _)) as [Hin|Hin].
      * rewrite bool_decide_false; [done|]. apply Hold in Hin. lia.
      * rewrite bool_decide_true.
        -- unfold renamed. fold name. by rewrite lookup_insert_eq.
        -- rewrite Hold in Hin. lia.
  - unfold r. rewrite save_checkpoint_exists by done. simpl. fold name.
    split; [done|]. rewrite lookup_insert_ne; [done|].
    intros E. symmetry in E. by apply ckpt_name_not_tmp in E.
Qed.
End ExistingTarget.

Lemma save_confined_before_rename_witness :
  let ran := [Create "checkpoint_tmp"; Write "checkpoint_tmp" (blob "new")] in
  Forall (before_rename dir_old5 (blob "new") 5 "checkpoint_" true) ran
  /\ forall n, n <> tmp_name "checkpoint_" ->
       (n = "checkpoint_" +:+ step_str 5 -> true = false) ->
       entries (replay dir_old5 ran) !! n = entries dir_old5 !! n.
Proof.
  apply (save_confined_before_rename scan_dom dir_old5 "ckpt" (blob "new") 5
           "checkpoint_" 1 true _
           [Remove "checkpoint_5"; Rename "checkpoint_tmp" "checkpoint_5"]).
  - vm_compute. reflexivity.
  - repeat constructor; simpl; tauto.
Defined.

(** C2, the claim as stated fails: with [overwrite] set and the target
    present, the run removes the target itself before the rename; a save
    interrupted between the two has lost the previous checkpoint. *)
Lemma save_overwrite_removes_before_rename :
  let r := save_checkpoint scan_dom "ckpt" (blob "new") 5 "checkpoint_" 1 true
             dir_old5 in
  let ran := [Create "checkpoint_tmp"; Write "checkpoint_tmp" (blob "new");
              Remove "checkpoint_5"] in
  trace r = ran ++ [Rename "checkpoint_tmp" "checkpoint_5"]
  /\ entries dir_old5 !! "checkpoint_5" = Some (blob "old")
  /\ entries (replay dir_old5 ran) !! "checkpoint_5" = None.
Proof. vm_compute. auto. Qed.

Lemma save_existing_target_witness :
  let r := save_checkpoint scan_dom "ckpt" (blob "new") 5 "checkpoint_" 1 true
             dir_old5 in
  outcome r = inr (path_join "ckpt" ("checkpoint_" +:+ step_str 5))
  /\ Remove ("checkpoint_" +:+ step_str 5) ∈ trace r
  /\ (0 < 1 ->
      entries (final r) !! ("checkpoint_" +:+ step_str 5)
      = if bool_decide
             (length (newer_files "checkpoint_" ("checkpoint_" +:+ step_str 5%Z)
                        (delete (tmp_name "checkpoint_") (entries dir_old5)))
              < Z.to_nat 1)%nat
        then Some (pickle_dumps (blob "new")) else None).
Proof.
  apply (save_existing_target scan_dom scan_dom_fair dir_old5 "ckpt" (blob "new") 5
           "checkpoint_" 1 true).
  vm_compute. eauto.
Defined.

(** C7, the claim as stated fails: the target [checkpoint_5] exists beside
    [checkpoint_7]; a save of step 5 with [overwrite] and [keep = 1]
    returns the path, but its retention step removes the file it has just
    written, so the path does not hold the new blob. *)
Lemma save_overwrite_not_kept :
  let r := save_checkpoint scan_dom "ckpt" (blob "new") 5 "checkpoint_" 1 true
             dir_5_and_7 in
  entries dir_5_and_7 !! "checkpoint_5" = Some (blob "old")
  /\ outcome r = inr "ckpt/checkpoint_5"
  /\ entries (final r) !! "checkpoint_5" = None
  /\ entries (final r) !! "checkpoint_7" = Some (blob "seven").
Proof. vm_compute. auto. Qed.

(** ** Retention over a sequence of saves *)

Lemma increasing_drop (l : list string) (n : nat) :
  StronglySorted str_lt l -> StronglySorted str_lt (drop n l).
Proof.
  intros Hs. rewrite <- (take_drop n l) in Hs.
  by apply StronglySorted_app_1_r in Hs.
Qed.

Lemma lastn_short {A : Type} (k : nat) (l : list A) :
  (length l <= k)%nat -> lastn k l = l.
Proof. intros Hl. unfold lastn. by replace (length l - k)%nat with 0%nat by lia. Qed.

Lemma lastn_snoc_full {A : Type} (k : nat) (l : list A) (x : A) :
  (k <= length l)%nat -> (0 < k)%nat ->
  lastn k (l ++ [x]) = drop 1 (lastn k l) ++ [x].
Proof.
  intros Hl Hk. unfold lastn. rewrite length_app, drop_drop. simpl.
  rewrite drop_app_le by lia. f_equal. f_equal. lia.
Qed.

Lemma length_lastn {A : Type} (k : nat) (l : list A) :
  (k <= length l)%nat -> length (lastn k l) = k.
Proof. intros Hl. unfold lastn. rewrite length_drop. lia. Qed.

Section Retention.
Context (scan : directory -> list string) (Hscan : fair scan).
Context {T S : Type} `{Pickle T} `{Step S}.
Implicit Types (L : list (string * bytes)) (fs : filesystem).

Lemma checkpoint_files_of_holds prefix (d : directory) L :
  holds prefix (Some d) L ->
  StronglySorted str_lt L.*1 ->
  Forall (fun n => String.prefix prefix n = true) L.*1 ->
  checkpoint_files prefix (scan d) = L.*1.
Proof.
  intros Hd Hinc Hpre. unfold checkpoint_files.
  apply sorted_names_unique; [done|].
  apply NoDup_Permutation.
  - by apply NoDup_filter, NoDup_scan.
  - by apply increasing_NoDup.
  - intros n. rewrite list_elem_of_filter, elem_of_scan, Is_true_true by done.
    rewrite Forall_forall in Hpre. split.
    + intros [Hp Hn]. pose proof (Hd n Hp) as E. simpl in E.
      rewrite E in Hn. destruct Hn as [v Hv]. apply elem_of_list_to_map_2 in Hv.
      apply list_elem_of_fmap. by exists (n, v).
    + intros Hn. split; [by apply Hpre|].
      pose proof (Hd n (Hpre n Hn)) as E. simpl in E. rewrite E.
      apply not_eq_None_Some. intros Hnone.
      by apply not_elem_of_list_to_map in Hnone.
Qed.

Lemma save_step fs ckpt_dir (target : T) (step : S) prefix (k : nat) overwrite L :
  let name := prefix +:+ step_str step in
  let r := save_checkpoint scan ckpt_dir target step prefix (Z.of_nat k)
             overwrite fs in
  (0 < k)%nat ->
  StronglySorted str_lt (L.*1 ++ [name]) ->
  Forall (fun n => String.prefix prefix n = true) L.*1 ->
  tmp_name prefix ∉ L.*1 ->
  holds prefix fs (lastn k L) ->
  outcome r = inr (path_join ckpt_dir name)
  /\ holds prefix (final r) (lastn k (L ++ [(name, pickle_dumps target)])).
Proof.
  intros name r Hk Hinc Hpre Htmp Hfs.
  set (data := pickle_dumps target).
  set (d1 := renamed (entries fs) target step prefix).
  pose proof (StronglySorted_app_1_l _ _ _ Hinc) as HincL.
  assert (forall n, n ∈ L.*1 -> str_lt n name) as Hlt.
  { intros n Hn. eapply StronglySorted_app_1_elem_of; [exact Hinc|done|by left]. }
  assert (name ∉ L.*1) as HnameL.
  { intros Hn. by apply (irreflexivity str_lt name), Hlt. }
  assert (name <> tmp_name prefix) as Hne by apply ckpt_name_not_tmp.
  assert (forall n, n ∈ (lastn k L).*1 -> n ∈ L.*1) as Hsub.
  { intros n. unfold lastn. rewrite fmap_drop.
    apply subseteq_drop. }
  assert (entries fs !! name = None) as Hfresh.
  { rewrite (Hfs name) by apply prefix_append.
    apply not_elem_of_list_to_map. auto. }
  (* the directory after the rename holds the retained files and the new one *)
  assert (holds prefix (Some d1) (lastn k L ++ [(name, data)])) as Hd1.
  { intros n Hn. simpl. unfold d1, renamed. fold name data.
    rewrite list_to_map_snoc by auto.
    destruct (decide (n = name)) as [->|Hnn]; [by rewrite !lookup_insert_eq|].
    rewrite !lookup_insert_ne by done.
    destruct (decide (n = tmp_name prefix)) as [->|Hnt].
    - rewrite lookup_delete_eq. symmetry. apply not_elem_of_list_to_map. auto.
    - rewrite lookup_delete_ne by done. by apply Hfs. }
  assert (checkpoint_files prefix (scan d1) = (lastn k L).*1 ++ [name]) as Hfiles.
  { erewrite checkpoint_files_of_holds; [|exact Hd1|..].
    - by rewrite fmap_app.
    - rewrite fmap_app. simpl. unfold lastn. rewrite fmap_drop.
      apply StronglySorted_app_2.
      + intros x1 x2 Hx1 ->%list_elem_of_singleton. apply Hlt.
        by eapply subseteq_drop.
      + by apply increasing_drop.
      + repeat constructor.
    - rewrite fmap_app. apply Forall_app. split.
      + unfold lastn. rewrite fmap_drop. by apply Forall_drop.
      + repeat constructor. apply prefix_append. }
  unfold r. rewrite save_checkpoint_renames; [|fold name|done].
  2:{ rewrite Hfresh. by intros [? ?]. }
  simpl. fold name d1 data. split; [done|].
  unfold old_ckpts. rewrite Hfiles, length_app, length_fmap. simpl.
  destruct (decide (k <= length L)%nat) as [Hfull|Hshort].
  - (* the directory is full: the oldest retained file goes *)
    rewrite length_lastn by done.
    destruct (Z.ltb_spec (Z.of_nat k) (Z.of_nat (k + 1))) as [_|?]; [|lia].
    rewrite py_slice_to_neg, length_app, length_fmap, length_lastn by (done || lia).
    simpl. replace (k + 1 - Z.to_nat (Z.of_nat k))%nat with 1%nat by lia.
    rewrite lastn_snoc_full by done.
    destruct (lastn k L) as [|[n0 v0] M] eqn:HM.
    { apply (f_equal length) in HM. rewrite length_lastn in HM by done.
      simpl in HM. lia. }
    assert (NoDup ((n0, v0) :: M).*1) as Hnd.
    { rewrite <- HM. unfold lastn. rewrite fmap_drop.
      by apply increasing_NoDup, increasing_drop. }
    csimpl in *. apply NoDup_cons in Hnd as [Hn0 HndM]. rewrite drop_0.
    intros n Hn. simpl.
    destruct (decide (n = n0)) as [->|Hnn0].
    + rewrite lookup_delete_eq. symmetry. apply not_elem_of_list_to_map.
      rewrite fmap_app, elem_of_app. simpl.
      intros [?| ->%list_elem_of_singleton]; [done|].
      apply HnameL, Hsub. by left.
    + rewrite lookup_delete_ne by done.
      pose proof (Hd1 n Hn) as E. simpl in E. rewrite E.
      by rewrite lookup_insert_ne.
  - (* there is room: nothing goes *)
    rewrite !lastn_short by (rewrite ?length_app; simpl; lia).
    rewrite lastn_short in Hd1 by lia.
    destruct (Z.ltb_spec (Z.of_nat k) (Z.of_nat (length L + 1))) as [?|_]; [lia|].
    intros n Hn. simpl. by apply Hd1.
Qed.
End Retention.

Section RetentionLoop.
Context (scan : directory -> list string) (Hscan : fair scan).
Context {T S : Type} `{Pickle T} `{Step S}.

Lemma saved_files_prefixed prefix (saves : list (S * T)) :
  Forall (fun n => String.prefix prefix n = true) (saved_files prefix saves).*1.
Proof.
  apply Forall_forall. intros n Hn. unfold saved_files in Hn.
  rewrite <- list_fmap_compose in Hn.
  apply list_elem_of_fmap in Hn as (st & -> & _). apply prefix_append.
Qed.

Lemma tmp_not_saved prefix (saves : list (S * T)) :
  tmp_name prefix ∉ (saved_files prefix saves).*1.
Proof.
  intros Hn. unfold saved_files in Hn. rewrite <- list_fmap_compose in Hn.
  apply list_elem_of_fmap in Hn as (st & E & _). simpl in E.
  symmetry in E. by apply ckpt_name_not_tmp in E.
Qed.

Lemma holds_family prefix fs (L : list (string * bytes)) :
  Forall (fun n => String.prefix prefix n = true) L.*1 ->
  holds prefix fs L -> family prefix (entries fs) = list_to_map L.
Proof.
  intros Hpre Hfs. apply map_eq. intros n. apply option_eq. intros v.
  unfold family. rewrite map_lookup_filter_Some. simpl. split.
  - intros [Hv Hn]. by rewrite <- (Hfs n Hn).
  - intros Hv. assert (String.prefix prefix n = true) as Hn.
    { rewrite Forall_forall in Hpre. apply Hpre.
      apply elem_of_list_to_map_2 in Hv.
      apply list_elem_of_fmap. by exists (n, v). }
    split; [|done]. by rewrite (Hfs n Hn).
Qed.

Lemma family_holds prefix fs (L : list (string * bytes)) :
  family prefix (entries fs) = list_to_map L -> holds prefix fs L.
Proof.
  intros Hfam n Hn. rewrite <- Hfam. apply option_eq. intros v.
  unfold family. rewrite map_lookup_filter_Some. simpl. tauto.
Qed.

Lemma save_all_cons ckpt_dir prefix keep overwrite step target
    (saves : list (S * T)) fs :
  save_all scan ckpt_dir prefix keep overwrite ((step, target) :: saves) fs
  = match outcome (save_checkpoint scan ckpt_dir target step prefix keep
                     overwrite fs) with
    | inl e => inl e
    | inr _ =>
        save_all scan ckpt_dir prefix keep overwrite saves
          (final (save_checkpoint scan ckpt_dir target step prefix keep
                    overwrite fs))
    end.
Proof. reflexivity. Qed.

Lemma save_all_holds ckpt_dir prefix (k : nat) overwrite
    (saves past : list (S * T)) fs :
  (0 < k)%nat ->
  StronglySorted str_lt (saved_files prefix (past ++ saves)).*1 ->
  holds prefix fs (lastn k (saved_files prefix past)) ->
  exists fs',
    save_all scan ckpt_dir prefix (Z.of_nat k) overwrite saves fs = inr fs'
    /\ holds prefix fs' (lastn k (saved_files prefix (past ++ saves))).
Proof.
  intros Hk. revert past fs.
  induction saves as [|[step target] saves IH]; intros past fs Hinc Hfs.
  - exists fs. by rewrite app_nil_r.
  - rewrite save_all_cons.
    destruct (save_step scan Hscan fs ckpt_dir target step prefix k overwrite
                (saved_files prefix past)) as [Hout Hfin]; try done.
    + unfold saved_files in Hinc. rewrite !fmap_app in Hinc. csimpl in Hinc.
      rewrite cons_middle, app_assoc in Hinc.
      apply StronglySorted_app_1_l in Hinc. unfold saved_files.
      by rewrite <- !list_fmap_compose in *.
    + apply saved_files_prefixed.
    + apply tmp_not_saved.
    + rewrite Hout.
      destruct (IH (past ++ [(step, target)]) (final
        (save_checkpoint scan ckpt_dir target step prefix (Z.of_nat k) overwrite fs)))
        as (fs' & Hrun & Hfs').
      * by rewrite <- app_assoc.
      * unfold saved_files in *. by rewrite fmap_app.
      * exists fs'. split; [done|]. by rewrite <- app_assoc in Hfs'.
Qed.

(** C1, as amended.  Retention keeps the files that sort last by name.
    When [N] saves into a directory without files of the family carry
    names in increasing character order (steps given in increasing order
    and rendered with one width), [1 <= keep < N], then every save
    succeeds and afterwards the family consists of exactly [keep] files,
    those of the last [keep] saves, each with the contents saved. *)
Theorem retention_keeps_last_saves
    (fs : filesystem) (ckpt_dir prefix : string) (keep : Z) (overwrite : bool)
    (saves : list (S * T)) :
  0 < keep < Z.of_nat (length saves) ->
  StronglySorted str_lt (saved_files prefix saves).*1 ->
  family prefix (entries fs) = ∅ ->
  exists fs',
    save_all scan ckpt_dir prefix keep overwrite saves fs = inr fs'
    /\ family prefix (entries fs')
       = list_to_map (lastn (Z.to_nat keep) (saved_files prefix saves))
    /\ size (family prefix (entries fs')) = Z.to_nat keep.
Proof.
  intros Hkeep Hinc Hempty.
  destruct (save_all_holds ckpt_dir prefix (Z.to_nat keep) overwrite saves [] fs)
    as (fs' & Hrun & Hfs'); [lia|done|by apply family_holds|].
  rewrite Z2Nat.id in Hrun by lia. simpl in Hfs'.
  exists fs'. split; [done|].
  assert (family prefix (entries fs')
          = list_to_map (lastn (Z.to_nat keep) (saved_files prefix saves))) as Hfam.
  { apply holds_family; [|done]. unfold lastn. rewrite fmap_drop.
    apply Forall_drop, saved_files_prefixed. }
  split; [done|]. rewrite Hfam, map_size_list_to_map.
  - rewrite length_lastn; [done|]. unfold saved_files. rewrite length_fmap. lia.
  - unfold lastn. rewrite fmap_drop. by apply increasing_NoDup, increasing_drop.
Qed.
End RetentionLoop.

Lemma retention_keeps_last_saves_witness :
  exists fs',
    save_all scan_dom "ckpt" "checkpoint_" 2 false three_saves None = inr fs'
    /\ family "checkpoint_" (entries fs')
       = list_to_map (lastn (Z.to_nat 2) (saved_files "checkpoint_" three_saves))
    /\ size (family "checkpoint_" (entries fs')) = Z.to_nat 2.
Proof.
  apply (retention_keeps_last_saves scan_dom scan_dom_fair None "ckpt"
           "checkpoint_" 2 false three_saves).
  - vm_compute. split; reflexivity.
  - vm_compute. repeat constructor.
  - reflexivity.
Defined.

(** C1, the claim as stated fails: retention goes by name, not by the time
    of saving.  After the saves of steps 2 and 1, in this order, with
    [keep = 1], the one file left is that of step 2, not the most recently
    saved one. *)
Lemma retention_not_most_recent :
  exists fs',
    save_all scan_dom "ckpt" "checkpoint_" 1 false
      [(2, blob "two"); (1, blob "one")] None = inr fs'
    /\ entries fs' !! "checkpoint_1" = None
    /\ entries fs' !! "checkpoint_2" = Some (blob "two").
Proof. eexists. vm_compute. auto. Qed.

(** The order of names is the order of characters: of the saves of steps 9
    and 10 with [keep = 1], the file of step 9 is the one left. *)
Example retention_of_9_and_10 :
  exists fs',
    save_all scan_dom "ckpt" "checkpoint_" 1 false
      [(9, blob "nine"); (10, blob "ten")] None = inr fs'
    /\ entries fs' !! "checkpoint_10" = None
    /\ entries fs' !! "checkpoint_9" = Some (blob "nine").
Proof. eexists. vm_compute. auto. Qed.

(** [keep = 0] removes nothing: [checkpoint_files[:-0]] is empty. *)
Example retention_keep_0 :
  exists fs',
    save_all scan_dom "ckpt" "checkpoint_" 0 false
      [(1, blob "one"); (2, blob "two")] None = inr fs'
    /\ entries fs' !! "checkpoint_1" = Some (blob "one")
    /\ entries fs' !! "checkpoint_2" = Some (blob "two").
Proof. eexists. vm_compute. auto. Qed.

(** ** Natural sort: names of plain text and digits *)

Lemma append_nil_r (s : string) : s +:+ "" = s.
Proof.
  induction s as [|c s IH]; [done|].
  change (String c (s +:+ "") = String c s). by rewrite IH.
Qed.

Lemma rev_app_rev_app (p acc r : string) :
  String.rev_app (String.rev_app p acc) r = String.rev_app acc (p +:+ r).
Proof.
  revert acc r. induction p as [|c p IH]; intros acc r; simpl; [done|].
  by rewrite IH.
Qed.

Lemma rev_rev_app (p : string) : String.rev (String.rev_app p "") = p.
Proof. unfold String.rev. rewrite rev_app_rev_app. simpl. apply append_nil_r. Qed.

Lemma span_digits_all (d : string) :
  all_digits d = true -> Re.span_digits d = (d, EmptyString).
Proof.
  induction d as [|c d IH]; simpl; [done|].
  intros [Hc Hd]%andb_true_iff. rewrite Hc, IH by done. done.
Qed.

Lemma digit_not_sign (c : ascii) : Re.is_digit c = true -> Re.is_sign c = false.
Proof. destruct c as [[] [] [] [] [] [] [] []]; by vm_compute. Qed.

Lemma match_at_no_start (c : ascii) (s : string) :
  Re.is_digit c || Re.is_sign c || Ascii.eqb c "." = false ->
  Re.match_at (String c s) = None.
Proof.
  intros Hc. apply orb_false_iff in Hc as [Hc Hdot].
  apply orb_false_iff in Hc as [Hdigit Hsign].
  unfold Re.match_at, Re.match_unsigned. rewrite Hsign. simpl. rewrite Hdigit.
  destruct c as [[] [] [] [] [] [] [] []]; try done.
Qed.

Lemma match_at_plain (p : string) : plain p = true -> Re.match_at p = None.
Proof.
  destruct p as [|c p]; [done|]. simpl.
  intros [Hc _]%andb_true_iff. apply negb_true_iff in Hc.
  by apply match_at_no_start.
Qed.

Lemma match_at_digits (sg d r : string) :
  all_digits d = true -> d <> EmptyString ->
  Re.match_unsigned sg d = Some (Re.Numeral sg d false EmptyString None, EmptyString).
Proof.
  intros Hd Hne. unfold Re.match_unsigned. rewrite span_digits_all by done.
  destruct d; done.
Qed.

Lemma split_go_plain (signed : bool) (p acc s : string) :
  plain p = true ->
  Re.split_go signed 0 acc (p +:+ s) = Re.split_go signed 0 (String.rev_app p acc) s.
Proof.
  revert acc. induction p as [|c p IH]; intros acc; simpl; [done|].
  intros [Hc Hp]%andb_true_iff. apply negb_true_iff in Hc.
  pose proof (match_at_no_start c (p +:+ s) Hc) as Hnone.
  simpl in Hnone. rewrite Hnone. by apply IH.
Qed.

Lemma split_go_skip (signed : bool) (acc s : string) :
  Re.split_go signed (String.length s) acc s = [String.rev acc].
Proof. induction s as [|c s IH]; simpl; done. Qed.

Lemma text_of_integer (sg d : string) :
  Re.text (Re.Numeral sg d false EmptyString None) = sg +:+ d.
Proof. unfold Re.text, Re.unsigned_text. simpl. by rewrite !append_nil_r. Qed.

Lemma unsigned_text_of_integer (sg d : string) :
  Re.unsigned_text (Re.Numeral sg d false EmptyString None) = d.
Proof. unfold Re.unsigned_text. simpl. by rewrite !append_nil_r. Qed.

(** The pieces of a name made of plain text, a sign and digits. *)
Lemma split_signed_integer (signed : bool) (p d : string) (c : ascii) :
  plain p = true -> all_digits d = true -> d <> EmptyString -> Re.is_sign c = true ->
  Re.split signed (p +:+ String c d)
  = [p; if signed then String c d else d; EmptyString].
Proof.
  intros Hp Hd Hne Hc. unfold Re.split. rewrite split_go_plain by done.
  cbn [Re.split_go]. unfold Re.match_at at 1. rewrite Hc.
  rewrite match_at_digits by done.
  rewrite rev_rev_app, text_of_integer.
  change (String c EmptyString +:+ d) with (String c d).
  replace (String.length (String c d) - 1)%nat with (String.length d)
    by (simpl; lia).
  rewrite split_go_skip. f_equal. f_equal.
  unfold Re.group. rewrite text_of_integer, unsigned_text_of_integer.
  by destruct signed.
Qed.

Lemma split_integer (signed : bool) (p d : string) :
  plain p = true -> all_digits d = true -> d <> EmptyString ->
  Re.split signed (p +:+ d) = [p; d; EmptyString].
Proof.
  intros Hp Hd Hne. unfold Re.split. rewrite split_go_plain by done.
  destruct d as [|c d]; [done|]. cbn [Re.split_go].
  unfold Re.match_at at 1.
  simpl in Hd. apply andb_true_iff in Hd as [Hc Hd].
  rewrite (digit_not_sign c Hc).
  rewrite match_at_digits by (simpl; rewrite ?Hc, ?Hd; done).
  rewrite rev_rev_app, text_of_integer.
  change (EmptyString +:+ String c d) with (String c d).
  replace (String.length (String c d) - 1)%nat with (String.length d)
    by (simpl; lia).
  rewrite split_go_skip. f_equal. f_equal.
  unfold Re.group. rewrite text_of_integer, unsigned_text_of_integer.
  by destruct signed.
Qed.

Lemma numeral_val_integer (sg d : string) :
  numeral_val (Re.Numeral sg d false EmptyString None) = integer_val sg d.
Proof.
  unfold numeral_val, integer_val. simpl.
  by rewrite append_nil_r, Z.mul_1_r.
Qed.

Lemma maybe_num_plain (signed : bool) (p : string) :
  plain p = true -> maybe_num signed p = inr (TStr p).
Proof. intros Hp. unfold maybe_num. by rewrite match_at_plain. Qed.

Lemma maybe_num_signed_integer (signed : bool) (d : string) (c : ascii) :
  all_digits d = true -> d <> EmptyString -> Re.is_sign c = true ->
  maybe_num signed (String c d) = inr (TNum (integer_val (String c EmptyString) d)).
Proof.
  intros Hd Hne Hc. unfold maybe_num, py_float, Re.match_at. rewrite Hc.
  rewrite match_at_digits by done. simpl. by rewrite numeral_val_integer.
Qed.

Lemma maybe_num_integer (signed : bool) (d : string) :
  all_digits d = true -> d <> EmptyString ->
  maybe_num signed d = inr (TNum (integer_val EmptyString d)).
Proof.
  intros Hd Hne. unfold maybe_num, py_float, Re.match_at.
  destruct d as [|c d]; [done|].
  pose proof Hd as Hd'. simpl in Hd'. apply andb_true_iff in Hd' as [Hc _].
  rewrite (digit_not_sign c Hc), match_at_digits by done.
  simpl. by rewrite numeral_val_integer.
Qed.

Lemma split_keys_signed_integer (signed : bool) (p d : string) (c : ascii) :
  plain p = true -> all_digits d = true -> d <> EmptyString -> Re.is_sign c = true ->
  split_keys signed (p +:+ String c d)
  = inr [TStr p;
         TNum (integer_val (if signed then String c EmptyString else EmptyString) d);
         TStr EmptyString].
Proof.
  intros Hp Hd Hne Hc. unfold split_keys. rewrite split_signed_integer by done.
  cbn [mapM_result]. rewrite (maybe_num_plain signed p) by done.
  rewrite (maybe_num_plain signed EmptyString) by done.
  destruct signed.
  - rewrite maybe_num_signed_integer by done. reflexivity.
  - rewrite maybe_num_integer by done. reflexivity.
Qed.

Lemma split_keys_integer (signed : bool) (p d : string) :
  plain p = true -> all_digits d = true -> d <> EmptyString ->
  split_keys signed (p +:+ d)
  = inr [TStr p; TNum (integer_val EmptyString d); TStr EmptyString].
Proof.
  intros Hp Hd Hne. unfold split_keys. rewrite split_integer by done.
  cbn [mapM_result]. rewrite (maybe_num_plain signed p) by done.
  rewrite (maybe_num_plain signed EmptyString) by done.
  rewrite maybe_num_integer by done. reflexivity.
Qed.

(** ** The matcher *)

Lemma append_cons (c : ascii) (s t : string) : String c s +:+ t = String c (s +:+ t).
Proof. reflexivity. Qed.

Lemma append_assoc (s t u : string) : (s +:+ t) +:+ u = s +:+ (t +:+ u).
Proof.
  induction s as [|c s IH]; [done|]. rewrite !append_cons. by rewrite IH.
Qed.

Lemma span_digits_cons (c : ascii) (s : string) :
  Re.span_digits (String c s)
  = if Re.is_digit c
    then (String c (Re.span_digits s).1, (Re.span_digits s).2)
    else (EmptyString, String c s).
Proof. simpl. destruct (Re.is_digit c); [|done]. by destruct (Re.span_digits s). Qed.

Lemma span_digits_spec (s : string) :
  all_digits (Re.span_digits s).1 = true
  /\ s = (Re.span_digits s).1 +:+ (Re.span_digits s).2
  /\ no_digit_head (Re.span_digits s).2.
Proof.
  induction s as [|c s (IH1 & IH2 & IH3)]; [done|].
  rewrite span_digits_cons. destruct (Re.is_digit c) eqn:Hc; simpl.
  - rewrite Hc, IH1. split; [done|]. split; [|done].
    rewrite append_cons. by rewrite <- IH2.
  - done.
Qed.

Lemma span_digits_app (ds r : string) :
  all_digits ds = true -> no_digit_head r -> Re.span_digits (ds +:+ r) = (ds, r).
Proof.
  intros Hds Hr. induction ds as [|c ds IH].
  - destruct r as [|c r]; [done|]. simpl in Hr. change ("" +:+ String c r) with (String c r).
    by rewrite span_digits_cons, Hr.
  - simpl in Hds. apply andb_true_iff in Hds as [Hc Hds].
    rewrite append_cons, span_digits_cons, Hc, IH by done. done.
Qed.

Lemma span_digits_nonempty (c : ascii) (s : string) :
  Re.is_digit c = true -> (Re.span_digits (String c s)).1 <> EmptyString.
Proof. intros Hc. by rewrite span_digits_cons, Hc. Qed.

Lemma span_digits_empty (s : string) :
  (Re.span_digits s).1 = EmptyString -> no_digit_head s /\ (Re.span_digits s).2 = s.
Proof.
  destruct s as [|c s]; [done|]. rewrite span_digits_cons.
  destruct (Re.is_digit c) eqn:Hc; [done|]. done.
Qed.

Lemma exp_mark_not_digit (c : ascii) : Re.is_exp_mark c = true -> Re.is_digit c = false.
Proof. destruct c as [[] [] [] [] [] [] [] []]; by vm_compute. Qed.

Lemma point_not_digit (c : ascii) : Ascii.eqb c "." = true -> Re.is_digit c = false.
Proof. intros ->%Ascii.eqb_eq. reflexivity. Qed.

Lemma point_not_sign (c : ascii) : Ascii.eqb c "." = true -> Re.is_sign c = false.
Proof. intros ->%Ascii.eqb_eq. reflexivity. Qed.

Lemma sign_not_digit (c : ascii) : Re.is_sign c = true -> Re.is_digit c = false.
Proof. destruct c as [[] [] [] [] [] [] [] []]; by vm_compute. Qed.

Lemma sign_not_point (c : ascii) : Re.is_sign c = true -> Ascii.eqb c "." = false.
Proof. destruct c as [[] [] [] [] [] [] [] []]; by vm_compute. Qed.

Lemma match_exponent_spec (s : string) :
  wf_exp (Re.match_exponent s).1
  /\ s = Re.exp_text (Re.match_exponent s).1 +:+ (Re.match_exponent s).2.
Proof.
  destruct s as [|c s1]; [done|]. unfold Re.match_exponent.
  destruct (Re.is_exp_mark c) eqn:Hc; [|done].
  set (sg := match s1 with
             | String c' s2 => if Re.is_sign c' then (String c' EmptyString, s2)
                               else (EmptyString, s1)
             | EmptyString => (EmptyString, s1)
             end).
  assert (sign_or_empty sg.1 /\ s1 = sg.1 +:+ sg.2) as [Hsg Hs1].
  { unfold sg. destruct s1 as [|c' s2]; [by split; [left|]|].
    destruct (Re.is_sign c') eqn:Hc'; simpl.
    - split; [right; eauto|done].
    - by split; [left|]. }
  destruct sg as [sgn s2]. simpl in *.
  destruct (span_digits_spec s2) as (Hd1 & Hd2 & _).
  destruct (Re.span_digits s2) as [ds r]. simpl in *.
  destruct ds as [|d ds]; [done|]. simpl. split; [done|].
  rewrite Hs1, Hd2. by rewrite (append_cons c), append_assoc.
Qed.

Lemma match_exponent_text (x : option (ascii * string * string)) :
  wf_exp x -> Re.match_exponent (Re.exp_text x) = (x, EmptyString).
Proof.
  destruct x as [[[c sg] ds]|]; [|done]. intros (Hc & Hsg & Hds & Hne).
  simpl. rewrite Hc.
  assert (Re.span_digits ds = (ds, EmptyString)) as Hspan by (by apply span_digits_all).
  destruct Hsg as [->|(c' & Hc' & ->)].
  - change ("" +:+ ds) with ds. destruct ds as [|d ds]; [done|].
    pose proof Hds as Hd. simpl in Hd. apply andb_true_iff in Hd as [Hd _].
    rewrite (digit_not_sign d Hd), Hspan. done.
  - rewrite append_cons. change ("" +:+ ds) with ds. rewrite Hc', Hspan.
    by destruct ds.
Qed.

Lemma match_exponent_none_head (s : string) :
  match s with String c _ => Re.is_exp_mark c = false | EmptyString => True end ->
  Re.match_exponent s = (None, s).
Proof. destruct s as [|c s]; [done|]. simpl. by intros ->. Qed.

Lemma append_nil_l (s : string) : EmptyString +:+ s = s.
Proof. reflexivity. Qed.

Ltac norm_append :=
  repeat first
    [ rewrite append_assoc | rewrite append_cons | rewrite append_nil_l
    | rewrite append_nil_r ].

Lemma match_point_spec (s r : string) :
  Re.match_point s = Some r -> s = String "." r.
Proof.
  destruct s as [|c s]; [done|]. simpl.
  destruct (Ascii.eqb c ".") eqn:Hc; [|done].
  apply Ascii.eqb_eq in Hc as ->. by intros [= ->].
Qed.

Lemma match_point_none (s : string) :
  Re.match_point s = None ->
  match s with String c _ => Ascii.eqb c "." = false | EmptyString => True end.
Proof. destruct s as [|c s]; [done|]. simpl. by destruct (Ascii.eqb c "."). Qed.

Lemma match_unsigned_spec (sg s : string) (n : Re.numeral) (r : string) :
  sign_or_empty sg ->
  Re.match_unsigned sg s = Some (n, r) ->
  wf_numeral n /\ Re.n_sign n = sg /\ s = Re.unsigned_text n +:+ r.
Proof.
  intros Hsg. unfold Re.match_unsigned.
  destruct (span_digits_spec s) as (Hds & Hs & Hr0).
  destruct (Re.span_digits s) as [ds r0]. simpl in *.
  destruct ds as [|d ds].
  - destruct (Re.match_point s) as [r1|] eqn:Hpoint; [|done].
    apply match_point_spec in Hpoint.
    destruct (span_digits_spec r1) as (Hfs & Hr1 & _).
    destruct (Re.span_digits r1) as [fs r2]. simpl in *.
    destruct fs as [|f fs]; [done|].
    destruct (match_exponent_spec r2) as (Hex & Hr2).
    destruct (Re.match_exponent r2) as [ex r3]. simpl in *.
    intros [= <- <-]. split; [|split; [done|]].
    + repeat split; simpl; auto; try done; by right.
    + unfold Re.unsigned_text. simpl. rewrite Hpoint, Hr1, Hr2. by norm_append.
  - destruct (Re.match_point r0) as [r1|] eqn:Hpoint.
    + apply match_point_spec in Hpoint.
      destruct (span_digits_spec r1) as (Hfs & Hr1 & _).
      destruct (Re.span_digits r1) as [fs r2]. simpl in *.
      destruct (match_exponent_spec r2) as (Hex & Hr2).
      destruct (Re.match_exponent r2) as [ex r3]. simpl in *.
      intros [= <- <-]. split; [|split; [done|]].
      * repeat split; simpl; auto; try done; by left.
      * unfold Re.unsigned_text. simpl. rewrite Hs, Hpoint, Hr1, Hr2. by norm_append.
    + destruct (match_exponent_spec r0) as (Hex & Hr0').
      destruct (Re.match_exponent r0) as [ex r3]. simpl in *.
      intros [= <- <-]. split; [|split; [done|]].
      * repeat split; simpl; auto; try done; by left.
      * unfold Re.unsigned_text. simpl. rewrite Hs, Hr0'. by norm_append.
Qed.

(** A match consumes its text: the string is the matched text followed by
    the rest, and the parts of the match are those of the grammar. *)
Lemma match_at_spec (s : string) (n : Re.numeral) (r : string) :
  Re.match_at s = Some (n, r) -> wf_numeral n /\ s = Re.text n +:+ r.
Proof.
  destruct s as [|c s]; [done|]. unfold Re.match_at.
  destruct (Re.is_sign c) eqn:Hc.
  - intros Hm. apply match_unsigned_spec in Hm as (Hwf & Hsg & Hs); [|right; eauto].
    split; [done|]. unfold Re.text. rewrite Hsg, Hs. by norm_append.
  - intros Hm. apply match_unsigned_spec in Hm as (Hwf & Hsg & Hs); [|by left].
    split; [done|]. unfold Re.text. by rewrite Hsg, Hs.
Qed.

Lemma match_unsigned_starts (sg s : string) :
  is_Some (Re.match_unsigned sg s) <-> starts_unsigned s = true.
Proof.
  unfold Re.match_unsigned. destruct s as [|c s].
  - simpl. split; [by intros [? ?]|done].
  - rewrite span_digits_cons. unfold starts_unsigned.
    destruct (Re.is_digit c) eqn:Hc; simpl.
    + split; [done|]. intros _.
      destruct (Re.match_point _); repeat destruct (Re.span_digits _);
        repeat destruct (Re.match_exponent _); eauto.
    + destruct (Ascii.eqb c ".") eqn:Hp; simpl; [|split; [by intros [? ?]|done]].
      destruct s as [|c' s']; [simpl; split; [by intros [? ?]|done]|].
      rewrite span_digits_cons. destruct (Re.is_digit c') eqn:Hc'.
      * split; [done|]. intros _. destruct (Re.match_exponent _); eauto.
      * split; [by intros [? ?]|done].
Qed.

Lemma match_at_starts (s : string) :
  is_Some (Re.match_at s) <-> starts_numeral s = true.
Proof.
  destruct s as [|c s]; simpl.
  - split; [by intros [? ?]|done].
  - destruct (Re.is_sign c); apply match_unsigned_starts.
Qed.

Lemma match_at_none (s : string) :
  Re.match_at s = None <-> starts_numeral s = false.
Proof.
  rewrite eq_None_not_Some, match_at_starts. by destruct (starts_numeral s).
Qed.

Lemma starts_unsigned_prefix (t u : string) :
  starts_unsigned t = true -> starts_unsigned (t +:+ u) = true.
Proof.
  destruct t as [|c t]; [done|]. rewrite append_cons. simpl.
  destruct (Re.is_digit c); [done|]. simpl.
  destruct (Ascii.eqb c "."); [|done]. simpl.
  destruct t as [|c' t]; [done|]. by rewrite append_cons.
Qed.

(** A numeral that starts in a string starts in every extension of it. *)
Lemma starts_numeral_prefix (t u : string) :
  starts_numeral t = true -> starts_numeral (t +:+ u) = true.
Proof.
  destruct t as [|c t]; [done|]. rewrite append_cons. unfold starts_numeral.
  destruct (Re.is_sign c); [apply starts_unsigned_prefix|].
  intros Ht. rewrite <- append_cons. by apply starts_unsigned_prefix.
Qed.

Lemma no_start_prefix (t u : string) :
  starts_numeral (t +:+ u) = false -> starts_numeral t = false.
Proof.
  intros Hu. destruct (starts_numeral t) eqn:Ht; [|done].
  by rewrite starts_numeral_prefix in Hu.
Qed.

Lemma exp_text_head (x : option (ascii * string * string)) :
  wf_exp x -> no_digit_head (Re.exp_text x)
  /\ Re.match_point (Re.exp_text x) = None.
Proof.
  destruct x as [[[c sg] ds]|]; [|done]. intros (Hc & _). simpl.
  split; [by apply exp_mark_not_digit|].
  destruct (Ascii.eqb c ".") eqn:Hp; [|done].
  apply Ascii.eqb_eq in Hp as ->. done.
Qed.

(** Matching the text of a numeral gives the numeral back, with nothing
    left. *)
Lemma rematch_unsigned (sg : string) (n : Re.numeral) :
  wf_numeral n ->
  Re.match_unsigned sg (Re.unsigned_text n)
  = Some (Re.Numeral sg (Re.n_int n) (Re.n_dot n) (Re.n_frac n) (Re.n_exp n),
          EmptyString).
Proof.
  destruct n as [sg0 ds dot fs ex]. intros (_ & Hds & Hfs & Hdot & Hne & Hex).
  simpl in *. unfold Re.unsigned_text, Re.match_unsigned. simpl.
  destruct (exp_text_head ex Hex) as [Hexd Hexp].
  pose proof (match_exponent_text ex Hex) as Hexm.
  destruct dot.
  - assert (Re.span_digits (ds +:+ "." +:+ fs +:+ Re.exp_text ex)
            = (ds, "." +:+ fs +:+ Re.exp_text ex)) as ->.
    { by apply span_digits_app. }
    assert (Re.span_digits (fs +:+ Re.exp_text ex) = (fs, Re.exp_text ex)) as Hfrac.
    { by apply span_digits_app. }
    destruct ds as [|d ds].
    + rewrite append_nil_l, append_cons, append_nil_l. simpl.
      rewrite Hfrac. destruct Hne as [?|[_ Hne]]; [done|].
      destruct fs as [|f fs]; [done|]. by rewrite Hexm.
    + rewrite append_cons, append_nil_l. simpl. by rewrite Hfrac, Hexm.
  - rewrite (Hdot eq_refl) in *. rewrite !append_nil_l.
    assert (Re.span_digits (ds +:+ Re.exp_text ex) = (ds, Re.exp_text ex)) as ->.
    { by apply span_digits_app. }
    destruct ds as [|d ds]; [by destruct Hne as [?|[? _]]|].
    by rewrite Hexp, Hexm.
Qed.

Lemma unsigned_text_head (n : Re.numeral) :
  wf_numeral n ->
  match Re.unsigned_text n with
  | String c _ => Re.is_sign c = false
  | EmptyString => False
  end.
Proof.
  destruct n as [sg0 ds dot fs ex]. intros (_ & Hds & Hfs & Hdot & Hne & Hex).
  simpl in *. unfold Re.unsigned_text. simpl.
  destruct ds as [|d ds].
  - destruct Hne as [?|[-> Hne]]; [done|]. rewrite append_nil_l, append_cons. done.
  - rewrite append_cons. simpl in Hds. apply andb_true_iff in Hds as [Hd _].
    by apply digit_not_sign.
Qed.

Lemma rematch (n : Re.numeral) :
  wf_numeral n ->
  Re.match_at (Re.text n) = Some (n, EmptyString)
  /\ Re.match_at (Re.unsigned_text n) = Some (unsign n, EmptyString).
Proof.
  intros Hwf. pose proof (unsigned_text_head n Hwf) as Hhead.
  split.
  - unfold Re.text. destruct Hwf as (Hsg & Hrest).
    assert (wf_numeral n) as Hwf by (by split).
    destruct Hsg as [Hsg|(c & Hc & Hsg)].
    + rewrite Hsg, append_nil_l. unfold Re.match_at.
      destruct (Re.unsigned_text n) as [|c u] eqn:Hu; [done|].
      rewrite Hhead, <- Hu, rematch_unsigned by done.
      destruct n; simpl in *; by subst.
    + rewrite Hsg, append_cons, append_nil_l. unfold Re.match_at. rewrite Hc.
      rewrite rematch_unsigned by done. destruct n; simpl in *; by subst.
  - unfold Re.match_at.
    destruct (Re.unsigned_text n) as [|c u] eqn:Hu; [done|].
    rewrite Hhead, <- Hu. by apply rematch_unsigned.
Qed.

(** ** The pieces of [re.split] *)

Lemma rev_app_append (a b s : string) :
  String.rev_app a b +:+ s = String.rev_app a (b +:+ s).
Proof.
  revert b. induction a as [|c a IH]; intros b; simpl; [done|].
  by rewrite IH.
Qed.

Lemma rev_cons_append (c : ascii) (acc s : string) :
  String.rev (String c acc) +:+ s = String.rev acc +:+ String c s.
Proof. unfold String.rev. simpl. by rewrite !rev_app_append. Qed.

Lemma split_go_segments (s : string) (skip : nat) (acc : string) :
  (acc = EmptyString \/ starts_numeral (String.rev acc +:+ s) = false) ->
  (skip <> 0%nat -> acc = EmptyString) ->
  exists segs last,
    (forall signed, Re.split_go signed skip acc s = interleave_groups signed segs last)
    /\ Forall segment_ok segs
    /\ starts_numeral last = false.
Proof.
  revert skip acc. induction s as [|c s IH]; intros skip acc Hacc Hskip.
  - exists [], (String.rev acc). split; [done|]. split; [done|].
    destruct Hacc as [->|Hacc]; [done|]. by rewrite append_nil_r in Hacc.
  - destruct skip as [|k].
    + destruct (Re.match_at (String c s)) as [[n r]|] eqn:Hmatch.
      * destruct (IH (String.length (Re.text n) - 1)%nat EmptyString)
          as (segs & last & Hsplit & Hsegs & Hlast); [by left|done|].
        exists ((String.rev acc, n) :: segs), last. split; [|split; [|done]].
        -- intros signed. cbn [Re.split_go interleave_groups]. rewrite Hmatch.
           by rewrite Hsplit.
        -- constructor; [|done]. split; simpl.
           ++ destruct Hacc as [->|Hacc]; [done|]. by apply no_start_prefix in Hacc.
           ++ by apply match_at_spec in Hmatch as [? _].
      * destruct (IH 0%nat (String c acc)) as (segs & last & Hsplit & Hsegs & Hlast);
          [|done|].
        { right. rewrite rev_cons_append.
          destruct Hacc as [->|Hacc]; [|done]. by apply match_at_none. }
        exists segs, last. split; [|done].
        intros signed. cbn [Re.split_go]. rewrite Hmatch. apply Hsplit.
    + rewrite (Hskip ltac:(done)).
      destruct (IH k EmptyString) as (segs & last & Hsplit & Hsegs & Hlast);
        [by left|done|].
      exists segs, last. split; [|done]. intros signed. apply Hsplit.
Qed.

(** In both modes [re.split] cuts a name at the same numerals. *)
Lemma split_segments (s : string) :
  exists segs last,
    (forall signed, Re.split signed s = interleave_groups signed segs last)
    /\ Forall segment_ok segs
    /\ starts_numeral last = false.
Proof. apply split_go_segments; [by left|done]. Qed.

(** ** Keys *)

Lemma maybe_num_text (signed : bool) (t : string) :
  starts_numeral t = false -> maybe_num signed t = inr (TStr t).
Proof.
  intros Ht%match_at_none. unfold maybe_num. by rewrite Ht.
Qed.

Lemma maybe_num_group (signed : bool) (n : Re.numeral) :
  wf_numeral n ->
  maybe_num signed (Re.group signed n)
  = inr (TNum (numeral_val (if signed then n else unsign n))).
Proof.
  intros [Htext Hunsigned]%rematch. unfold maybe_num, py_float, Re.group.
  destruct signed.
  - by rewrite Htext.
  - by rewrite Hunsigned.
Qed.

Lemma mapM_result_cons {A B : Type} (f : A -> result B) x l y ys :
  f x = inr y -> mapM_result f l = inr ys ->
  mapM_result f (x :: l) = inr (y :: ys).
Proof. intros Hx Hl. simpl. by rewrite Hx, Hl. Qed.

Lemma keys_of_segments (signed : bool) segs last :
  Forall segment_ok segs -> starts_numeral last = false ->
  mapM_result (maybe_num signed) (interleave_groups signed segs last)
  = inr (key_of signed segs last).
Proof.
  intros Hsegs Hlast. induction Hsegs as [|[t n] segs [Ht Hn] Hsegs IH].
  - simpl. by rewrite maybe_num_text.
  - cbn [interleave_groups key_of]. simpl in Ht, Hn.
    apply mapM_result_cons; [by apply maybe_num_text|].
    apply mapM_result_cons; [by apply maybe_num_group|done].
Qed.

Lemma alternating_key_of (signed : bool) segs last :
  alternating (key_of signed segs last).
Proof.
  unfold alternating. induction segs as [|[t n] segs IH]; simpl; [done|].
  repeat split; [|done]. by destruct segs as [|[? ?] ?].
Qed.

(** ** Magnitudes *)

Lemma all_digits_app (a b : string) :
  all_digits a = true -> all_digits b = true -> all_digits (a +:+ b) = true.
Proof.
  intros Ha Hb. induction a as [|c a IH]; [done|].
  rewrite append_cons. simpl in *. apply andb_true_iff in Ha as [-> Ha].
  by apply IH.
Qed.

Lemma digit_val_nonneg (c : ascii) : Re.is_digit c = true -> 0 <= digit_val c.
Proof.
  unfold Re.is_digit, digit_val. intros [H1 _]%andb_true_iff.
  apply N.leb_le in H1. lia.
Qed.

Lemma digits_val_nonneg (s : string) (acc : Z) :
  all_digits s = true -> 0 <= acc -> 0 <= digits_val acc s.
Proof.
  revert acc. induction s as [|c s IH]; intros acc Hs Hacc; simpl; [done|].
  simpl in Hs. apply andb_true_iff in Hs as [Hc Hs].
  apply IH; [done|]. pose proof (digit_val_nonneg c Hc). lia.
Qed.

Lemma round_nonneg (n d : Z) :
  0 <= n -> 0 < d -> Float.abs (Float.round n d) = Float.round n d.
Proof.
  intros Hn Hd. unfold Float.round.
  destruct (n =? 0); [done|].
  set (e := if Float.ge_pow2 n d (Z.log2 n - Z.log2 d)
            then Z.log2 n - Z.log2 d else Z.log2 n - Z.log2 d - 1).
  set (ex := Z.max (e - 52) (-1074)).
  set (num := if 0 <=? ex then n else n * 2 ^ (- ex)).
  set (den := if 0 <=? ex then d * 2 ^ ex else d).
  assert (0 <= num) as Hnum.
  { unfold num. destruct (0 <=? ex); [done|]. apply Z.mul_nonneg_nonneg; [done|].
    apply Z.pow_nonneg. lia. }
  assert (0 < den) as Hden.
  { unfold den. destruct (Z.leb_spec 0 ex); [|done].
    apply Z.mul_pos_pos; [done|]. by apply Z.pow_pos_nonneg. }
  assert (0 <= num / den) as Hq by (by apply Z.div_pos).
  destruct (_ && _); [done|].
  simpl. f_equal. destruct (_ || _); lia.
Qed.

Lemma abs_neg (x : Float.t) : Float.abs (Float.neg x) = Float.abs x.
Proof. destruct x as [m e|b]; simpl; [|done]. by rewrite Z.abs_opp. Qed.

(** Without its sign a numeral denotes the magnitude of its value. *)
Lemma numeral_val_unsign (n : Re.numeral) :
  wf_numeral n -> numeral_val (unsign n) = Float.abs (numeral_val n).
Proof.
  intros (_ & Hint & Hfrac & _). unfold numeral_val, unsign. simpl.
  set (d := digits_val 0 (Re.n_int n +:+ Re.n_frac n)).
  set (x := exponent_val (Re.n_exp n) - Z.of_nat (String.length (Re.n_frac n))).
  assert (0 <= d) as Hd.
  { apply digits_val_nonneg; [|done]. by apply all_digits_app. }
  assert (Float.abs (if 0 <=? x then Float.round (d * 10 ^ x) 1
                     else Float.round d (10 ^ (- x)))
          = if 0 <=? x then Float.round (d * 10 ^ x) 1
            else Float.round d (10 ^ (- x))) as Habs.
  { destruct (Z.leb_spec 0 x).
    - apply round_nonneg; [|done]. apply Z.mul_nonneg_nonneg; [done|].
      by apply Z.pow_nonneg.
    - apply round_nonneg; [done|]. apply Z.pow_pos_nonneg; lia. }
  destruct (String.eqb (Re.n_sign n) "-"); [by rewrite abs_neg|done].
Qed.

Lemma key_of_unsigned segs last :
  Forall segment_ok segs ->
  key_of false segs last = abs_token <$> key_of true segs last.
Proof.
  induction 1 as [|[t n] segs [_ Hn] Hsegs IH]; [done|].
  cbn [key_of]. simpl in Hn. rewrite IH. csimpl.
  by rewrite numeral_val_unsign.
Qed.

(** [split_keys] does not raise: its result is a key in which texts and
    numbers take turns. *)
Lemma split_keys_total (signed : bool) (s : string) :
  exists k, split_keys signed s = inr k /\ alternating k.
Proof.
  destruct (split_segments s) as (segs & last & Hsplit & Hsegs & Hlast).
  exists (key_of signed segs last). split; [|apply alternating_key_of].
  unfold split_keys. rewrite Hsplit. by apply keys_of_segments.
Qed.

(** The key of a name in unsigned mode is its key in signed mode with
    each number replaced by its magnitude; the texts are the same. *)
Lemma split_keys_unsigned (s : string) :
  split_keys false s = fmap (M := result) (fmap abs_token) (split_keys true s).
Proof.
  destruct (split_segments s) as (segs & last & Hsplit & Hsegs & Hlast).
  unfold split_keys. rewrite !Hsplit, !keys_of_segments by done.
  simpl. by rewrite key_of_unsigned.
Qed.

(** ** [sorted] without exceptions *)

Lemma key_lt_takes_turns (text : bool) (k1 k2 : list token) :
  takes_turns text k1 -> takes_turns text k2 ->
  key_lt k1 k2 = inr (key_ltb k1 k2).
Proof.
  revert text k2. induction k1 as [|x k1 IH]; intros text k2 H1 H2.
  - by destruct k2.
  - destruct k2 as [|y k2]; [done|]. unfold key_ltb. cbn [key_lt].
    destruct x as [a|a], y as [b|b]; simpl in H1, H2;
      try (destruct H1 as [-> _], H2 as [? _]; done);
      try (destruct H1 as [? _], H2 as [-> _]; done).
    + destruct H1 as [_ H1], H2 as [_ H2]. simpl.
      destruct (String.eqb a b); [|done].
      rewrite (IH false k2) by done. unfold key_ltb.
      by rewrite (IH false k2) by done.
    + destruct H1 as (_ & _ & H1), H2 as (_ & _ & H2). simpl.
      destruct (Float.eqb a b); [|done].
      rewrite (IH true k2) by done. unfold key_ltb.
      by rewrite (IH true k2) by done.
Qed.

Section SortedTotal.
Context {A : Type} (lt : A -> A -> result bool) (ltb : A -> A -> bool).
Context (P : A -> Prop).
Hypothesis lt_total : forall x y, P x -> P y -> lt x y = inr (ltb x y).

Lemma insert_sorted_exn_total x l :
  P x -> Forall P l ->
  insert_sorted_exn lt x l = inr (insert_sorted ltb x l).
Proof.
  intros Hx Hl. induction Hl as [|y l Hy Hl IH]; [done|].
  simpl. rewrite lt_total by done. simpl.
  destruct (ltb y x); [|done]. by rewrite IH.
Qed.

Lemma sorted_exn_total l :
  Forall P l -> sorted_exn lt l = inr (sorted ltb l).
Proof.
  induction 1 as [|x l Hx Hl IH]; [done|].
  simpl. rewrite IH. simpl. apply insert_sorted_exn_total; [done|].
  by rewrite sorted_perm.
Qed.
End SortedTotal.

Lemma keyed_total (signed : bool) (l : list string) :
  mapM_result (fun s => k ← split_keys signed s; mret (k, s)) l
  = inr ((fun s => (the_key signed s, s)) <$> l).
Proof.
  induction l as [|s l IH]; [done|].
  rewrite fmap_cons.
  apply (mapM_result_cons (fun s => k ← split_keys signed s; mret (k, s)));
    [|done].
  unfold the_key. destruct (split_keys_total signed s) as (k & -> & _). done.
Qed.

(** [natural_sort] does not raise: no [float] fails and no key is compared
    with a key of another shape.  It returns the names in the order of the
    stable sort by key. *)
Lemma natural_sort_total (l : list string) (signed : bool) :
  natural_sort l signed
  = inr (sorted (fun a b => key_ltb a.1 b.1)
           ((fun s => (the_key signed s, s)) <$> l)).*2.
Proof.
  unfold natural_sort. rewrite keyed_total. simpl.
  rewrite (sorted_exn_total _ (fun a b => key_ltb a.1 b.1)
             (fun a => alternating a.1)).
  - done.
  - intros x y Hx Hy. by apply (key_lt_takes_turns true).
  - apply Forall_fmap, Forall_forall. intros s _. simpl. unfold the_key.
    by destruct (split_keys_total signed s) as (k & -> & ?).
Qed.

Lemma natural_sort_perm (l : list string) (signed : bool) :
  exists l', natural_sort l signed = inr l' /\ l' ≡ₚ l.
Proof.
  eexists. split; [apply natural_sort_total|].
  rewrite sorted_perm, <- list_fmap_compose. simpl.
  by rewrite list_fmap_id.
Qed.

(** [latest_checkpoint_path] does not raise, and what it returns is one of
    the paths of [glob], other than the temporary one. *)
Lemma latest_checkpoint_path_total scan fs ckpt_dir prefix :
  exists r,
    latest_checkpoint_path scan fs ckpt_dir prefix = inr r
    /\ forall p, r = Some p ->
         p ∈ glob_glob scan fs ckpt_dir prefix /\ p <> tmp_path ckpt_dir prefix.
Proof.
  unfold latest_checkpoint_path.
  destruct (natural_sort_perm (glob_glob scan fs ckpt_dir prefix) true)
    as (files & -> & Hperm).
  eexists. split; [done|]. intros p Hp. apply last_Some_elem_of in Hp.
  apply list_elem_of_filter in Hp as [Hne Hin]. by rewrite <- Hperm.
Qed.

Lemma float_eqb_not_ltb (x y : Float.t) :
  Float.eqb x y = true -> Float.ltb x y = false.
Proof. unfold Float.eqb, Float.ltb. by destruct (Float.compare x y). Qed.

Lemma string_eqb_refl (s : string) : String.eqb s s = true.
Proof. by apply String.eqb_eq. Qed.

(** Names that differ in an integer suffix compare as these integers. *)
Lemma key_lt_integer_suffix (signed : bool) (p d1 d2 : string) :
  plain p = true ->
  all_digits d1 = true -> d1 <> EmptyString ->
  all_digits d2 = true -> d2 <> EmptyString ->
  (k1 ← split_keys signed (p +:+ d1); k2 ← split_keys signed (p +:+ d2); key_lt k1 k2)
  = inr (Float.ltb (integer_val EmptyString d1) (integer_val EmptyString d2)).
Proof.
  intros Hp Hd1 Hne1 Hd2 Hne2. rewrite !split_keys_integer by done.
  cbn [mbind result_bind key_lt token_eqb token_lt].
  rewrite string_eqb_refl.
  destruct (Float.eqb _ _) eqn:E; [|done].
  rewrite string_eqb_refl. by rewrite float_eqb_not_ltb.
Qed.



(** C6, as amended.  With [signed] a sign in front of a numeral belongs to
    the number: in a name made of plain text, a sign and digits the
    numeric token is the signed integer, and [file_-2 < file_0.1 <
    file_2.0].  Without [signed] the sign is matched with the numeral but
    not captured, so it is in no token of the key, neither text nor
    number: the key of every name is its signed key with each number
    replaced by its magnitude, and a name of the kind above has the key of
    the name without the sign. *)
Theorem natural_sort_sign (s p d : string) (c : ascii) :
  split_keys false s = fmap (M := result) (fmap abs_token) (split_keys true s)
  /\ (plain p = true -> all_digits d = true -> d <> EmptyString ->
      Re.is_sign c = true ->
      split_keys true (p +:+ String c d)
      = inr [TStr p; TNum (integer_val (String c EmptyString) d); TStr EmptyString]
      /\ split_keys false (p +:+ String c d)
         = inr [TStr p; TNum (integer_val EmptyString d); TStr EmptyString]
      /\ split_keys false (p +:+ String c d) = split_keys false (p +:+ d))
  /\ natural_sort ["file_2.0"; "file_0.1"; "file_-2"] true
     = inr ["file_-2"; "file_0.1"; "file_2.0"]
  /\ (k1 ← split_keys true "file_-2"; k2 ← split_keys true "file_0.1"; key_lt k1 k2)
     = inr true
  /\ (k1 ← split_keys true "file_0.1"; k2 ← split_keys true "file_2.0"; key_lt k1 k2)
     = inr true.
Proof.
  split; [apply split_keys_unsigned|]. split.
  - intros Hp Hd Hne Hc. split; [|split].
    + by rewrite split_keys_signed_integer.
    + by rewrite split_keys_signed_integer.
    + by rewrite split_keys_signed_integer, split_keys_integer.
  - vm_compute. auto.
Qed.

Lemma natural_sort_sign_witness :
  split_keys true "file_-2"
  = inr [TStr "file_"; TNum (integer_val "-" "2"); TStr ""]
  /\ split_keys false "file_-2"
     = inr [TStr "file_"; TNum (integer_val "" "2"); TStr ""].
Proof.
  destruct (natural_sort_sign "" "file_" "2" "-") as (_ & Hfamily & _).
  destruct Hfamily as (Ht & Hf & _);
    [reflexivity|reflexivity|discriminate|reflexivity|].
  split; [exact Ht|exact Hf].
Defined.

(** C6, the claim as stated fails: without [signed] the sign is not kept
    as a text token.  The key of [file_-2] has the text [file_], the
    number 2 and the empty text, which is the key of [file_2]; sorting
    leaves the two names in the order given, either way. *)
Lemma unsigned_sign_is_dropped :
  split_keys false "file_-2"
  = inr [TStr "file_"; TNum (Float.round 2 1); TStr ""]
  /\ split_keys false "file_-2" = split_keys false "file_2"
  /\ natural_sort ["file_2"; "file_-2"] false = inr ["file_2"; "file_-2"]
  /\ natural_sort ["file_-2"; "file_2"] false = inr ["file_-2"; "file_2"].
Proof. vm_compute. auto. Qed.

(** ** Latest path and restore *)

Section Restore.
Context (scan : directory -> list string).
Context {T : Type} `{Pickle T}.

Lemma latest_in_sorted fs ckpt_dir prefix p :
  latest_checkpoint_path scan fs ckpt_dir prefix = inr (Some p) ->
  p <> tmp_path ckpt_dir prefix.
Proof.
  unfold latest_checkpoint_path.
  destruct (natural_sort _ true) as [e|files]; simpl; [done|].
  intros [= Hlast]. apply last_Some_elem_of in Hlast.
  by apply list_elem_of_filter in Hlast as [? _].
Qed.

Lemma natural_sort_nil signed : natural_sort [] signed = inr [].
Proof. reflexivity. Qed.

Lemma glob_glob_nil fs ckpt_dir prefix :
  fair scan ->
  (forall n, glob_match prefix n = true -> entries fs !! n = None) ->
  glob_glob scan fs ckpt_dir prefix = [].
Proof.
  intros Hscan Hnone. unfold glob_glob.
  replace (filter _ (scan (entries fs))) with (@nil string); [done|].
  symmetry. apply filter_Forall_nil, Forall_forall.
  intros n Hn Hmatch. apply (elem_of_scan scan Hscan) in Hn as [v Hv].
  apply Is_true_true in Hmatch. rewrite (Hnone n Hmatch) in Hv. done.
Qed.

(** Without a step, a directory without checkpoints gives the target
    back. *)
Lemma restore_latest_lenient fs ckpt_dir (target : T) prefix :
  fair scan ->
  (forall n, glob_match prefix n = true -> entries fs !! n = None) ->
  restore_checkpoint scan fs ckpt_dir target (@None Z) prefix = inr target.
Proof.
  intros Hscan Hnone. unfold restore_checkpoint, latest_checkpoint_path.
  by rewrite glob_glob_nil.
Qed.

(** With a step that is true, a missing file is an error. *)
Lemma restore_true_step_strict {S : Type} `{Step S}
    fs ckpt_dir (target : T) (step : S) prefix :
  step_bool step = true ->
  entries fs !! (prefix +:+ step_str step) = None ->
  restore_checkpoint scan fs ckpt_dir target (Some step) prefix = inl ValueError.
Proof.
  intros Hb Hnone. unfold restore_checkpoint. rewrite Hb, Hnone.
  rewrite bool_decide_false; [done|]. by intros [? ?].
Qed.

(** A step that is false is treated as no step at all. *)
Lemma restore_false_step {S : Type} `{Step S}
    fs ckpt_dir (target : T) (step : S) prefix :
  step_bool step = false ->
  restore_checkpoint scan fs ckpt_dir target (Some step) prefix
  = restore_checkpoint scan fs ckpt_dir target (@None S) prefix.
Proof. intros Hb. unfold restore_checkpoint. by rewrite Hb. Qed.
End Restore.

(** C3, where the code departs from the claim: the test [if step:] sends
    step 0 down the lenient branch.  On an empty directory a restore of the
    explicit step 0 returns the target instead of failing, while the same
    call for step 5 raises the not-found [ValueError]. *)
Theorem restore_step_zero_not_strict :
  restore_checkpoint scan_dom (Some ∅) "ckpt" (blob "init") (Some 0) "checkpoint_"
  = inr (blob "init")
  /\ restore_checkpoint scan_dom (Some ∅) "ckpt" (blob "init") (Some 5) "checkpoint_"
     = inl ValueError.
Proof. vm_compute. auto. Qed.

(** C10.  [restore_from_path] does not look at its target: two calls that
    differ in the target only, whatever its type, give the same result,
    which is the unpickled contents of the file. *)
Theorem restore_from_path_ignores_target
    {T : Type} `{Pickle T} {U V : Type}
    (fs : filesystem) (ckpt_dir ckpt_path : string) (t1 : U) (t2 : V) :
  restore_from_path (T := T) fs ckpt_dir ckpt_path t1
  = restore_from_path (T := T) fs ckpt_dir ckpt_path t2
  /\ restore_from_path (T := T) fs ckpt_dir ckpt_path t1
     = match path_name ckpt_dir ckpt_path ≫= (entries fs !!.) with
       | None => inl FileNotFoundError
       | Some data =>
           match pickle_loads data with
           | Some v => inr v
           | None => inl UnpicklingError
           end
       end.
Proof. split; reflexivity. Qed.

(** ** The watcher *)

Lemma Qgtb_0_pos (x : Q) : Qgtb x 0 = true -> Qgtb 0 x = false.
Proof.
  unfold Qgtb. intros Hx. apply negb_true_iff in Hx. apply negb_false_iff.
  apply Qle_bool_iff, Qlt_le_weak, Qnot_le_lt. intros Hle.
  apply Qle_bool_iff in Hle. congruence.
Qed.

Lemma time_sleep_nonneg (secs : Q) : Qgtb 0 secs = false -> time_sleep secs = inr tt.
Proof. intros Hs. unfold time_sleep. by rewrite Hs. Qed.

Section Watching.
Context (scan : directory -> list string).

Lemma wait_loop_timed_out fuel w i ckpt_dir last sleep stop prefix :
  wait_loop scan fuel w i ckpt_dir last sleep stop prefix = Some (inr None) ->
  exists st j,
    stop = Some st
    /\ Qgtb (poll_time w j + sleep) st = true
    /\ nothing_new scan (disk w j) ckpt_dir last prefix.
Proof.
  revert i. induction fuel as [|fuel IH]; intros i; simpl; [done|].
  destruct (latest_checkpoint_path scan (disk w i) ckpt_dir prefix)
    as [e|ckpt_path] eqn:Hlatest; [done|].
  case_bool_decide as Hnew.
  - destruct stop as [st|].
    + destruct (Qgtb (poll_time w i + sleep) st) eqn:Hlate.
      * intros _. exists st, i. repeat split; [done|].
        unfold nothing_new. rewrite Hlatest.
        destruct Hnew as [->| ->]; auto.
      * destruct (time_sleep sleep); [done|]. apply IH.
    + destruct (time_sleep sleep); [done|]. intros Hrec.
      apply IH in Hrec as (st & j & ? & _). done.
  - intros [= ->]. destruct Hnew. by left.
Qed.

Lemma wait_loop_found fuel w i ckpt_dir last sleep stop prefix p :
  wait_loop scan fuel w i ckpt_dir last sleep stop prefix = Some (inr (Some p)) ->
  Some p <> last
  /\ exists j, latest_checkpoint_path scan (disk w j) ckpt_dir prefix = inr (Some p).
Proof.
  revert i. induction fuel as [|fuel IH]; intros i; simpl; [done|].
  destruct (latest_checkpoint_path scan (disk w i) ckpt_dir prefix)
    as [e|ckpt_path] eqn:Hlatest; [done|].
  case_bool_decide as Hnew.
  - destruct (match stop with Some st => _ | None => false end); [done|].
    destruct (time_sleep sleep); [done|]. apply IH.
  - intros [= ->]. split; [|by exists i]. intros <-. apply Hnew. by right.
Qed.

Lemma wait_loop_forever fuel w i ckpt_dir last sleep prefix :
  Qgtb 0 sleep = false ->
  (forall j, nothing_new scan (disk w j) ckpt_dir last prefix) ->
  wait_loop scan fuel w i ckpt_dir last sleep None prefix = None.
Proof.
  intros Hsleep Hnone. revert i. induction fuel as [|fuel IH]; intros i; simpl.
  - done.
  - rewrite time_sleep_nonneg by done.
    destruct (Hnone i) as [-> | ->].
    + rewrite bool_decide_true by (by left). apply IH.
    + rewrite bool_decide_true by (by right). apply IH.
Qed.

(** With a sleep that is not negative the loop does not raise. *)
Lemma wait_loop_no_raise fuel w i ckpt_dir last sleep stop prefix e :
  Qgtb 0 sleep = false ->
  wait_loop scan fuel w i ckpt_dir last sleep stop prefix <> Some (inl e).
Proof.
  intros Hsleep. revert i. induction fuel as [|fuel IH]; intros i; simpl; [done|].
  destruct (latest_checkpoint_path_total scan (disk w i) ckpt_dir prefix)
    as (r & -> & _).
  case_bool_decide; [|done].
  destruct (match stop with Some st => _ | None => false end); [done|].
  rewrite time_sleep_nonneg by done. apply IH.
Qed.

Lemma wait_loop_deadline fuel w i ckpt_dir last sleep st prefix :
  nothing_new scan (disk w i) ckpt_dir last prefix ->
  Qgtb (poll_time w i + sleep) st = true ->
  wait_loop scan (Datatypes.S fuel) w i ckpt_dir last sleep (Some st) prefix
  = Some (inr None).
Proof.
  intros Hnone Hlate. simpl. rewrite Hlate.
  destruct Hnone as [-> | ->].
  - by rewrite bool_decide_true by (by left).
  - by rewrite bool_decide_true by (by right).
Qed.

Context {T : Type} `{Pickle T}.

Lemma iterator_stops fuel (r : resumption) st ckpt_dir (target : option T)
    timeout min_interval_secs prefix :
  wait_for_new_checkpoint scan fuel (watch r) ckpt_dir (cursor st) 1 timeout prefix
  = Some (inr None) ->
  checkpoints_iterator_next scan fuel r st ckpt_dir target timeout
    min_interval_secs prefix
  = Some (StopIteration, GenDone).
Proof.
  intros Hwait. unfold checkpoints_iterator_next.
  destruct st as [|ckpt_path start|]; simpl in *.
  - by rewrite Hwait.
  - destruct (Qgtb _ 0) eqn:Hpos.
    + rewrite time_sleep_nonneg by (by apply Qgtb_0_pos). by rewrite Hwait.
    + by rewrite Hwait.
  - done.
Qed.

Lemma iterator_yields_path fuel (r : resumption) st ckpt_dir (target : option T)
    timeout min_interval_secs prefix p st' :
  checkpoints_iterator_next scan fuel r st ckpt_dir target timeout
    min_interval_secs prefix
  = Some (Yield (inl p), st') ->
  exists last,
    wait_for_new_checkpoint scan fuel (watch r) ckpt_dir last 1 timeout prefix
    = Some (inr (Some p)).
Proof.
  unfold checkpoints_iterator_next.
  assert (forall last,
    match wait_for_new_checkpoint scan fuel (watch r) ckpt_dir last 1 timeout prefix with
    | None => None
    | Some (inl e) => Some (GenRaise e, GenDone)
    | Some (inr None) => Some (StopIteration, GenDone)
    | Some (inr (Some new_ckpt_path)) =>
        let start := found_time r in
        match target with
        | None => Some (Yield (inl new_ckpt_path), GenSuspended new_ckpt_path start)
        | Some t =>
            match restore_from_path (load_disk r) ckpt_dir new_ckpt_path t with
            | inr v => Some (Yield (inr v), GenSuspended new_ckpt_path start)
            | inl e => Some (GenRaise e, GenDone)
            end
        end
    end = Some (Yield (inl p), st') ->
    wait_for_new_checkpoint scan fuel (watch r) ckpt_dir last 1 timeout prefix
    = Some (inr (Some p))) as Hloop.
  { intros last.
    destruct (wait_for_new_checkpoint _ _ _ _ last _ _ _) as [[e|[q|]]|]; try done.
    destruct target as [t|].
    - destruct (restore_from_path _ _ _ _); done.
    - by intros [= -> _]. }
  destruct st as [|ckpt_path start|]; simpl; [eauto| |done].
  destruct (Qgtb _ 0); [destruct (time_sleep _); [done|]|]; eauto.
Qed.
End Watching.

Section WatcherClaims.
Context (scan : directory -> list string).

(** With a deadline, no news and a deadline passed at iteration [i + j]
    make the loop return [None] once it has fuel for that iteration. *)
Lemma wait_loop_reaches_deadline j fuel w i ckpt_dir last sleep st prefix :
  (j < fuel)%nat ->
  Qgtb 0 sleep = false ->
  (forall k, (k <= j)%nat -> nothing_new scan (disk w (i + k)) ckpt_dir last prefix) ->
  Qgtb (poll_time w (i + j) + sleep) st = true ->
  wait_loop scan fuel w i ckpt_dir last sleep (Some st) prefix = Some (inr None).
Proof.
  revert fuel i. induction j as [|j IH]; intros fuel i Hfuel Hsleep Hnone Hlate.
  - destruct fuel as [|fuel]; [lia|]. rewrite Nat.add_0_r in Hlate.
    apply wait_loop_deadline; [|done].
    specialize (Hnone 0%nat). rewrite Nat.add_0_r in Hnone. apply Hnone. lia.
  - destruct fuel as [|fuel]; [lia|]. simpl.
    pose proof (Hnone 0%nat) as H0. rewrite Nat.add_0_r in H0.
    unfold nothing_new in H0. specialize (H0 (Nat.le_0_l _)).
    destruct (latest_checkpoint_path scan (disk w i) ckpt_dir prefix)
      as [e|ckpt_path] eqn:Hlatest; [by destruct H0|].
    replace (bool_decide (ckpt_path = None \/ ckpt_path = last)) with true.
    2:{ symmetry. apply bool_decide_eq_true.
        destruct H0 as [[= ->]|[= ->]]; auto. }
    destruct (Qgtb (poll_time w i + sleep) st); [done|].
    rewrite time_sleep_nonneg by done. apply IH; [lia|done| |].
    * intros k Hk. replace (Datatypes.S i + k)%nat with (i + Datatypes.S k)%nat by lia.
      apply Hnone. lia.
    * by replace (Datatypes.S i + j)%nat with (i + Datatypes.S j)%nat by lia.
Qed.

Context {T : Type} `{Pickle T}.

End WatcherClaims.


(** ** The reserved temporary name *)

Section TemporaryName.
Context (scan : directory -> list string).
Context {T S : Type} `{Pickle T} `{Step S}.

Lemma tmp_not_removed fs ckpt_dir (target : T) (step : S) prefix keep overwrite :
  fair scan ->
  Remove (tmp_name prefix)
  ∉ trace (save_checkpoint scan ckpt_dir target step prefix keep overwrite fs).
Proof.
  intros Hscan.
  assert (prefix +:+ step_str step <> tmp_name prefix) as Hne
    by apply ckpt_name_not_tmp.
  destruct (entries fs !! (prefix +:+ step_str step)) as [old|] eqn:Hname;
    [destruct overwrite|].
  2:{ rewrite save_checkpoint_exists by (by rewrite Hname).
      simpl. rewrite !elem_of_cons, elem_of_nil. intros [?|[?|?]]; done. }
  all: rewrite save_checkpoint_renames; [|by rewrite ?Hname; intros [? ?]|done].
  all: simpl; rewrite Hname.
  all: rewrite elem_of_app; intros [Hin|Hin];
    [by destruct fs; simpl in Hin;
        repeat (apply elem_of_cons in Hin as [?|Hin]; [done|]);
        apply elem_of_nil in Hin|].
  all: simpl in Hin.
  all: repeat (apply elem_of_cons in Hin as [E|Hin]; [by simplify_eq|]).
  all: apply list_elem_of_fmap in Hin as (n & [= <-] & Hn).
  all: destruct (old_ckpts_sublist scan prefix keep
                   (renamed (entries fs) target step prefix)) as [k Hk].
  all: rewrite Hk in Hn; apply elem_of_take in Hn as (i & Hi & _).
  all: apply list_elem_of_lookup_2 in Hi.
  all: apply elem_of_checkpoint_files in Hi as [_ [v Hv]]; [|done].
  all: unfold renamed in Hv.
  all: rewrite lookup_insert_ne, lookup_delete_eq in Hv by done; done.
Qed.

Lemma tmp_not_listed fs ckpt_dir (target : T) (step : S) prefix overwrite p fs1 tr :
  fair scan ->
  save_write_and_rename ckpt_dir target step prefix overwrite fs
  = Run (inr p) fs1 tr ->
  tmp_name prefix ∉ checkpoint_files prefix (scan (entries fs1)).
Proof.
  intros Hscan Hrun Hin.
  apply elem_of_checkpoint_files in Hin as [_ [v Hv]]; [|done].
  destruct fs as [d|]; [|done].
  rewrite write_and_rename_run in Hrun.
  assert (fs1 = Some (renamed d target step prefix)) as ->.
  { destruct (d !! _); [destruct overwrite|]; by simplify_eq. }
  simpl in Hv. unfold renamed in Hv.
  rewrite lookup_insert_ne, lookup_delete_eq in Hv; [done|].
  apply ckpt_name_not_tmp.
Qed.

End TemporaryName.


Example latest_skips_tmp :
  latest_checkpoint_path scan_dom dir_with_tmp "ckpt" "checkpoint_"
  = inr (Some "ckpt/checkpoint_3").
Proof. vm_compute. reflexivity. Qed.

(** ** Save: every outcome *)

Lemma os_remove_cases (n : string) (fs : filesystem) :
  os_remove n fs = Run (inr tt) (delete n <$> fs) [Remove n]
  \/ os_remove n fs = Run (inl FileNotFoundError) fs [].
Proof.
  unfold os_remove. erewrite bind_run_ok by apply os_path_exists_run.
  rewrite after_nil. case_bool_decide; [left|right]; reflexivity.
Qed.

(** Whatever the listing, the retention step only issues removals of the
    names it was given. *)
Lemma for_each_remove_trace (l : list string) (fs : filesystem) :
  Forall (fun m => exists n, n ∈ l /\ m = Remove n)
         (trace (for_each os_remove l fs)).
Proof.
  revert fs. induction l as [|x l IH]; intros fs; simpl; [constructor|].
  destruct (os_remove_cases x fs) as [E|E].
  - erewrite bind_run_ok by exact E. simpl. constructor.
    + exists x. split; [by left|done].
    + eapply Forall_impl; [apply IH|]. intros m (n & Hn & ->).
      exists n. split; [by right|done].
  - erewrite bind_run_err by exact E. constructor.
Qed.

Lemma py_slice_to_subseteq {A : Type} (l : list A) (stop : Z) (x : A) :
  x ∈ py_slice_to l stop -> x ∈ l.
Proof.
  destruct (py_slice_to_take l stop) as [k ->]. apply subseteq_take.
Qed.

Lemma save_cleanup_trace scan (prefix : string) (keep : Z) (fs : filesystem) :
  Forall (fun m => exists n, String.prefix prefix n = true /\ m = Remove n)
         (trace (save_cleanup scan prefix keep fs)).
Proof.
  unfold save_cleanup. destruct fs as [d|].
  - erewrite bind_run_ok by reflexivity. rewrite after_nil.
    destruct (keep <? _); [|constructor].
    eapply Forall_impl; [apply for_each_remove_trace|].
    intros m (n & Hn & ->). exists n. split; [|done].
    apply py_slice_to_subseteq in Hn. unfold checkpoint_files in Hn.
    rewrite sorted_perm in Hn. apply list_elem_of_filter in Hn as [Hp _].
    by apply Is_true_true.
  - erewrite bind_run_err by reflexivity. constructor.
Qed.

Lemma prefix_false_ne (prefix n : string) :
  String.prefix prefix n = false -> forall s, prefix +:+ s <> n.
Proof. intros Hn s <-. by rewrite prefix_append in Hn. Qed.

(** X1.  A save of an object that [pickle] serializes goes wrong over
    the directory in one way only: it raises [FileExistsError] exactly
    when the target exists and [overwrite] is not set; in every other
    case, the directory missing or not, whatever [keep] is, it returns
    the path [_checkpoint_path(ckpt_dir, step, prefix)]. *)
Theorem save_outcome_by_target
    (scan : directory -> list string) {T S : Type} `{Pickle T} `{Step S}
    (fs : filesystem) (ckpt_dir : string) (target : T) (step : S)
    (prefix : string) (keep : Z) (overwrite : bool) :
  fair scan ->
  outcome (save_checkpoint scan ckpt_dir target step prefix keep overwrite fs)
  = if bool_decide (is_Some (entries fs !! (prefix +:+ step_str step)))
       && negb overwrite
    then inl FileExistsError
    else inr (_checkpoint_path ckpt_dir step prefix).
Proof.
  intros Hscan. case_bool_decide as Hex; cbn [andb].
  - destruct overwrite; cbn [negb].
    + by rewrite save_checkpoint_renames.
    + by rewrite save_checkpoint_exists.
  - rewrite save_checkpoint_renames; [done| |done]. intros ?. by destruct Hex.
Qed.

Lemma save_outcome_by_target_witness :
  outcome (save_checkpoint scan_dom "ckpt" (blob "new") 5 "checkpoint_" 1 false
             dir_old5)
  = (if bool_decide (is_Some (entries dir_old5 !! ("checkpoint_" +:+ step_str 5%Z)))
        && negb false
     then inl FileExistsError
     else inr (_checkpoint_path "ckpt" 5%Z "checkpoint_")).
Proof.
  apply (save_outcome_by_target scan_dom dir_old5 "ckpt" (blob "new") 5%Z
           "checkpoint_" 1 false).
  apply scan_dom_fair.
Defined.

(** X2.  A save never touches a file of another family: whatever the
    listing returns and however the call ends, no mutation it makes names
    a file whose name does not start with [prefix], and such a file is in
    the directory afterwards exactly as it was before. *)
Theorem save_spares_other_families
    (scan : directory -> list string) {T S : Type} `{Pickle T} `{Step S}
    (fs : filesystem) (ckpt_dir : string) (target : T) (step : S)
    (prefix : string) (keep : Z) (overwrite : bool) (n : string) :
  String.prefix prefix n = false ->
  let r := save_checkpoint scan ckpt_dir target step prefix keep overwrite fs in
  Forall (spares n) (trace r)
  /\ entries (final r) !! n = entries fs !! n.
Proof.
  intros Hn r.
  assert (Forall (spares n) (trace r)) as Hsp.
  { unfold r. rewrite save_checkpoint_split.
    unfold after. cbn [trace]. apply Forall_app. split.
    { destruct fs; repeat constructor. }
    pose proof (prefix_false_ne prefix n Hn) as Hne.
    pose proof (write_and_rename_run (entries fs) ckpt_dir target step prefix
                  overwrite) as Hrun. simpl in Hrun.
    assert (Forall (spares n)
              (trace (save_write_and_rename ckpt_dir target step prefix overwrite
                        (Some (entries fs))))) as Hw.
    { rewrite Hrun. destruct (entries fs !! _); [destruct overwrite|];
        repeat constructor; simpl; apply Hne. }
    destruct (save_write_and_rename ckpt_dir target step prefix overwrite
                (Some (entries fs))) as [[e|p] fs1 tr1] eqn:E.
    - erewrite bind_run_err by exact E. exact Hw.
    - erewrite bind_run_ok by exact E. unfold after. cbn [trace].
      apply Forall_app. split; [exact Hw|].
      pose proof (save_cleanup_trace scan prefix keep fs1) as Hc.
      destruct (save_cleanup scan prefix keep fs1) as [[e|[]] fs2 tr2] eqn:E2.
      + erewrite bind_run_err by exact E2. simpl in *.
        eapply Forall_impl; [exact Hc|]. intros m (x & Hx & ->). simpl.
        intros ->. congruence.
      + erewrite bind_run_ok by exact E2. rewrite ret_run, after_Run, app_nil_r.
        simpl in *. eapply Forall_impl; [exact Hc|]. intros m (x & Hx & ->).
        simpl. intros ->. congruence. }
  split; [done|].
  unfold r in *. rewrite (logged_save_checkpoint scan).
  by apply replay_spares.
Qed.

Lemma save_spares_other_families_witness :
  let r := save_checkpoint scan_dom "ckpt" (blob "new") 5 "checkpoint_" 1 true
             dir_two_families in
  Forall (spares "best_1") (trace r)
  /\ entries (final r) !! "best_1" = entries dir_two_families !! "best_1".
Proof.
  apply (save_spares_other_families scan_dom dir_two_families "ckpt" (blob "new")
           5%Z "checkpoint_" 1 true "best_1").
  reflexivity.
Defined.

(** ** Save: what the retention step leaves *)

Lemma entries_Some (d : directory) : entries (Some d) = d.
Proof. reflexivity. Qed.

Lemma entries_None : entries None = ∅.
Proof. reflexivity. Qed.

Lemma checkpoint_files_remove_take scan (prefix : string) (d : directory) (k : nat) :
  fair scan ->
  checkpoint_files prefix
    (scan (remove_all (take k (checkpoint_files prefix (scan d))) d))
  = drop k (checkpoint_files prefix (scan d)).
Proof.
  intros Hscan. set (files := checkpoint_files prefix (scan d)).
  pose proof (checkpoint_files_increasing scan Hscan d prefix) as Hinc.
  pose proof (NoDup_checkpoint_files scan Hscan d prefix) as Hnd.
  fold files in Hinc, Hnd.
  unfold checkpoint_files at 1. apply sorted_names_unique.
  - by apply increasing_drop.
  - apply NoDup_Permutation.
    + by apply NoDup_filter, NoDup_scan.
    + eapply sublist_NoDup; [exact Hnd|apply sublist_drop].
    + intros n. rewrite list_elem_of_filter, elem_of_scan, Is_true_true by done.
      rewrite lookup_remove_all.
      rewrite <- (take_drop k files) in Hnd.
      apply NoDup_app in Hnd as (_ & Hdisj & _).
      assert (n ∈ files <-> String.prefix prefix n = true /\ is_Some (d !! n))
        as Hfiles by (by apply elem_of_checkpoint_files).
      rewrite <- (take_drop k files), elem_of_app in Hfiles.
      destruct (decide (n ∈ take k files)) as [Hin|Hout].
      * split; [by intros [_ [? ?]]|]. intros Hn. by apply Hdisj in Hin.
      * split; [intros Hn; apply Hfiles in Hn as [?|?]; done|].
        intros Hn. apply Hfiles. by right.
Qed.

Lemma old_ckpts_positive scan (prefix : string) (keep : Z) (d : directory) :
  0 < keep ->
  old_ckpts scan prefix keep d
  = take (length (checkpoint_files prefix (scan d)) - Z.to_nat keep)
         (checkpoint_files prefix (scan d)).
Proof.
  intros Hkeep. unfold old_ckpts.
  destruct (Z.ltb_spec keep (Z.of_nat (length (checkpoint_files prefix (scan d))))).
  - by apply py_slice_to_neg.
  - replace (_ - _)%nat with 0%nat by lia. done.
Qed.

Lemma old_ckpts_nonpositive scan (prefix : string) (keep : Z) (d : directory) :
  keep <= 0 ->
  old_ckpts scan prefix keep d
  = take (Z.to_nat (- keep)) (checkpoint_files prefix (scan d)).
Proof.
  intros Hkeep. unfold old_ckpts, py_slice_to.
  destruct (Z.ltb_spec keep (Z.of_nat (length (checkpoint_files prefix (scan d))))).
  - destruct (Z.ltb_spec (- keep) 0); [lia|done].
  - destruct (checkpoint_files prefix (scan d)); [|simpl in *; lia].
    by rewrite take_nil.
Qed.

(** X3.  After a save that succeeds with [keep >= 1], the files of the
    family are the last [keep] names, in the order of characters, of those
    the directory held once the new file was in place; so at most [keep]
    of them remain, and each has the contents it had then. *)
Theorem save_retains_last_names
    (scan : directory -> list string) {T S : Type} `{Pickle T} `{Step S}
    (fs : filesystem) (ckpt_dir : string) (target : T) (step : S)
    (prefix : string) (keep : Z) (overwrite : bool) :
  fair scan ->
  0 < keep ->
  (is_Some (entries fs !! (prefix +:+ step_str step)) -> overwrite = true) ->
  let r := save_checkpoint scan ckpt_dir target step prefix keep overwrite fs in
  let placed := renamed (entries fs) target step prefix in
  checkpoint_files prefix (scan (entries (final r)))
  = lastn (Z.to_nat keep) (checkpoint_files prefix (scan placed))
  /\ (length (checkpoint_files prefix (scan (entries (final r))))
      <= Z.to_nat keep)%nat
  /\ forall n, n ∈ checkpoint_files prefix (scan (entries (final r))) ->
       entries (final r) !! n = placed !! n.
Proof.
  intros Hscan Hkeep Hov r placed.
  assert (final r
          = Some (remove_all
                    (take (length (checkpoint_files prefix (scan placed))
                           - Z.to_nat keep)
                          (checkpoint_files prefix (scan placed))) placed)) as Hfin.
  { unfold r. rewrite save_checkpoint_renames by done. cbn [final].
    by rewrite old_ckpts_positive. }
  rewrite Hfin, entries_Some.
  rewrite checkpoint_files_remove_take by done. fold (lastn (Z.to_nat keep)
    (checkpoint_files prefix (scan placed))).
  split; [done|]. split.
  - unfold lastn. rewrite length_drop. lia.
  - intros n Hn. rewrite lookup_remove_all.
    destruct (decide _) as [Hin|]; [|done].
    pose proof (NoDup_checkpoint_files scan Hscan placed prefix) as Hnd.
    rewrite <- (take_drop (length (checkpoint_files prefix (scan placed))
                           - Z.to_nat keep)
                  (checkpoint_files prefix (scan placed))) in Hnd.
    apply NoDup_app in Hnd as (_ & Hdisj & _). by apply Hdisj in Hin.
Qed.

Lemma save_retains_last_names_witness :
  let r := save_checkpoint scan_dom "ckpt" (blob "new") 9 "checkpoint_" 2 false
             dir_5_and_7 in
  let placed := renamed (entries dir_5_and_7) (blob "new") 9%Z "checkpoint_" in
  checkpoint_files "checkpoint_" (scan_dom (entries (final r)))
  = lastn (Z.to_nat 2) (checkpoint_files "checkpoint_" (scan_dom placed))
  /\ (length (checkpoint_files "checkpoint_" (scan_dom (entries (final r))))
      <= Z.to_nat 2)%nat
  /\ forall n, n ∈ checkpoint_files "checkpoint_" (scan_dom (entries (final r))) ->
       entries (final r) !! n = placed !! n.
Proof.
  apply (save_retains_last_names scan_dom dir_5_and_7 "ckpt" (blob "new") 9%Z
           "checkpoint_" 2 false).
  - apply scan_dom_fair.
  - reflexivity.
  - vm_compute. intros [? ?]. discriminate.
Defined.

(** X4.  [keep] does not count downwards to nothing.  With [keep = 0] the
    slice [checkpoint_files[:-0]] is empty and a successful save removes
    no old file at all; with a negative [keep] the slice holds the first
    [-keep] names, and these are the files removed. *)
Theorem save_keep_not_positive
    (scan : directory -> list string) {T S : Type} `{Pickle T} `{Step S}
    (fs : filesystem) (ckpt_dir : string) (target : T) (step : S)
    (prefix : string) (keep : Z) (overwrite : bool) :
  fair scan ->
  keep <= 0 ->
  (is_Some (entries fs !! (prefix +:+ step_str step)) -> overwrite = true) ->
  let r := save_checkpoint scan ckpt_dir target step prefix keep overwrite fs in
  let placed := renamed (entries fs) target step prefix in
  checkpoint_files prefix (scan (entries (final r)))
  = drop (Z.to_nat (- keep)) (checkpoint_files prefix (scan placed))
  /\ (keep = 0 -> final r = Some placed).
Proof.
  intros Hscan Hkeep Hov r placed.
  assert (final r
          = Some (remove_all
                    (take (Z.to_nat (- keep))
                          (checkpoint_files prefix (scan placed))) placed)) as Hfin.
  { unfold r. rewrite save_checkpoint_renames by done. cbn [final].
    by rewrite old_ckpts_nonpositive. }
  rewrite Hfin, entries_Some. split.
  - by apply checkpoint_files_remove_take.
  - by intros ->.
Qed.

Lemma save_keep_not_positive_witness :
  let r := save_checkpoint scan_dom "ckpt" (blob "new") 9 "checkpoint_" 0 false
             dir_5_and_7 in
  let placed := renamed (entries dir_5_and_7) (blob "new") 9%Z "checkpoint_" in
  checkpoint_files "checkpoint_" (scan_dom (entries (final r)))
  = drop (Z.to_nat (- 0)) (checkpoint_files "checkpoint_" (scan_dom placed))
  /\ (0 = 0 -> final r = Some placed).
Proof.
  apply (save_keep_not_positive scan_dom dir_5_and_7 "ckpt" (blob "new") 9%Z
           "checkpoint_" 0 false).
  - apply scan_dom_fair.
  - reflexivity.
  - vm_compute. intros [? ?]. discriminate.
Defined.

(** X5.  A temporary file left behind by an earlier save, one that was
    interrupted or that failed on an existing target, has no effect on
    the next save: the call makes the same mutations, ends the same way
    and leaves the same directory as if the stale file had not been
    there. *)
Theorem save_ignores_stale_tmp
    (scan : directory -> list string) {T S : Type} `{Pickle T} `{Step S}
    (d : directory) (stale : bytes) (ckpt_dir : string) (target : T) (step : S)
    (prefix : string) (keep : Z) (overwrite : bool) :
  save_checkpoint scan ckpt_dir target step prefix keep overwrite
    (Some (<[tmp_name prefix := stale]> d))
  = save_checkpoint scan ckpt_dir target step prefix keep overwrite (Some d).
Proof.
  assert (save_write_and_rename ckpt_dir target step prefix overwrite
            (Some (<[tmp_name prefix := stale]> d))
          = save_write_and_rename ckpt_dir target step prefix overwrite (Some d))
    as Hsame.
  { rewrite !write_and_rename_run. cbn zeta.
    rewrite lookup_insert_ne
      by (intros E; symmetry in E; by apply ckpt_name_not_tmp in E).
    unfold renamed. by rewrite delete_insert_eq, insert_insert_eq. }
  rewrite !save_checkpoint_split, !entries_Some. cbn [made].
  unfold mbind at 1 3, fsM_bind. by rewrite Hsame.
Qed.

(** X6.  A save into a directory that does not exist creates it: with
    [keep >= 0] the call makes the directory, writes the temporary file,
    renames it and removes nothing, and the directory then holds the new
    checkpoint and no other file. *)
Theorem save_into_missing_directory
    (scan : directory -> list string) {T S : Type} `{Pickle T} `{Step S}
    (ckpt_dir : string) (target : T) (step : S)
    (prefix : string) (keep : Z) (overwrite : bool) :
  fair scan ->
  0 <= keep ->
  save_checkpoint scan ckpt_dir target step prefix keep overwrite None
  = Run (inr (_checkpoint_path ckpt_dir step prefix))
        (Some {[ prefix +:+ step_str step := pickle_dumps target ]})
        [MakeDirs; Create (tmp_name prefix);
         Write (tmp_name prefix) (pickle_dumps target);
         Rename (tmp_name prefix) (prefix +:+ step_str step)].
Proof.
  intros Hscan Hkeep.
  rewrite save_checkpoint_renames; [|by intros [? ?]|done].
  rewrite entries_None. cbn [made]. rewrite lookup_empty.
  set (placed := renamed ∅ target step prefix).
  assert (placed = {[ prefix +:+ step_str step := pickle_dumps target ]}) as Hp.
  { unfold placed, renamed. by rewrite delete_empty. }
  assert (checkpoint_files prefix (scan placed) = [prefix +:+ step_str step])
    as Hfiles.
  { unfold checkpoint_files. apply sorted_names_unique; [repeat constructor|].
    apply NoDup_Permutation.
    - by apply NoDup_filter, NoDup_scan.
    - apply NoDup_singleton.
    - intros n. rewrite list_elem_of_filter, elem_of_scan, Is_true_true by done.
      rewrite Hp, list_elem_of_singleton. split.
      + intros [_ [v Hv]]. by apply lookup_singleton_Some in Hv as [-> _].
      + intros ->. split; [apply prefix_append|]. by rewrite lookup_singleton_eq. }
  assert (old_ckpts scan prefix keep placed = []) as Hold.
  { unfold old_ckpts. rewrite Hfiles.
    change (Z.of_nat (length [prefix +:+ step_str step])) with 1.
    destruct (Z.ltb_spec keep 1); [|done].
    replace keep with 0 by lia. reflexivity. }
  rewrite Hold. simpl. by rewrite Hp.
Qed.

Lemma save_into_missing_directory_witness :
  save_checkpoint scan_dom "ckpt" (blob "new") 5 "checkpoint_" 1 false None
  = Run (inr (_checkpoint_path "ckpt" 5%Z "checkpoint_"))
        (Some {[ "checkpoint_" +:+ step_str 5%Z := pickle_dumps (blob "new") ]})
        [MakeDirs; Create (tmp_name "checkpoint_");
         Write (tmp_name "checkpoint_") (pickle_dumps (blob "new"));
         Rename (tmp_name "checkpoint_") ("checkpoint_" +:+ step_str 5%Z)].
Proof.
  apply (save_into_missing_directory scan_dom "ckpt" (blob "new") 5%Z
           "checkpoint_" 1 false).
  - apply scan_dom_fair.
  - discriminate.
Defined.

(** ** Save: the same save again *)

Section SaveAgain.
Context (scan : directory -> list string) (Hscan : fair scan).
Context {T S : Type} `{Pickle T} `{Step S}.

Lemma renamed_lookup_tmp (d : directory) (target : T) (step : S) prefix :
  renamed d target step prefix !! tmp_name prefix = None.
Proof.
  unfold renamed. rewrite lookup_insert_ne by apply ckpt_name_not_tmp.
  apply lookup_delete_eq.
Qed.

Lemma renamed_lookup_name (d : directory) (target : T) (step : S) prefix :
  renamed d target step prefix !! (prefix +:+ step_str step)
  = Some (pickle_dumps target).
Proof. unfold renamed. apply lookup_insert_eq. Qed.

Lemma remove_all_nil (d : directory) : remove_all [] d = d.
Proof. done. Qed.

(** The directory a save leaves, when it is saved to again. *)
Lemma save_again_positive (d : directory) (target : T) (step : S) prefix keep :
  0 < keep ->
  let placed := renamed d target step prefix in
  let left := remove_all (old_ckpts scan prefix keep placed) placed in
  let again := renamed left target step prefix in
  remove_all (old_ckpts scan prefix keep again) again = left.
Proof.
  intros Hkeep placed left again.
  set (name := prefix +:+ step_str step).
  set (files := checkpoint_files prefix (scan placed)).
  set (m := (length files - Z.to_nat keep)%nat).
  assert (old_ckpts scan prefix keep placed = take m files) as Hold
    by (by apply old_ckpts_positive).
  assert (left = remove_all (take m files) placed) as Hleft
    by (unfold left; by rewrite Hold).
  pose proof (checkpoint_files_increasing scan Hscan placed prefix) as Hinc.
  pose proof (NoDup_checkpoint_files scan Hscan placed prefix) as Hnd.
  fold files in Hinc, Hnd.
  assert (checkpoint_files prefix (scan left) = drop m files) as Hfiles_left.
  { rewrite Hleft. by apply checkpoint_files_remove_take. }
  assert (left !! tmp_name prefix = None) as Htmp.
  { rewrite Hleft, lookup_remove_all. destruct (decide _); [done|].
    apply renamed_lookup_tmp. }
  assert (delete (tmp_name prefix) left = left) as Hdel by (by apply delete_id).
  assert (name ∈ files) as Hname.
  { apply elem_of_checkpoint_files; [done|]. split; [apply prefix_append|].
    unfold placed, name. by rewrite renamed_lookup_name. }
  destruct (decide (name ∈ take m files)) as [Hin|Hout].
  - (* the retention step of the first save removed the new file *)
    assert (left !! name = None) as Hnone.
    { rewrite Hleft, lookup_remove_all. by rewrite decide_True. }
    assert (again = <[name := pickle_dumps target]> left) as Hagain.
    { unfold again, renamed. fold name. by rewrite Hdel. }
    assert (checkpoint_files prefix (scan again) = name :: drop m files) as Hfiles.
    { unfold checkpoint_files. apply sorted_names_unique.
      - constructor; [by apply increasing_drop|].
        apply Forall_forall. intros y Hy.
        rewrite <- (take_drop m files) in Hinc.
        by eapply StronglySorted_app_1_elem_of.
      - apply NoDup_Permutation.
        + by apply NoDup_filter, NoDup_scan.
        + constructor.
          * intros Hdrop. rewrite <- (take_drop m files) in Hnd.
            apply NoDup_app in Hnd as (_ & Hdisj & _). by apply (Hdisj name).
          * eapply sublist_NoDup; [exact Hnd|apply sublist_drop].
        + intros n. rewrite list_elem_of_filter, elem_of_scan, Is_true_true by done.
          rewrite elem_of_cons, <- Hfiles_left, elem_of_checkpoint_files by done.
          rewrite Hagain. destruct (decide (n = name)) as [->|Hne].
          * rewrite lookup_insert_eq. split; [by left|].
            intros _. split; [apply prefix_append|done].
          * rewrite lookup_insert_ne by done. split; [by right|].
            by intros [?|?]. }
    assert (length (take m files) = m) as Hlen_take.
    { rewrite length_take. apply elem_of_take in Hin as (i & Hi & Him).
      apply lookup_lt_Some in Hi. lia. }
    assert (0 < m)%nat as Hm.
    { destruct m; [|lia]. rewrite take_0 in Hin. by apply elem_of_nil in Hin. }
    assert (old_ckpts scan prefix keep again = [name]) as ->.
    { rewrite old_ckpts_positive, Hfiles by done. simpl.
      rewrite length_drop. unfold m in *.
      replace (Datatypes.S (length files - (length files - Z.to_nat keep))
               - Z.to_nat keep)%nat with 1%nat by lia.
      done. }
    simpl. rewrite Hagain. by apply delete_insert_id.
  - (* the new file was kept *)
    assert (left !! name = Some (pickle_dumps target)) as Hkept.
    { rewrite Hleft, lookup_remove_all. rewrite decide_False by done.
      unfold placed, name. apply renamed_lookup_name. }
    assert (again = left) as Hagain.
    { unfold again, renamed. fold name. rewrite Hdel. by apply insert_id. }
    rewrite Hagain.
    assert (old_ckpts scan prefix keep left = []) as ->.
    { rewrite old_ckpts_positive, Hfiles_left by done.
      rewrite length_drop. unfold m.
      replace (length files - (length files - Z.to_nat keep) - Z.to_nat keep)%nat
        with 0%nat by lia.
      done. }
    done.
Qed.

Lemma save_again_zero (d : directory) (target : T) (step : S) prefix :
  let placed := renamed d target step prefix in
  old_ckpts scan prefix 0 placed = []
  /\ renamed placed target step prefix = placed.
Proof.
  intros placed. split.
  - by rewrite old_ckpts_nonpositive.
  - unfold renamed at 1. rewrite delete_id by apply renamed_lookup_tmp.
    apply insert_id, renamed_lookup_name.
Qed.
End SaveAgain.

(** X7.  The same save again changes nothing.  After a save that
    succeeded with [keep >= 0], saving the same object under the same
    step once more, now with [overwrite], succeeds and leaves the
    directory exactly as the first save left it, whether or not the
    retention step had removed the new file. *)
Theorem save_again_changes_nothing
    (scan : directory -> list string) {T S : Type} `{Pickle T} `{Step S}
    (fs : filesystem) (ckpt_dir : string) (target : T) (step : S)
    (prefix : string) (keep : Z) (overwrite : bool) :
  let first := save_checkpoint scan ckpt_dir target step prefix keep overwrite fs in
  let second :=
    save_checkpoint scan ckpt_dir target step prefix keep true (final first) in
  fair scan ->
  0 <= keep ->
  (is_Some (entries fs !! (prefix +:+ step_str step)) -> overwrite = true) ->
  outcome second = outcome first
  /\ final second = final first.
Proof.
  intros first second Hscan Hkeep Hov. unfold second, first.
  rewrite (save_checkpoint_renames scan fs) by done.
  cbn [final outcome].
  rewrite save_checkpoint_renames by done. cbn [final outcome].
  split; [done|]. rewrite entries_Some. f_equal.
  destruct (decide (keep = 0)) as [->|Hpos].
  - destruct (save_again_zero scan (entries fs) target step prefix) as [Hold Hsame].
    rewrite Hold, remove_all_nil, Hsame, Hold. done.
  - apply save_again_positive; [done|lia].
Qed.

Lemma save_again_changes_nothing_witness :
  let first := save_checkpoint scan_dom "ckpt" (blob "new") 5 "checkpoint_" 1 true
                 dir_5_and_7 in
  let second :=
    save_checkpoint scan_dom "ckpt" (blob "new") 5 "checkpoint_" 1 true
      (final first) in
  outcome second = outcome first
  /\ final second = final first.
Proof.
  apply (save_again_changes_nothing scan_dom dir_5_and_7 "ckpt" (blob "new") 5%Z
           "checkpoint_" 1 true).
  - apply scan_dom_fair.
  - discriminate.
  - reflexivity.
Defined.

(** ** The order of [float] values *)

Lemma float_compare_scaled (m1 e1 m2 e2 E : Z) :
  E <= e1 -> E <= e2 ->
  Float.compare (Float.Finite m1 e1) (Float.Finite m2 e2)
  = (m1 * 2 ^ (e1 - E) ?= m2 * 2 ^ (e2 - E)).
Proof.
  intros H1 H2. cbn [Float.compare]. set (e := Z.min e1 e2).
  assert (E <= e) as He by (unfold e; lia).
  assert (e <= e1 /\ e <= e2) as [He1 He2] by (unfold e; lia).
  replace (e1 - E) with ((e1 - e) + (e - E)) by lia.
  replace (e2 - E) with ((e2 - e) + (e - E)) by lia.
  rewrite !Z.pow_add_r, !Z.mul_assoc by lia.
  apply Zmult_compare_compat_r.
  apply Z.lt_gt, Z.pow_pos_nonneg; lia.
Qed.

Lemma float_compare_antisym (x y : Float.t) :
  Float.compare y x = CompOpp (Float.compare x y).
Proof.
  destruct x as [m1 e1|[]], y as [m2 e2|[]]; try reflexivity.
  cbn [Float.compare]. rewrite (Z.min_comm e2 e1). apply Z.compare_antisym.
Qed.

Lemma float_compare_trans (x y z : Float.t) (c : comparison) :
  Float.compare x y = c -> Float.compare y z = c -> Float.compare x z = c.
Proof.
  destruct x as [m1 e1|[]], y as [m2 e2|[]], z as [m3 e3|[]];
    try (simpl; congruence).
  set (E := Z.min (Z.min e1 e2) e3).
  rewrite (float_compare_scaled m1 e1 m2 e2 E) by (unfold E; lia).
  rewrite (float_compare_scaled m2 e2 m3 e3 E) by (unfold E; lia).
  rewrite (float_compare_scaled m1 e1 m3 e3 E) by (unfold E; lia).
  destruct c; rewrite ?Z.compare_eq_iff, ?Z.compare_lt_iff, ?Z.compare_gt_iff; lia.
Qed.

Lemma float_compare_eq_l (x y z : Float.t) :
  Float.compare x y = Eq -> Float.compare x z = Float.compare y z.
Proof.
  destruct x as [m1 e1|[]], y as [m2 e2|[]], z as [m3 e3|[]];
    try (simpl; congruence).
  set (E := Z.min (Z.min e1 e2) e3).
  rewrite (float_compare_scaled m1 e1 m2 e2 E) by (unfold E; lia).
  rewrite (float_compare_scaled m2 e2 m3 e3 E) by (unfold E; lia).
  rewrite (float_compare_scaled m1 e1 m3 e3 E) by (unfold E; lia).
  by intros ->%Z.compare_eq_iff.
Qed.

(** ** The order of keys *)

Lemma string_compare_trans (a b c : string) (r : comparison) :
  String.compare a b = r -> String.compare b c = r -> String.compare a c = r.
Proof.
  destruct r.
  - intros ->%String.compare_eq_iff. done.
  - rewrite !compare_as_OT. intros Hab Hbc.
    apply (transitivity (R := String_as_OT.lt) Hab Hbc).
  - rewrite (String.compare_antisym a b), (String.compare_antisym b c),
      (String.compare_antisym a c), !CompOpp_iff. simpl.
    rewrite !compare_as_OT. intros Hba Hcb.
    apply (transitivity (R := String_as_OT.lt) Hcb Hba).
Qed.

Lemma string_compare_refl (a : string) : String.compare a a = Eq.
Proof.
  destruct (String.compare a a) eqn:E; [done| |].
  - exfalso. apply (irreflexivity str_lt a). unfold str_lt, String.ltb. by rewrite E.
  - exfalso. apply (irreflexivity str_lt a). unfold str_lt, String.ltb.
    rewrite String.compare_antisym, E. done.
Qed.

Lemma token_compare_antisym (x y : token) :
  token_compare y x = CompOpp (token_compare x y).
Proof.
  destruct x as [a|a], y as [b|b]; simpl; try done.
  - apply String.compare_antisym.
  - apply float_compare_antisym.
Qed.

Lemma token_compare_trans (x y z : token) (c : comparison) :
  token_compare x y = c -> token_compare y z = c -> token_compare x z = c.
Proof.
  destruct x as [a|a], y as [b|b], z as [d|d]; simpl; try congruence.
  - apply string_compare_trans.
  - apply float_compare_trans.
Qed.

Lemma token_compare_eq_l (x y z : token) :
  token_compare x y = Eq -> token_compare x z = token_compare y z.
Proof.
  destruct x as [a|a], y as [b|b], z as [d|d]; simpl; try congruence.
  - by intros ->%String.compare_eq_iff.
  - apply float_compare_eq_l.
Qed.

Lemma token_compare_eq_r (x y z : token) :
  token_compare y z = Eq -> token_compare x y = token_compare x z.
Proof.
  intros Hyz. rewrite (token_compare_antisym y x), (token_compare_antisym z x).
  f_equal. symmetry. apply token_compare_eq_l.
  by rewrite token_compare_antisym, Hyz.
Qed.

Lemma key_compare_antisym (a b : list token) :
  key_compare b a = CompOpp (key_compare a b).
Proof.
  revert b. induction a as [|x a IH]; intros [|y b]; simpl; try done.
  rewrite (token_compare_antisym x y).
  destruct (token_compare x y); simpl; auto.
Qed.

Lemma key_compare_eq_l (a b c : list token) :
  key_compare a b = Eq -> key_compare a c = key_compare b c.
Proof.
  revert b c. induction a as [|x a IH]; intros [|y b] [|z c]; simpl; try done.
  destruct (token_compare x y) eqn:Exy; try done.
  intros Hab. rewrite (token_compare_eq_l x y z Exy).
  destruct (token_compare y z); auto.
Qed.

Lemma key_compare_trans (a b c : list token) (r : comparison) :
  key_compare a b = r -> key_compare b c = r -> key_compare a c = r.
Proof.
  revert b c. induction a as [|x a IH]; intros [|y b] [|z c]; simpl;
    try congruence.
  destruct (token_compare x y) eqn:Exy.
  - rewrite (token_compare_eq_l x y z Exy).
    destruct (token_compare y z); eauto.
  - intros <-. destruct (token_compare y z) eqn:Eyz.
    + intros _. by rewrite <- (token_compare_eq_r x y z Eyz), Exy.
    + intros _. by rewrite (token_compare_trans x y z Lt).
    + done.
  - intros <-. destruct (token_compare y z) eqn:Eyz.
    + intros _. by rewrite <- (token_compare_eq_r x y z Eyz), Exy.
    + done.
    + intros _. by rewrite (token_compare_trans x y z Gt).
Qed.

(** On keys of one shape [<] is the comparison [key_compare]. *)
Lemma key_ltb_compare (text : bool) (a b : list token) :
  takes_turns text a -> takes_turns text b ->
  key_ltb a b = match key_compare a b with Lt => true | _ => false end.
Proof.
  revert text b. induction a as [|x a IH]; intros text [|y b] Ha Hb; try done.
  unfold key_ltb. cbn [key_lt key_compare].
  destruct x as [s|u], y as [t|v]; simpl in Ha, Hb;
    try (destruct Ha as [-> _], Hb as [? _]; done);
    try (destruct Ha as [? _], Hb as [-> _]; done).
  - destruct Ha as [_ Ha], Hb as [_ Hb]. simpl.
    destruct (String.eqb_spec s t) as [->|Hne].
    + rewrite string_compare_refl. by apply (IH false).
    + unfold String.ltb. destruct (String.compare s t) eqn:E; try done.
      by apply String.compare_eq_iff in E.
  - destruct Ha as (_ & _ & Ha), Hb as (_ & _ & Hb). simpl.
    unfold Float.eqb, Float.ltb.
    destruct (Float.compare u v); try done. by apply (IH true).
Qed.

Lemma key_ltb_asym (text : bool) (a b : list token) :
  takes_turns text a -> takes_turns text b ->
  key_ltb a b = true -> key_ltb b a = false.
Proof.
  intros Ha Hb. rewrite (key_ltb_compare text a b), (key_ltb_compare text b a)
    by done.
  rewrite (key_compare_antisym a b). by destruct (key_compare a b).
Qed.

(** If [a] is not after [b] and [b] is not after [c], then [a] is not
    after [c]. *)
Lemma key_ltb_not_after_trans (text : bool) (a b c : list token) :
  takes_turns text a -> takes_turns text b -> takes_turns text c ->
  key_ltb b a = false -> key_ltb c b = false -> key_ltb c a = false.
Proof.
  intros Ha Hb Hc.
  rewrite (key_ltb_compare text b a), (key_ltb_compare text c b),
    (key_ltb_compare text c a) by done.
  destruct (key_compare b a) eqn:Eba; try done; intros _.
  - apply key_compare_eq_l with (c := c) in Eba.
    rewrite (key_compare_antisym b c), (key_compare_antisym a c), Eba.
    done.
  - destruct (key_compare c b) eqn:Ecb; try done; intros _.
    + by rewrite (key_compare_eq_l c b a Ecb), Eba.
    + by rewrite (key_compare_trans c b a Gt).
Qed.

(** ** Stable sorting by a comparison *)

Section SortedOn.
Context {A : Type} (lt : A -> A -> bool) (P : A -> Prop).
Hypothesis lt_asym : forall x y, P x -> P y -> lt x y = true -> lt y x = false.
Hypothesis lt_trans : forall x y z, P x -> P y -> P z ->
  lt y x = false -> lt z y = false -> lt z x = false.

Lemma insert_sorted_strongly x l :
  P x -> Forall P l ->
  StronglySorted (not_after lt) l ->
  StronglySorted (not_after lt) (insert_sorted lt x l).
Proof.
  intros Hx Hl Hs. induction Hs as [|y l Hs IH Hy]; simpl.
  - by repeat constructor.
  - apply Forall_cons in Hl as [Py Pl].
    destruct (lt y x) eqn:E.
    + constructor; [by apply IH|].
      rewrite insert_sorted_perm. constructor; [|done].
      by apply lt_asym.
    + constructor; [by constructor|]. constructor; [done|].
      rewrite Forall_forall in Hy, Pl |- *. intros z Hz.
      apply (lt_trans x y z); auto. by apply Hy.
Qed.

Lemma sorted_strongly l :
  Forall P l -> StronglySorted (not_after lt) (sorted lt l).
Proof.
  induction 1 as [|x l Hx Hl IH]; simpl; [constructor|].
  apply insert_sorted_strongly; [done| |done]. by rewrite sorted_perm.
Qed.
End SortedOn.

(** A list in order is left as it is. *)
Lemma sorted_in_order {A : Type} (lt : A -> A -> bool) (l : list A) :
  StronglySorted (not_after lt) l -> sorted lt l = l.
Proof.
  induction 1 as [|x l Hs IH Hx]; simpl; [done|].
  rewrite IH. destruct l as [|y l]; [done|]. simpl.
  apply Forall_cons in Hx as [Hxy _]. unfold not_after in Hxy. by rewrite Hxy.
Qed.

(** Elements of one class, no two of which compare as smaller, keep
    their order. *)
Lemma insert_sorted_stable {A : Type} (lt : A -> A -> bool) (E : A -> Prop)
    `{!forall x, Decision (E x)} (x : A) (l : list A) :
  (forall a b, E a -> E b -> lt a b = false) ->
  filter E (insert_sorted lt x l) = filter E (x :: l).
Proof.
  intros Hclass. induction l as [|y l IH]; simpl; [done|].
  destruct (lt y x) eqn:Hyx; [|done].
  rewrite filter_cons, IH, !filter_cons.
  destruct (decide (E y)) as [Ey|]; [|done].
  destruct (decide (E x)) as [Ex|]; [|done].
  by rewrite (Hclass y x) in Hyx.
Qed.

Lemma sorted_stable {A : Type} (lt : A -> A -> bool) (E : A -> Prop)
    `{!forall x, Decision (E x)} (l : list A) :
  (forall a b, E a -> E b -> lt a b = false) ->
  filter E (sorted lt l) = filter E l.
Proof.
  intros Hclass. induction l as [|x l IH]; simpl; [done|].
  rewrite insert_sorted_stable, !filter_cons, IH by done. done.
Qed.

(** ** Natural sort: the order of the result *)

Lemma split_keys_the_key (signed : bool) (s : string) :
  split_keys signed s = inr (the_key signed s).
Proof. unfold the_key. by destruct (split_keys_total signed s) as (k & -> & _). Qed.

Lemma the_key_alternating (signed : bool) (s : string) :
  alternating (the_key signed s).
Proof. unfold the_key. by destruct (split_keys_total signed s) as (k & -> & ?). Qed.

Lemma key_le_the_key (signed : bool) (a b : string) :
  key_le signed a b <-> key_ltb (the_key signed b) (the_key signed a) = false.
Proof.
  unfold key_le. rewrite !split_keys_the_key. simpl.
  rewrite (key_lt_takes_turns true) by apply the_key_alternating.
  split; [by intros [= ->]|by intros ->].
Qed.

Lemma float_compare_refl (x : Float.t) : Float.compare x x = Eq.
Proof. destruct x as [m e|[]]; simpl; [apply Z.compare_refl|done..]. Qed.

Lemma key_ltb_irrefl (k : list token) : key_ltb k k = false.
Proof.
  unfold key_ltb. induction k as [|x k IH]; [done|]. cbn [key_lt].
  destruct x as [s|v]; simpl.
  - by rewrite String.eqb_refl.
  - unfold Float.eqb. by rewrite float_compare_refl.
Qed.

(** The sort of [natural_sort]: pairs of a key and a name, compared by
    key. *)
Lemma natural_sort_keyed (l : list string) (signed : bool) :
  let keyed := (fun s => (the_key signed s, s)) <$> l in
  let ordered := sorted (fun a b => key_ltb a.1 b.1) keyed in
  natural_sort l signed = inr ordered.*2
  /\ Forall (fun p => p.1 = the_key signed p.2) ordered
  /\ StronglySorted (not_after (fun a b => key_ltb a.1 b.1)) ordered.
Proof.
  intros keyed ordered. split; [apply natural_sort_total|].
  assert (Forall (fun p : list token * string => p.1 = the_key signed p.2) keyed)
    as Hkeyed.
  { apply Forall_fmap, Forall_forall. by intros s _. }
  split.
  - unfold ordered. by rewrite sorted_perm.
  - apply (sorted_strongly _ (fun p => p.1 = the_key signed p.2)); [| |done].
    + intros x y Hx Hy. apply (key_ltb_asym true).
      * rewrite Hx. apply the_key_alternating.
      * rewrite Hy. apply the_key_alternating.
    + intros x y z Hx Hy Hz. apply (key_ltb_not_after_trans true).
      * rewrite Hx. apply the_key_alternating.
      * rewrite Hy. apply the_key_alternating.
      * rewrite Hz. apply the_key_alternating.
Qed.

Lemma StronglySorted_fmap_on {A B : Type} (R : relation A) (R' : relation B)
    (f : A -> B) (P : A -> Prop) (l : list A) :
  Forall P l ->
  (forall x y, P x -> P y -> R x y -> R' (f x) (f y)) ->
  StronglySorted R l -> StronglySorted R' (f <$> l).
Proof.
  intros Hl Himp Hs. induction Hs as [|x l Hs IH Hx]; simpl; [constructor|].
  apply Forall_cons in Hl as [Px Pl]. constructor; [by apply IH|].
  apply Forall_fmap. rewrite Forall_forall in Hx, Pl |- *.
  intros y Hy. simpl. apply Himp; auto.
Qed.

Lemma natural_sort_sorted (l : list string) (signed : bool) :
  exists l',
    natural_sort l signed = inr l'
    /\ l' ≡ₚ l
    /\ StronglySorted (key_le signed) l'.
Proof.
  destruct (natural_sort_keyed l signed) as (Hrun & Hkeys & Hsorted).
  eexists. split; [exact Hrun|]. split.
  - rewrite sorted_perm, <- list_fmap_compose. simpl. by rewrite list_fmap_id.
  - eapply StronglySorted_fmap_on; [exact Hkeys| |exact Hsorted].
    intros x y Hx Hy Hxy. apply key_le_the_key.
    unfold not_after in Hxy. by rewrite <- Hx, <- Hy.
Qed.

Lemma StronglySorted_lookup_lt {A : Type} (R : relation A) (l : list A)
    (i j : nat) (a b : A) :
  StronglySorted R l -> (i < j)%nat ->
  l !! i = Some a -> l !! j = Some b -> R a b.
Proof.
  intros Hs Hij Ha Hb. rewrite <- (take_drop j l) in Hs.
  eapply StronglySorted_app_1_elem_of; [exact Hs| |].
  - apply list_elem_of_lookup. exists i. by rewrite lookup_take_lt.
  - apply list_elem_of_lookup. exists 0%nat. by rewrite lookup_drop, Nat.add_0_r.
Qed.

(** X8.  [natural_sort] is a sort: for every list of names and both
    settings of [signed] it raises nothing (no [float] fails, no text is
    ever compared with a number), it returns a rearrangement of its
    input, and in the result no name has a key greater than the key of a
    name after it. *)
Theorem natural_sort_orders_by_key (l : list string) (signed : bool) :
  exists l',
    natural_sort l signed = inr l'
    /\ l' ≡ₚ l
    /\ forall (i j : nat) (a b : string),
         (i < j)%nat -> l' !! i = Some a -> l' !! j = Some b ->
         (ka ← split_keys signed a; kb ← split_keys signed b; key_lt kb ka)
         = inr false.
Proof.
  destruct (natural_sort_sorted l signed) as (l' & Hrun & Hperm & Hsorted).
  exists l'. split; [done|]. split; [done|].
  intros i j a b Hij Ha Hb.
  by apply (StronglySorted_lookup_lt (key_le signed) l' i j).
Qed.

Lemma filter_keyed (signed : bool) (k0 : list token)
    (l : list (list token * string)) :
  Forall (fun p => p.1 = the_key signed p.2) l ->
  filter (fun s => split_keys signed s = inr k0) l.*2
  = (filter (fun p => p.1 = k0) l).*2.
Proof.
  induction 1 as [|[k s] l Hk Hl IH]; [done|]. simpl in Hk. subst k.
  rewrite fmap_cons, !filter_cons, IH. simpl.
  rewrite split_keys_the_key.
  destruct (decide (the_key signed s = k0)) as [->|Hne].
  - by rewrite decide_True.
  - rewrite decide_False; [done|]. by intros [= ?].
Qed.

(** X9.  [natural_sort] is stable: the names that have one and the same
    key, such as names that differ in leading zeros of a number only,
    come out in the order in which they went in. *)
Theorem natural_sort_stable (l l' : list string) (signed : bool)
    (k0 : list token) :
  natural_sort l signed = inr l' ->
  filter (fun s => split_keys signed s = inr k0) l'
  = filter (fun s => split_keys signed s = inr k0) l.
Proof.
  destruct (natural_sort_keyed l signed) as (Hrun & Hkeys & _).
  rewrite Hrun. intros [= <-].
  rewrite (filter_keyed signed k0) by done.
  rewrite (sorted_stable _ (fun p => p.1 = k0)).
  - rewrite <- (filter_keyed signed k0).
    + rewrite <- list_fmap_compose. simpl. by rewrite list_fmap_id.
    + apply Forall_fmap, Forall_forall. by intros s _.
  - intros a b -> ->. apply key_ltb_irrefl.
Qed.

Lemma natural_sort_stable_witness :
  filter (fun s => split_keys true s
                   = inr [TStr "f"; TNum (Float.round 7 1); TStr ""])
         ["f1"; "f7"; "f007"]
  = filter (fun s => split_keys true s
                     = inr [TStr "f"; TNum (Float.round 7 1); TStr ""])
           ["f7"; "f1"; "f007"].
Proof.
  apply (natural_sort_stable ["f7"; "f1"; "f007"] ["f1"; "f7"; "f007"] true).
  vm_compute. reflexivity.
Defined.

(** X10.  Sorting a second time changes nothing: the result of
    [natural_sort] is a list that [natural_sort] returns as it is. *)
Theorem natural_sort_idempotent (l l' : list string) (signed : bool) :
  natural_sort l signed = inr l' ->
  natural_sort l' signed = inr l'.
Proof.
  destruct (natural_sort_keyed l signed) as (Hrun & Hkeys & Hsorted).
  rewrite Hrun. intros [= <-]. rewrite natural_sort_total.
  set (ordered := sorted _ _) in *.
  assert ((fun s => (the_key signed s, s)) <$> ordered.*2 = ordered) as ->.
  { rewrite <- list_fmap_compose. clear Hsorted Hrun.
    induction Hkeys as [|[k s] m Hk Hm IH]; [done|].
    rewrite fmap_cons, IH. simpl in *. by rewrite Hk. }
  by rewrite sorted_in_order.
Qed.

Lemma natural_sort_idempotent_witness :
  natural_sort ["file_1"; "file_2"; "file_10"] true
  = inr ["file_1"; "file_2"; "file_10"].
Proof.
  apply (natural_sort_idempotent ["file_10"; "file_2"; "file_1"]).
  vm_compute. reflexivity.
Defined.

(** ** Natural sort: integer steps *)

Lemma digits_val_app (a b : string) (acc : Z) :
  digits_val acc (a +:+ b) = digits_val (digits_val acc a) b.
Proof.
  revert acc. induction a as [|c a IH]; intros acc; [done|].
  rewrite (append_cons c). simpl. apply IH.
Qed.

Lemma pretty_N_char_digit (x : N) :
  (x < 10)%N ->
  Re.is_digit (pretty_N_char x) = true /\ digit_val (pretty_N_char x) = Z.of_N x.
Proof.
  intros Hx.
  assert (x ∈ [0; 1; 2; 3; 4; 5; 6; 7; 8; 9]%N) as Hin.
  { rewrite !elem_of_cons. lia. }
  repeat (apply elem_of_cons in Hin as [->|Hin]; [by vm_compute|]).
  by apply elem_of_nil in Hin.
Qed.

(** The decimal rendering of a natural number: digits that denote it. *)
Lemma pretty_N_go_digits (x : N) (s : string) :
  exists d,
    pretty_N_go x s = d +:+ s
    /\ all_digits d = true
    /\ digits_val 0 d = Z.of_N x
    /\ ((0 < x)%N -> d <> EmptyString).
Proof.
  revert s. induction (N.lt_wf_0 x) as [x _ IH]. intros s.
  destruct (decide (x = 0%N)) as [->|Hx].
  - exists EmptyString. rewrite pretty_N_go_0.
    split; [done|]. split; [done|]. split; [done|lia].
  - rewrite pretty_N_go_step by lia.
    destruct (IH (x `div` 10)%N) with (s := String (pretty_N_char (x `mod` 10)) s)
      as (d & -> & Hd & Hval & _).
    { apply N.div_lt; lia. }
    destruct (pretty_N_char_digit (x `mod` 10)) as [Hc Hcv].
    { apply N.mod_lt. lia. }
    exists (d +:+ String (pretty_N_char (x `mod` 10)) EmptyString).
    split; [by rewrite append_assoc|]. split; [|split].
    + apply all_digits_app; [done|]. simpl. by rewrite Hc.
    + rewrite digits_val_app, Hval. simpl. rewrite Hcv.
      pose proof (N.div_mod x 10). lia.
    + intros _. destruct d; done.
Qed.

Lemma pretty_N_digits (x : N) :
  all_digits (pretty x) = true
  /\ pretty x <> EmptyString
  /\ digits_val 0 (pretty x) = Z.of_N x.
Proof.
  unfold pretty, pretty_N. destruct (decide (x = 0%N)) as [->|Hx]; [done|].
  destruct (pretty_N_go_digits x EmptyString) as (d & -> & Hd & Hval & Hne).
  rewrite append_nil_r. split; [done|]. split; [|done]. apply Hne. lia.
Qed.

Lemma pretty_Z_nonneg (z : Z) :
  0 <= z -> pretty z = pretty (Z.to_N z).
Proof. destruct z as [|p|p]; [done|done|lia]. Qed.

Lemma pretty_Z_neg (z : Z) :
  z < 0 -> pretty z = String "-" (pretty (Z.to_N (- z))).
Proof. destruct z as [|p|p]; [lia|lia|done]. Qed.

(** The key of a name that ends in the rendering of an integer. *)
Lemma split_keys_int (signed : bool) (q : string) (z : Z) :
  plain q = true ->
  split_keys signed (q +:+ pretty z)
  = inr [TStr q; TNum (float_of_int (if signed then z else Z.abs z));
         TStr EmptyString].
Proof.
  intros Hq. unfold float_of_int. destruct (Z.ltb_spec z 0) as [Hneg|Hpos].
  - rewrite pretty_Z_neg by done.
    destruct (pretty_N_digits (Z.to_N (- z))) as (Hd & Hne & Hval).
    rewrite split_keys_signed_integer by done.
    unfold integer_val. rewrite Hval, Z2N.id by lia.
    destruct signed; simpl.
    + destruct (Z.ltb_spec z 0); [done|lia].
    + destruct (Z.ltb_spec (Z.abs z) 0); [lia|]. f_equal. f_equal. f_equal.
      f_equal. f_equal. lia.
  - rewrite pretty_Z_nonneg by done.
    destruct (pretty_N_digits (Z.to_N z)) as (Hd & Hne & Hval).
    rewrite split_keys_integer by done.
    unfold integer_val. rewrite Hval, Z2N.id by lia. simpl.
    replace (if signed then z else Z.abs z) with z by (destruct signed; lia).
    destruct (Z.ltb_spec z 0); [lia|done].
Qed.

(** Below [2^53] the conversion of an integer to [float] is exact. *)
Lemma round_exact (n : Z) :
  0 <= n < 2 ^ 53 ->
  exists m e, Float.round n 1 = Float.Finite m e /\ e <= 0 /\ m = n * 2 ^ (- e).
Proof.
  intros [Hn Hlt]. destruct (decide (n = 0)) as [->|Hnz].
  { exists 0, 0. by vm_compute. }
  assert (0 < n) as Hpos by lia.
  pose proof (Z.log2_spec n Hpos) as [Hlo Hhi].
  assert (0 <= Z.log2 n) as Hl0 by apply Z.log2_nonneg.
  assert (Z.log2 n < 53) as Hl53 by (apply Z.log2_lt_pow2; lia).
  unfold Float.round. destruct (Z.eqb_spec n 0) as [|_]; [done|].
  change (Z.log2 1) with 0. rewrite Z.sub_0_r.
  assert (Float.ge_pow2 n 1 (Z.log2 n) = true) as ->.
  { unfold Float.ge_pow2. destruct (Z.leb_spec 0 (Z.log2 n)); [|lia].
    apply Z.leb_le. lia. }
  rewrite Z.max_l by lia.
  set (ex := Z.log2 n - 52).
  assert (ex <= 0) as Hex by (unfold ex; lia).
  exists (n * 2 ^ (- ex)), ex.
  assert ((if 0 <=? ex then n else n * 2 ^ (- ex)) = n * 2 ^ (- ex)) as ->.
  { destruct (Z.leb_spec 0 ex); [|done].
    replace ex with 0 by lia. simpl. lia. }
  assert ((if 0 <=? ex then 1 * 2 ^ ex else 1) = 1) as ->.
  { destruct (Z.leb_spec 0 ex); [|done]. replace ex with 0 by lia. done. }
  rewrite Z.div_1_r, Z.mod_1_r, Z.mul_0_r.
  change (1 <? 0) with false. change (0 =? 1) with false. cbn [orb andb].
  assert (Z.log2 (n * 2 ^ (- ex)) = 52) as Hlog.
  { rewrite Z.log2_mul_pow2 by lia. unfold ex. lia. }
  rewrite Hlog.
  destruct (Z.leb_spec 1024 (52 + ex)); [unfold ex in *; lia|].
  rewrite andb_false_r. done.
Qed.

Lemma float_of_int_exact (z : Z) :
  Z.abs z < 2 ^ 53 ->
  exists m e, float_of_int z = Float.Finite m e /\ e <= 0 /\ m = z * 2 ^ (- e).
Proof.
  intros Hz. unfold float_of_int. destruct (Z.ltb_spec z 0).
  - destruct (round_exact (- z)) as (m & e & -> & He & ->); [lia|].
    exists (- (- z * 2 ^ (- e))), e. repeat split; [done|lia].
  - destruct (round_exact z) as (m & e & -> & He & ->); [lia|].
    by exists (z * 2 ^ (- e)), e.
Qed.

Lemma float_of_int_compare (z1 z2 : Z) :
  Z.abs z1 < 2 ^ 53 -> Z.abs z2 < 2 ^ 53 ->
  Float.compare (float_of_int z1) (float_of_int z2) = (z1 ?= z2).
Proof.
  intros H1 H2.
  destruct (float_of_int_exact z1 H1) as (m1 & e1 & -> & He1 & ->).
  destruct (float_of_int_exact z2 H2) as (m2 & e2 & -> & He2 & ->).
  rewrite (float_compare_scaled _ e1 _ e2 (Z.min e1 e2)) by lia.
  rewrite <- !Z.mul_assoc, <- !Z.pow_add_r by lia.
  replace (- e1 + (e1 - Z.min e1 e2)) with (- Z.min e1 e2) by lia.
  replace (- e2 + (e2 - Z.min e1 e2)) with (- Z.min e1 e2) by lia.
  symmetry. apply Zmult_compare_compat_r.
  apply Z.lt_gt, Z.pow_pos_nonneg; lia.
Qed.

Lemma key_lt_int_names (signed : bool) (q : string) (z1 z2 : Z) :
  plain q = true ->
  Z.abs z1 < 2 ^ 53 -> Z.abs z2 < 2 ^ 53 ->
  (k1 ← split_keys signed (q +:+ pretty z1);
   k2 ← split_keys signed (q +:+ pretty z2); key_lt k1 k2)
  = inr (if signed then z1 <? z2 else Z.abs z1 <? Z.abs z2).
Proof.
  intros Hq H1 H2. rewrite !split_keys_int by done.
  cbn [mbind result_bind key_lt token_eqb token_lt]. rewrite String.eqb_refl.
  unfold Float.eqb, Float.ltb.
  rewrite float_of_int_compare by (destruct signed; lia).
  rewrite String.eqb_refl. cbn [key_lt].
  unfold Z.ltb. destruct signed; by destruct (_ ?= _).
Qed.

(** ** Paths *)

Lemma prefix_slash_append (p s : string) :
  p <> EmptyString -> String.prefix "/" (p +:+ s) = String.prefix "/" p.
Proof.
  intros Hp. destruct p as [|c p]; [done|]. rewrite append_cons.
  cbn [String.prefix].
  destruct (ascii_dec "/" c); [|done]. by destruct (p +:+ s), p.
Qed.

(** A path is the directory part followed by the name. *)
Lemma path_join_append (a p s : string) :
  (p = EmptyString -> String.prefix "/" s = false) ->
  path_join a (p +:+ s) = path_join a p +:+ s.
Proof.
  intros Hs. unfold path_join. destruct p as [|c p].
  - rewrite append_nil_l, Hs by done. cbn [String.prefix].
    destruct (_ || _); by norm_append.
  - rewrite prefix_slash_append by done.
    destruct (String.prefix "/" (String c p)); [done|].
    destruct (_ || _); by norm_append.
Qed.

Lemma pretty_Z_head (z : Z) :
  exists c r, pretty z = String c r /\ (Re.is_digit c = true \/ c = "-"%char).
Proof.
  destruct (Z.ltb_spec z 0).
  - rewrite pretty_Z_neg by done. eauto.
  - rewrite pretty_Z_nonneg by done.
    destruct (pretty_N_digits (Z.to_N z)) as (Hd & Hne & _).
    destruct (pretty (Z.to_N z)) as [|c r]; [done|].
    simpl in Hd. apply andb_true_iff in Hd as [Hc _]. eauto.
Qed.

Lemma pretty_Z_no_slash (z : Z) : String.prefix "/" (pretty z) = false.
Proof.
  destruct (pretty_Z_head z) as (c & r & -> & [Hc| ->]); [|done].
  cbn [String.prefix]. destruct (ascii_dec "/" c) as [<-|]; [done|done].
Qed.

Lemma checkpoint_path_int (ckpt_dir prefix : string) (z : Z) :
  _checkpoint_path ckpt_dir z prefix = path_join ckpt_dir prefix +:+ pretty z.
Proof.
  unfold _checkpoint_path. apply path_join_append. intros _.
  apply pretty_Z_no_slash.
Qed.



(** ** Natural sort: the pieces and the keys *)

Lemma takes_turns_length (text : bool) (k : list token) :
  takes_turns text k ->
  exists n, length k = if text then Datatypes.S (2 * n) else (2 * n)%nat.
Proof.
  revert text. induction k as [|x k IH]; intros text; simpl.
  - intros ->. by exists 0%nat.
  - destruct x as [s|v].
    + intros [-> Hk]. destruct (IH false Hk) as [n Hn]. exists n. by rewrite Hn.
    + intros (-> & _ & Hk). destruct (IH true Hk) as [n Hn].
      exists (Datatypes.S n). rewrite Hn. lia.
Qed.

(** X12.  In the key of every name texts and numbers take turns, from a
    first text to a last text, either of which may be empty; a key has an
    odd number of elements.  So a comparison of two keys compares text
    with text and number with number, and never raises [TypeError]. *)
Theorem keys_take_turns (signed : bool) (s1 s2 : string) :
  exists k1 k2 b,
    split_keys signed s1 = inr k1
    /\ split_keys signed s2 = inr k2
    /\ alternating k1
    /\ (exists n, length k1 = Datatypes.S (2 * n))
    /\ key_lt k1 k2 = inr b.
Proof.
  destruct (split_keys_total signed s1) as (k1 & H1 & A1).
  destruct (split_keys_total signed s2) as (k2 & H2 & A2).
  exists k1, k2, (key_ltb k1 k2). repeat split; try done.
  - by apply (takes_turns_length true).
  - by apply (key_lt_takes_turns true).
Qed.

Lemma concat_foldr (l : list string) :
  String.concat "" l = foldr String.append EmptyString l.
Proof.
  induction l as [|x l IH]; [done|]. destruct l as [|y l].
  - simpl. by rewrite append_nil_r.
  - change (String.concat "" (x :: y :: l))
      with (x +:+ "" +:+ String.concat "" (y :: l)).
    by rewrite IH, append_nil_l.
Qed.

Lemma text_nonempty (n : Re.numeral) :
  wf_numeral n -> exists c t, Re.text n = String c t.
Proof.
  intros Hwf. pose proof (unsigned_text_head n Hwf) as Hhead.
  unfold Re.text. destruct (Re.unsigned_text n) as [|c u]; [done|].
  destruct (Re.n_sign n) as [|c' sg]; [by exists c, u|].
  rewrite append_cons. eauto.
Qed.

Lemma append_eq_nil (a b : string) :
  a +:+ b = EmptyString -> a = EmptyString /\ b = EmptyString.
Proof. destruct a; [done|]. by rewrite append_cons. Qed.

Lemma split_go_join (s : string) (skip : nat) (acc pre rest : string) :
  s = pre +:+ rest -> String.length pre = skip ->
  foldr String.append EmptyString (Re.split_go true skip acc s)
  = String.rev acc +:+ rest.
Proof.
  revert skip acc pre rest.
  induction s as [|c s IH]; intros skip acc pre rest Hs Hlen.
  - symmetry in Hs. apply append_eq_nil in Hs as [-> ->]. simpl.
    by rewrite append_nil_r.
  - destruct skip as [|k].
    + destruct pre; [|done]. rewrite append_nil_l in Hs. subst rest.
      cbn [Re.split_go].
      destruct (Re.match_at (String c s)) as [[n r]|] eqn:Hmatch.
      * apply match_at_spec in Hmatch as [Hwf Htext].
        destruct (text_nonempty n Hwf) as (c' & t & Ht).
        rewrite Ht, append_cons in Htext. injection Htext as <- ->.
        cbn [foldr]. unfold Re.group. rewrite Ht.
        replace (String.length (String c t) - 1)%nat with (String.length t)
          by (simpl; lia).
        rewrite (IH (String.length t) EmptyString t r) by done.
        by norm_append.
      * rewrite (IH 0%nat (String c acc) EmptyString s) by done.
        by rewrite rev_cons_append.
    + destruct pre as [|c' pre]; [done|]. rewrite append_cons in Hs.
      injection Hs as <- ->. injection Hlen as Hlen.
      cbn [Re.split_go]. by apply (IH k acc pre rest).
Qed.

(** X13.  In signed mode [re.split] loses no character of a name: the
    pieces, texts and captured numerals, joined in order give the name
    back. *)
Theorem split_signed_round_trip (s : string) :
  String.concat "" (Re.split true s) = s.
Proof.
  rewrite concat_foldr. unfold Re.split.
  by rewrite (split_go_join s 0 EmptyString EmptyString s).
Qed.

Lemma digits_val_zero (d : string) (acc : Z) :
  acc = 0 -> digits_val acc (String "0" d) = digits_val acc d.
Proof. intros ->. reflexivity. Qed.

Lemma natural_sort_tie (signed : bool) (a b : string) :
  split_keys signed a = split_keys signed b ->
  natural_sort [a; b] signed = inr [a; b].
Proof.
  intros Hab. rewrite natural_sort_total. cbn [fmap list_fmap sorted insert_sorted].
  assert (the_key signed a = the_key signed b) as -> by (unfold the_key; by rewrite Hab).
  cbn [fst]. by rewrite key_ltb_irrefl.
Qed.



(** ** The latest checkpoint *)

Lemma strip_prefix_append (p s : string) : strip_prefix p (p +:+ s) = Some s.
Proof.
  induction p as [|c p IH]; [by destruct s|].
  rewrite append_cons. simpl. by rewrite Ascii.eqb_refl.
Qed.

(** A path names the entry it was made from. *)
Lemma path_name_join (ckpt_dir n : string) :
  String.prefix "/" n = false ->
  path_name ckpt_dir (path_join ckpt_dir n) = Some n.
Proof.
  intros Hn. unfold path_name.
  rewrite <- (append_nil_l n) at 1. rewrite path_join_append by done.
  apply strip_prefix_append.
Qed.

Lemma elem_of_glob_glob scan (fs : filesystem) (ckpt_dir prefix p : string) :
  fair scan ->
  p ∈ glob_glob scan fs ckpt_dir prefix
  <-> exists n, p = path_join ckpt_dir n /\ glob_match prefix n = true
                /\ is_Some (entries fs !! n).
Proof.
  intros Hscan. unfold glob_glob. rewrite list_elem_of_fmap.
  split; intros (n & -> & Hn); exists n; (split; [done|]).
  - apply list_elem_of_filter in Hn as [Hm Hn].
    apply Is_true_true in Hm. by apply (elem_of_scan scan Hscan) in Hn.
  - apply list_elem_of_filter. destruct Hn as [Hm Hn].
    split; [by apply Is_true_true|]. by apply (elem_of_scan scan Hscan).
Qed.

Lemma key_le_refl (signed : bool) (a : string) : key_le signed a a.
Proof. apply key_le_the_key, key_ltb_irrefl. Qed.

(** What [latest_checkpoint_path] returns, in terms of the paths of
    [glob]. *)
Lemma latest_checkpoint_path_spec scan (fs : filesystem) (ckpt_dir prefix : string) :
  exists r,
    latest_checkpoint_path scan fs ckpt_dir prefix = inr r
    /\ match r with
       | None =>
           forall p, p ∈ glob_glob scan fs ckpt_dir prefix ->
                     p = tmp_path ckpt_dir prefix
       | Some p =>
           p ∈ glob_glob scan fs ckpt_dir prefix
           /\ p <> tmp_path ckpt_dir prefix
           /\ forall q, q ∈ glob_glob scan fs ckpt_dir prefix ->
                        q <> tmp_path ckpt_dir prefix -> key_le true q p
       end.
Proof.
  unfold latest_checkpoint_path.
  destruct (natural_sort_sorted (glob_glob scan fs ckpt_dir prefix) true)
    as (files & -> & Hperm & Hsorted).
  eexists. split; [reflexivity|].
  destruct (last (filter _ files)) as [p|] eqn:Hlast.
  - pose proof (last_Some_elem_of _ _ Hlast) as Hp.
    apply list_elem_of_filter in Hp as [Hne Hin].
    split; [by rewrite <- Hperm|]. split; [done|].
    intros q Hq Hqne. rewrite <- Hperm in Hq.
    apply last_filter_Some in Hlast as (l1 & l2 & -> & Hl2).
    apply elem_of_app in Hq as [Hq|Hq].
    + eapply StronglySorted_app_1_elem_of; [exact Hsorted|done|by left].
    + apply elem_of_cons in Hq as [->|Hq]; [apply key_le_refl|].
      rewrite Forall_forall in Hl2. by destruct (Hl2 q Hq).
  - apply last_None in Hlast. intros p Hp. rewrite <- Hperm in Hp.
    destruct (decide (p = tmp_path ckpt_dir prefix)) as [|Hne]; [done|].
    assert (p ∈ filter (fun f => f <> tmp_path ckpt_dir prefix) files) as Hin
      by (by apply list_elem_of_filter).
    rewrite Hlast in Hin. by apply elem_of_nil in Hin.
Qed.





Lemma prefix_char_append (c0 : ascii) (p s : string) :
  p <> EmptyString ->
  String.prefix (String c0 EmptyString) (p +:+ s)
  = String.prefix (String c0 EmptyString) p.
Proof.
  intros Hp. destruct p as [|c p]; [done|]. rewrite append_cons.
  cbn [String.prefix].
  destruct (ascii_dec c0 c); [|done]. by destruct (p +:+ s), p.
Qed.

Lemma pretty_Z_no_dot (z : Z) : String.prefix "." (pretty z) = false.
Proof.
  destruct (pretty_Z_head z) as (c & r & -> & [Hc| ->]); [|done].
  cbn [String.prefix]. destruct (ascii_dec "." c) as [<-|]; [done|done].
Qed.

(** [glob] selects the file of every integer step. *)
Lemma glob_match_int (prefix : string) (z : Z) :
  glob_match prefix (prefix +:+ pretty z) = true.
Proof.
  unfold glob_match. rewrite prefix_append. cbn [andb].
  destruct (String.prefix "." prefix) eqn:Hdot; [done|]. cbn [orb].
  destruct (decide (prefix = EmptyString)) as [->|Hne].
  - by rewrite append_nil_l, pretty_Z_no_dot.
  - by rewrite prefix_char_append, Hdot.
Qed.

Lemma tmp_path_append (ckpt_dir prefix : string) :
  tmp_path ckpt_dir prefix = path_join ckpt_dir prefix +:+ "tmp".
Proof. unfold tmp_path, tmp_name. by apply path_join_append. Qed.

Lemma checkpoint_path_int_not_tmp (ckpt_dir prefix : string) (z : Z) :
  path_join ckpt_dir (prefix +:+ pretty z) <> tmp_path ckpt_dir prefix.
Proof.
  change (_checkpoint_path ckpt_dir z prefix <> tmp_path ckpt_dir prefix).
  rewrite checkpoint_path_int, tmp_path_append.
  intros E%append_inj_r. exact (step_str_not_tmp (S := Z) z E).
Qed.

(** Among files of integer steps the latest is that of the greatest
    step. *)
Lemma latest_of_int_steps scan (fs : filesystem) (ckpt_dir prefix : string)
    (zmax : Z) :
  fair scan ->
  plain (path_join ckpt_dir prefix) = true ->
  Z.abs zmax < 2 ^ 53 ->
  is_Some (entries fs !! (prefix +:+ pretty zmax)) ->
  (forall n, is_Some (entries fs !! n) -> glob_match prefix n = true ->
     n = tmp_name prefix
     \/ exists z, n = prefix +:+ pretty z /\ z <= zmax /\ Z.abs z < 2 ^ 53) ->
  latest_checkpoint_path scan fs ckpt_dir prefix
  = inr (Some (_checkpoint_path ckpt_dir zmax prefix)).
Proof.
  intros Hscan Hplain Hmax Hex Hall.
  destruct (latest_checkpoint_path_spec scan fs ckpt_dir prefix) as (r & -> & Hr).
  assert (path_join ckpt_dir (prefix +:+ pretty zmax)
          ∈ glob_glob scan fs ckpt_dir prefix) as Hin.
  { apply elem_of_glob_glob; [done|]. exists (prefix +:+ pretty zmax).
    split; [done|]. split; [apply glob_match_int|done]. }
  pose proof (checkpoint_path_int_not_tmp ckpt_dir prefix zmax) as Hnt.
  destruct r as [p|]; [|by apply Hr in Hin].
  destruct Hr as (Hp & Hne & Hgreatest).
  apply elem_of_glob_glob in Hp as (n & -> & Hm & Hn); [|done].
  destruct (Hall n Hn Hm) as [->|(z & -> & Hz & Hzb)]; [done|].
  pose proof (Hgreatest _ Hin Hnt) as Hle.
  apply key_le_the_key in Hle.
  pose proof (key_lt_int_names true (path_join ckpt_dir prefix) z zmax
                Hplain Hzb Hmax) as Hlt.
  rewrite <- !checkpoint_path_int in Hlt. unfold _checkpoint_path in Hlt.
  cbn [step_str int_step] in Hlt.
  rewrite !split_keys_the_key in Hlt. cbn [mbind result_bind] in Hlt.
  rewrite (key_lt_takes_turns true) in Hlt by apply the_key_alternating.
  rewrite Hle in Hlt. injection Hlt as Hlt. symmetry in Hlt.
  apply Z.ltb_ge in Hlt. replace z with zmax by lia. done.
Qed.



(** ** Restoring *)

Lemma latest_none scan (fs : filesystem) (ckpt_dir prefix : string) :
  fair scan ->
  (forall n, is_Some (entries fs !! n) -> glob_match prefix n = true ->
     path_join ckpt_dir n = tmp_path ckpt_dir prefix) ->
  latest_checkpoint_path scan fs ckpt_dir prefix = inr None.
Proof.
  intros Hscan Hall.
  destruct (latest_checkpoint_path_spec scan fs ckpt_dir prefix) as (r & -> & Hr).
  destruct r as [p|]; [|done]. destruct Hr as (Hp & Hne & _).
  apply elem_of_glob_glob in Hp as (n & -> & Hm & Hn); [|done].
  by destruct Hne; apply Hall.
Qed.



(** What a successful save leaves under the name of its target. *)
Lemma save_kept scan {T S : Type} `{Pickle T} `{Step S}
    (fs : filesystem) (ckpt_dir : string) (target : T) (step : S)
    (prefix : string) (keep : Z) (overwrite : bool) :
  let name := prefix +:+ step_str step in
  let r := save_checkpoint scan ckpt_dir target step prefix keep overwrite fs in
  fair scan ->
  (is_Some (entries fs !! name) -> overwrite = true) ->
  0 < keep ->
  (length (newer_files prefix name (delete (tmp_name prefix) (entries fs)))
   < Z.to_nat keep)%nat ->
  outcome r = inr (path_join ckpt_dir name)
  /\ entries (final r) !! name = Some (pickle_dumps target)
  /\ forall n, is_Some (entries (final r) !! n) ->
       n = name \/ (n <> tmp_name prefix /\ is_Some (entries fs !! n)).
Proof.
  intros name r Hscan Hov Hkeep Hnew. unfold r.
  rewrite save_checkpoint_renames by done. cbn [outcome final].
  rewrite entries_Some. fold name. split; [done|].
  pose proof (saved_in_old_ckpts scan Hscan (entries fs) target step prefix keep
                Hkeep) as Hold. simpl in Hold. fold name in Hold.
  split.
  - rewrite lookup_remove_all. destruct (decide _) as [Hin|Hout].
    + apply Hold in Hin. lia.
    + unfold renamed. fold name. by rewrite lookup_insert_eq.
  - intros n. rewrite lookup_remove_all. destruct (decide _); [by intros [? ?]|].
    unfold renamed. fold name.
    destruct (decide (n = name)) as [->|Hne]; [by left|].
    rewrite lookup_insert_ne by done.
    destruct (decide (n = tmp_name prefix)) as [->|Hnt].
    + rewrite lookup_delete_eq. by intros [? ?].
    + rewrite lookup_delete_ne by done. by right.
Qed.

Lemma restore_from_path_entry {T U : Type} `{Pickle T}
    (fs : filesystem) (ckpt_dir n : string) (t0 : U) (v : T) (data : bytes) :
  String.prefix "/" n = false ->
  entries fs !! n = Some data -> pickle_loads data = Some v ->
  restore_from_path fs ckpt_dir (path_join ckpt_dir n) t0 = inr v.
Proof.
  intros Hn Hdata Hload. unfold restore_from_path.
  rewrite path_name_join by done. simpl. by rewrite Hdata, Hload.
Qed.

(** X19.  What is saved can be restored.  When a save succeeds with
    [keep >= 1] and fewer than [keep] files of the family sort after its
    target, so that the retention step keeps the new file, a restore from
    the path the save returned, and a restore by the same step when that
    step is true, give the saved object back, provided [pickle] round-trips
    it; the [target] argument of the restore plays no part. *)
Theorem save_then_restore
    (scan : directory -> list string) {T S : Type} `{Pickle T} `{Step S}
    (fs : filesystem) (ckpt_dir : string) (target t0 : T) (step : S)
    (prefix : string) (keep : Z) (overwrite : bool) :
  let name := prefix +:+ step_str step in
  let r := save_checkpoint scan ckpt_dir target step prefix keep overwrite fs in
  fair scan ->
  pickle_loads (pickle_dumps target) = Some target ->
  String.prefix "/" name = false ->
  (is_Some (entries fs !! name) -> overwrite = true) ->
  0 < keep ->
  (length (newer_files prefix name (delete (tmp_name prefix) (entries fs)))
   < Z.to_nat keep)%nat ->
  exists p,
    outcome r = inr p
    /\ restore_from_path (final r) ckpt_dir p t0 = inr target
    /\ (step_bool step = true ->
        restore_checkpoint scan (final r) ckpt_dir t0 (Some step) prefix
        = inr target).
Proof.
  intros name r Hscan Hpickle Hslash Hov Hkeep Hnew.
  destruct (save_kept scan fs ckpt_dir target step prefix keep overwrite
              Hscan Hov Hkeep Hnew) as (Hout & Hfile & _).
  fold name r in Hout, Hfile.
  exists (path_join ckpt_dir name). split; [done|].
  assert (restore_from_path (final r) ckpt_dir (path_join ckpt_dir name) t0
          = inr target) as Hrestore
    by (by eapply restore_from_path_entry).
  split; [done|].
  intros Hstep. unfold restore_checkpoint. rewrite Hstep. fold name.
  rewrite bool_decide_true by (by rewrite Hfile). exact Hrestore.
Qed.

Lemma save_then_restore_witness :
  let r := save_checkpoint scan_dom "ckpt" (blob "new") 9 "checkpoint_" 2 false
             dir_5_and_7 in
  exists p,
    outcome r = inr p
    /\ restore_from_path (final r) "ckpt" p (blob "init") = inr (blob "new")
    /\ (step_bool 9 = true ->
        restore_checkpoint scan_dom (final r) "ckpt" (blob "init") (Some 9)
          "checkpoint_"
        = inr (blob "new")).
Proof.
  apply (save_then_restore scan_dom dir_5_and_7 "ckpt" (blob "new") (blob "init")
           9%Z "checkpoint_" 2 false).
  - apply scan_dom_fair.
  - reflexivity.
  - reflexivity.
  - vm_compute. intros [? ?]. discriminate.
  - reflexivity.
  - vm_compute. lia.
Defined.



(** ** The watcher: what it returns and what it raises *)

Section WatcherRuns.
Context (scan : directory -> list string).

Lemma nothing_new_decide (fs : filesystem) ckpt_dir last prefix r :
  latest_checkpoint_path scan fs ckpt_dir prefix = inr r ->
  nothing_new scan fs ckpt_dir last prefix <-> (r = None \/ r = last).
Proof.
  intros Hr. unfold nothing_new. rewrite Hr.
  split; (intros [E|E]; [left|right]); congruence.
Qed.

Lemma wait_loop_first_news fuel w i ckpt_dir last sleep stop prefix p :
  wait_loop scan fuel w i ckpt_dir last sleep stop prefix = Some (inr (Some p)) ->
  exists j,
    (j < fuel)%nat
    /\ latest_checkpoint_path scan (disk w (i + j)) ckpt_dir prefix = inr (Some p)
    /\ Some p <> last
    /\ forall k, (k < j)%nat ->
         keeps_waiting scan w ckpt_dir last sleep stop prefix (i + k).
Proof.
  revert i. induction fuel as [|fuel IH]; intros i; simpl; [done|].
  destruct (latest_checkpoint_path scan (disk w i) ckpt_dir prefix)
    as [e|ckpt_path] eqn:Hlatest; [done|].
  case_bool_decide as Hnew.
  - destruct (match stop with Some st => _ | None => false end) eqn:Hstop; [done|].
    destruct (time_sleep sleep); [done|]. intros Hrec.
    apply IH in Hrec as (j & Hj & Hfound & Hne & Hwait).
    exists (Datatypes.S j). split; [lia|].
    rewrite Nat.add_succ_r. split; [done|]. split; [done|].
    intros [|k] Hk.
    + rewrite Nat.add_0_r. split.
      * by apply (nothing_new_decide _ _ _ _ ckpt_path).
      * destruct stop; done.
    + rewrite Nat.add_succ_r. apply Hwait. lia.
  - intros [= ->]. exists 0%nat. rewrite Nat.add_0_r.
    split; [lia|]. split; [done|]. split; [|intros k; lia].
    intros <-. apply Hnew. by right.
Qed.

Lemma wait_loop_finds j fuel w i ckpt_dir last sleep stop prefix p :
  (j < fuel)%nat ->
  Qgtb 0 sleep = false ->
  latest_checkpoint_path scan (disk w (i + j)) ckpt_dir prefix = inr (Some p) ->
  Some p <> last ->
  (forall k, (k < j)%nat ->
     keeps_waiting scan w ckpt_dir last sleep stop prefix (i + k)) ->
  wait_loop scan fuel w i ckpt_dir last sleep stop prefix = Some (inr (Some p)).
Proof.
  intros Hj Hsleep. revert fuel i Hj.
  induction j as [|j IH]; intros fuel i Hj Hfound Hne Hwait;
    (destruct fuel as [|fuel]; [lia|]); simpl.
  - rewrite Nat.add_0_r in Hfound. rewrite Hfound.
    rewrite bool_decide_false; [done|]. intros [?|?]; [done|]. by destruct Hne.
  - destruct (Hwait 0%nat) as [Hnone Hstop]; [lia|].
    rewrite Nat.add_0_r in Hnone, Hstop.
    destruct (latest_checkpoint_path_total scan (disk w i) ckpt_dir prefix)
      as (r & Hr & _).
    rewrite Hr. apply (nothing_new_decide _ _ _ _ r Hr) in Hnone.
    rewrite bool_decide_true by done.
    assert (match stop with
            | Some st => Qgtb (poll_time w i + sleep) st
            | None => false
            end = false) as -> by (by destruct stop).
    rewrite time_sleep_nonneg by done.
    apply IH; [lia| | |].
    + by rewrite Nat.add_succ_comm.
    + done.
    + intros k Hk. rewrite Nat.add_succ_comm. apply Hwait. lia.
Qed.

Lemma wait_loop_raises fuel w i ckpt_dir last sleep stop prefix e :
  wait_loop scan fuel w i ckpt_dir last sleep stop prefix = Some (inl e) ->
  e = ValueError /\ Qgtb 0 sleep = true.
Proof.
  revert i. induction fuel as [|fuel IH]; intros i; simpl; [done|].
  destruct (latest_checkpoint_path_total scan (disk w i) ckpt_dir prefix)
    as (r & -> & _).
  case_bool_decide; [|done].
  destruct (match stop with Some st => _ | None => false end); [done|].
  unfold time_sleep. destruct (Qgtb 0 sleep) eqn:Hs.
  - by intros [= <-].
  - apply IH.
Qed.
End WatcherRuns.





(** ** The stream *)

Section Stream.
Context (scan : directory -> list string).
Context {T : Type} `{Pickle T}.

(** A generator that has not finished runs the watcher from its cursor;
    the sleep before it, made for a positive time only, does not raise. *)
Lemma iterator_next_resumes fuel (r : resumption) st ckpt_dir (target : option T)
    timeout min_interval_secs prefix :
  st <> GenDone ->
  checkpoints_iterator_next scan fuel r st ckpt_dir target timeout
    min_interval_secs prefix
  = match wait_for_new_checkpoint scan fuel (watch r) ckpt_dir (cursor st) 1
            timeout prefix with
    | None => None
    | Some (inl e) => Some (GenRaise e, GenDone)
    | Some (inr None) => Some (StopIteration, GenDone)
    | Some (inr (Some new_ckpt_path)) =>
        match target with
        | None => Some (Yield (inl new_ckpt_path),
                        GenSuspended new_ckpt_path (found_time r))
        | Some t =>
            match restore_from_path (load_disk r) ckpt_dir new_ckpt_path t with
            | inr v => Some (Yield (inr v), GenSuspended new_ckpt_path (found_time r))
            | inl e => Some (GenRaise e, GenDone)
            end
        end
    end.
Proof.
  intros Hst. unfold checkpoints_iterator_next.
  destruct st as [|ckpt_path start|]; [done| |done]. simpl.
  destruct (Qgtb _ 0) eqn:Hpos; [|done].
  by rewrite time_sleep_nonneg by (by apply Qgtb_0_pos).
Qed.

Lemma watcher_default_sleep fuel w ckpt_dir last timeout prefix e :
  wait_for_new_checkpoint scan fuel w ckpt_dir last 1 timeout prefix
  <> Some (inl e).
Proof. intros Hrun. by apply wait_loop_raises in Hrun as [_ ?]. Qed.
End Stream.





(** ** Paths of steps *)

(** X25.  Different integer steps have different files: the paths of two
    steps are equal only if the steps are, whatever the directory and the
    prefix; and the path of no step is the temporary path. *)
Theorem checkpoint_paths_differ (ckpt_dir prefix : string) (z1 z2 : Z) :
  (_checkpoint_path ckpt_dir z1 prefix = _checkpoint_path ckpt_dir z2 prefix
   -> z1 = z2)
  /\ _checkpoint_path ckpt_dir z1 prefix <> tmp_path ckpt_dir prefix.
Proof.
  split.
  - rewrite !checkpoint_path_int. intros E%append_inj_r.
    by apply (inj pretty) in E.
  - apply checkpoint_path_int_not_tmp.
Qed.

Lemma checkpoint_paths_differ_witness :
  5 = 5
  /\ _checkpoint_path "ckpt" 5 "checkpoint_" <> tmp_path "ckpt" "checkpoint_".
Proof.
  destruct (checkpoint_paths_differ "ckpt" "checkpoint_" 5 5) as [Hinj Hne].
  split; [by apply Hinj|exact Hne].
Defined.

(** ** The watcher: termination under a timeout *)

Lemma wait_loop_returns scan (n fuel : nat) w (i : nat) ckpt_dir last sleep st prefix :
  Qgtb 0 sleep = false ->
  Qgtb (poll_time w n + sleep) st = true ->
  (n < i + fuel)%nat -> (i <= n)%nat ->
  exists r, wait_loop scan fuel w i ckpt_dir last sleep (Some st) prefix
            = Some (inr r).
Proof.
  intros Hsleep Hlate. revert i.
  induction fuel as [|fuel IH]; intros i Hfuel Hi; [lia|]. simpl.
  destruct (latest_checkpoint_path_total scan (disk w i) ckpt_dir prefix)
    as (r & -> & _).
  case_bool_decide; [|eauto].
  destruct (Qgtb (poll_time w i + sleep) st) eqn:Hnow; [eauto|].
  rewrite time_sleep_nonneg by done.
  apply IH; [lia|].
  destruct (decide (i = n)) as [->|]; [congruence|lia].
Qed.



(** ** Retention and integer steps of one width *)

Lemma digits_val_acc (d : string) (acc : Z) :
  digits_val acc d = acc * 10 ^ Z.of_nat (String.length d) + digits_val 0 d.
Proof.
  revert acc. induction d as [|c d IH]; intros acc.
  - simpl. lia.
  - cbn [digits_val String.length]. rewrite (IH (10 * acc + digit_val c)).
    rewrite (IH (10 * 0 + digit_val c)).
    rewrite Nat2Z.inj_succ, Z.pow_succ_r by lia. lia.
Qed.

Lemma digit_val_bound (c : ascii) : Re.is_digit c = true -> 0 <= digit_val c <= 9.
Proof.
  unfold Re.is_digit, digit_val. intros [H1 H2]%andb_true_iff.
  apply N.leb_le in H1, H2. lia.
Qed.

Lemma digits_val_bound (d : string) :
  all_digits d = true -> 0 <= digits_val 0 d < 10 ^ Z.of_nat (String.length d).
Proof.
  induction d as [|c d IH]; [simpl; lia|].
  cbn [all_digits]. intros [Hc Hd]%andb_true_iff.
  cbn [digits_val String.length]. rewrite digits_val_acc.
  rewrite Nat2Z.inj_succ, Z.pow_succ_r by lia.
  pose proof (digit_val_bound c Hc). specialize (IH Hd).
  assert (0 < 10 ^ Z.of_nat (String.length d)) by (apply Z.pow_pos_nonneg; lia).
  nia.
Qed.

Lemma ascii_compare_digit_val (c1 c2 : ascii) :
  Ascii.compare c1 c2 = (digit_val c1 ?= digit_val c2).
Proof.
  unfold Ascii.compare, digit_val. rewrite <- N2Z.inj_compare.
  destruct (Z.compare_spec (Z.of_N (N_of_ascii c1)) (Z.of_N (N_of_ascii c2)));
    symmetry; [apply Z.compare_eq_iff|apply Z.compare_lt_iff|apply Z.compare_gt_iff];
    lia.
Qed.

(** Digit strings of one length are ordered as the numbers they denote. *)
Lemma compare_digits (d1 d2 : string) :
  all_digits d1 = true -> all_digits d2 = true ->
  String.length d1 = String.length d2 ->
  String.compare d1 d2 = (digits_val 0 d1 ?= digits_val 0 d2).
Proof.
  revert d2. induction d1 as [|c1 d1 IH]; intros [|c2 d2]; try done.
  cbn [all_digits]. intros [Hc1 Hd1]%andb_true_iff [Hc2 Hd2]%andb_true_iff [= Hlen].
  cbn [String.compare digits_val].
  rewrite (digits_val_acc d1), (digits_val_acc d2), <- Hlen.
  rewrite ascii_compare_digit_val.
  pose proof (digits_val_bound d1 Hd1) as B1.
  pose proof (digits_val_bound d2 Hd2) as B2. rewrite <- Hlen in B2.
  set (n := 10 ^ Z.of_nat (String.length d1)) in *.
  destruct (Z.compare_spec (digit_val c1) (digit_val c2)) as [E|L|G].
  - rewrite (IH d2) by done. rewrite E.
    destruct (Z.compare_spec (digits_val 0 d1) (digits_val 0 d2));
      symmetry; [apply Z.compare_eq_iff|apply Z.compare_lt_iff|apply Z.compare_gt_iff];
      lia.
  - symmetry. apply Z.compare_lt_iff. nia.
  - symmetry. apply Z.compare_gt_iff. nia.
Qed.

Lemma compare_append_l (p a b : string) :
  String.compare (p +:+ a) (p +:+ b) = String.compare a b.
Proof.
  induction p as [|c p IH]; [done|].
  rewrite !(append_cons c). cbn [String.compare].
  unfold Ascii.compare. by rewrite N.compare_refl.
Qed.

(** The names of two steps of one width are in the order of the steps. *)
Lemma ltb_same_width (prefix : string) (a b : Z) :
  0 <= a -> 0 <= b ->
  String.length (pretty a) = String.length (pretty b) ->
  String.ltb (prefix +:+ pretty a) (prefix +:+ pretty b) = (a <? b).
Proof.
  intros Ha Hb Hlen. unfold String.ltb. rewrite compare_append_l.
  rewrite (pretty_Z_nonneg a), (pretty_Z_nonneg b) in * by done.
  destruct (pretty_N_digits (Z.to_N a)) as (Da & _ & Va).
  destruct (pretty_N_digits (Z.to_N b)) as (Db & _ & Vb).
  rewrite compare_digits, Va, Vb, !Z2N.id by done.
  unfold Z.ltb. by destruct (a ?= b).
Qed.



(** ** A save that loses its own file *)

Lemma restore_from_path_missing {T U : Type} `{Pickle T}
    (fs : filesystem) (ckpt_dir n : string) (t0 : U) :
  String.prefix "/" n = false ->
  entries fs !! n = None ->
  restore_from_path (T := T) fs ckpt_dir (path_join ckpt_dir n) t0
  = inl FileNotFoundError.
Proof.
  intros Hn Hnone. unfold restore_from_path.
  rewrite path_name_join by done. simpl. by rewrite Hnone.
Qed.

(** X28.  The path a save returns need not exist.  When a save succeeds
    with [keep >= 1] and at least [keep] files of the family sort after
    its target by name, the retention step of the same call removes the
    file just written: the call still returns the path, the directory
    holds no file under it, a restore from that path raises
    [FileNotFoundError], and a restore by the same true step raises the
    not-found [ValueError]. *)
Theorem save_then_restore_lost
    (scan : directory -> list string) {T S : Type} `{Pickle T} `{Step S}
    (fs : filesystem) (ckpt_dir : string) (target t0 : T) (step : S)
    (prefix : string) (keep : Z) (overwrite : bool) :
  let name := prefix +:+ step_str step in
  let r := save_checkpoint scan ckpt_dir target step prefix keep overwrite fs in
  fair scan ->
  String.prefix "/" name = false ->
  (is_Some (entries fs !! name) -> overwrite = true) ->
  0 < keep ->
  (Z.to_nat keep
   <= length (newer_files prefix name (delete (tmp_name prefix) (entries fs))))%nat ->
  outcome r = inr (_checkpoint_path ckpt_dir step prefix)
  /\ entries (final r) !! name = None
  /\ restore_from_path (final r) ckpt_dir (_checkpoint_path ckpt_dir step prefix) t0
     = inl FileNotFoundError
  /\ (step_bool step = true ->
      restore_checkpoint scan (final r) ckpt_dir t0 (Some step) prefix
      = inl ValueError).
Proof.
  intros name r Hscan Hslash Hov Hkeep Hnew.
  assert (outcome r = inr (_checkpoint_path ckpt_dir step prefix)
          /\ entries (final r) !! name = None) as [Hout Hnone].
  { unfold r. rewrite save_checkpoint_renames by done. cbn [outcome final].
    split; [done|]. rewrite entries_Some, lookup_remove_all.
    rewrite decide_True; [done|].
    by apply (saved_in_old_ckpts scan Hscan (entries fs) target step prefix keep). }
  split; [done|]. split; [done|]. split.
  - by apply restore_from_path_missing.
  - intros Hstep. unfold restore_checkpoint. rewrite Hstep. fold name.
    rewrite Hnone. rewrite bool_decide_false; [done|]. by intros [? ?].
Qed.

Lemma save_then_restore_lost_witness :
  let r := save_checkpoint scan_dom "ckpt" (blob "ten") 10 "checkpoint_" 1 false
             dir_only_9 in
  outcome r = inr (_checkpoint_path "ckpt" 10%Z "checkpoint_")
  /\ entries (final r) !! ("checkpoint_" +:+ step_str 10%Z) = None
  /\ restore_from_path (final r) "ckpt" (_checkpoint_path "ckpt" 10%Z "checkpoint_")
       (blob "init")
     = inl FileNotFoundError
  /\ (step_bool 10%Z = true ->
      restore_checkpoint scan_dom (final r) "ckpt" (blob "init") (Some 10%Z)
        "checkpoint_"
      = inl ValueError).
Proof.
  apply (save_then_restore_lost scan_dom dir_only_9 "ckpt" (blob "ten")
           (blob "init") 10%Z "checkpoint_" 1 false).
  - apply scan_dom_fair.
  - reflexivity.
  - vm_compute. intros [? ?]. discriminate.
  - reflexivity.
  - vm_compute. lia.
Defined.

(** ** Natural sort: names without signs, names without numbers *)

Lemma signless_app (a b : string) :
  signless (a +:+ b) = signless a && signless b.
Proof.
  induction a as [|c a IH]; [done|].
  rewrite append_cons. cbn [signless]. by rewrite IH, andb_assoc.
Qed.

Lemma split_join (s : string) :
  foldr String.append EmptyString (Re.split true s) = s.
Proof. unfold Re.split. by rewrite (split_go_join s 0 EmptyString EmptyString s). Qed.

Lemma signless_segments (segs : list (string * Re.numeral)) (last : string) :
  signless (foldr String.append EmptyString (interleave_groups true segs last))
  = true ->
  Forall (fun seg => signless (Re.text seg.2) = true) segs.
Proof.
  induction segs as [|[t n] segs IH]; [constructor|].
  cbn [interleave_groups foldr]. rewrite !signless_app.
  intros [_ [Hn Hrest]%andb_true_iff]%andb_true_iff.
  constructor; [done|by apply IH].
Qed.

Lemma unsign_signless (n : Re.numeral) :
  wf_numeral n -> signless (Re.text n) = true -> unsign n = n.
Proof.
  intros (Hsg & _) Hn. unfold Re.text in Hn.
  destruct n as [sg ds dot fs ex]. unfold unsign. simpl in *.
  destruct Hsg as [->|(c & Hc & ->)]; [done|].
  rewrite append_cons in Hn. cbn [signless] in Hn. by rewrite Hc in Hn.
Qed.

Lemma key_of_signless (segs : list (string * Re.numeral)) (last : string) :
  Forall segment_ok segs ->
  Forall (fun seg => signless (Re.text seg.2) = true) segs ->
  key_of false segs last = key_of true segs last.
Proof.
  induction 1 as [|[t n] segs [_ Hwf] Hsegs IH]; [done|].
  intros [Hn Hrest]%Forall_cons. cbn [key_of]. simpl in *.
  by rewrite unsign_signless, IH.
Qed.

Lemma split_keys_signless (s : string) :
  signless s = true -> split_keys false s = split_keys true s.
Proof.
  intros Hs. destruct (split_segments s) as (segs & last & Hsplit & Hsegs & Hlast).
  unfold split_keys. rewrite !Hsplit, !keys_of_segments by done.
  f_equal. apply key_of_signless; [done|].
  apply (signless_segments segs last). by rewrite <- Hsplit, split_join.
Qed.

(** X29.  The setting of [signed] matters for names with a sign only: a
    name in which neither [+] nor [-] occurs has the same key in both
    modes, and a list of such names is sorted the same way in both. *)
Theorem signed_matters_for_signs_only (l : list string) :
  Forall (fun s => signless s = true) l ->
  Forall (fun s => split_keys false s = split_keys true s) l
  /\ natural_sort l false = natural_sort l true.
Proof.
  intros Hl.
  assert (Forall (fun s => split_keys false s = split_keys true s) l) as Hkeys.
  { eapply Forall_impl; [exact Hl|]. intros s. apply split_keys_signless. }
  split; [done|]. rewrite !natural_sort_total. f_equal. f_equal. f_equal.
  apply Forall_fmap_ext. eapply Forall_impl; [exact Hkeys|].
  intros s Hs. simpl. unfold the_key. by rewrite Hs.
Qed.

Lemma signed_matters_for_signs_only_witness :
  Forall (fun s => split_keys false s = split_keys true s)
         ["file_10"; "file_2.5"; "file_1e3"]
  /\ natural_sort ["file_10"; "file_2.5"; "file_1e3"] false
     = natural_sort ["file_10"; "file_2.5"; "file_1e3"] true.
Proof.
  apply (signed_matters_for_signs_only ["file_10"; "file_2.5"; "file_1e3"]).
  repeat constructor.
Defined.

Lemma split_plain (signed : bool) (p : string) :
  plain p = true -> Re.split signed p = [p].
Proof.
  intros Hp. unfold Re.split. rewrite <- (append_nil_r p) at 1.
  rewrite split_go_plain by done. simpl. by rewrite rev_rev_app.
Qed.

Lemma split_keys_plain (signed : bool) (p : string) :
  plain p = true -> split_keys signed p = inr [TStr p].
Proof.
  intros Hp. unfold split_keys. rewrite split_plain by done.
  cbn [mapM_result]. by rewrite maybe_num_plain.
Qed.

Lemma key_ltb_text (a b : string) :
  key_ltb [TStr a] [TStr b] = String.ltb a b.
Proof.
  unfold key_ltb. cbn [key_lt token_eqb token_lt].
  destruct (String.eqb_spec a b) as [->|]; [|done].
  cbn [key_lt]. unfold String.ltb. by rewrite string_compare_refl.
Qed.

Lemma sorted_keyed {A B : Type} (ltk : B * A -> B * A -> bool) (lt : A -> A -> bool)
    (f : A -> B) (l : list A) :
  (forall a b, ltk (f a, a) (f b, b) = lt a b) ->
  sorted ltk ((fun a => (f a, a)) <$> l) = (fun a => (f a, a)) <$> sorted lt l.
Proof.
  intros Hlt. induction l as [|x l IH]; [done|].
  cbn [fmap list_fmap sorted]. fold (fmap (M := list) (fun a => (f a, a)) l).
  rewrite IH. generalize (sorted lt l). clear IH. intros m.
  induction m as [|y m IH]; [done|].
  cbn [fmap list_fmap insert_sorted]. rewrite Hlt.
  destruct (lt y x); [|done].
  fold (fmap (M := list) (fun a => (f a, a)) m). by rewrite IH.
Qed.

(** X30.  Names without numbers are sorted in the order of characters:
    on a list of names in which no digit, sign or point occurs, the key
    of a name is the name itself and [natural_sort] returns what
    [sorted] returns on the names. *)
Theorem natural_sort_of_plain_names (l : list string) (signed : bool) :
  Forall (fun s => plain s = true) l ->
  Forall (fun s => split_keys signed s = inr [TStr s]) l
  /\ natural_sort l signed = inr (sorted String.ltb l).
Proof.
  intros Hl.
  assert (Forall (fun s => split_keys signed s = inr [TStr s]) l) as Hkeys.
  { eapply Forall_impl; [exact Hl|]. intros s. apply split_keys_plain. }
  split; [done|]. rewrite natural_sort_total.
  assert ((fun s => (the_key signed s, s)) <$> l = (fun s => ([TStr s], s)) <$> l)
    as ->.
  { apply Forall_fmap_ext. eapply Forall_impl; [exact Hkeys|].
    intros s Hs. simpl. unfold the_key. by rewrite Hs. }
  rewrite (sorted_keyed _ String.ltb (fun s => [TStr s])).
  - rewrite <- list_fmap_compose. simpl. by rewrite list_fmap_id.
  - intros a b. apply key_ltb_text.
Qed.

Lemma natural_sort_of_plain_names_witness :
  Forall (fun s => split_keys true s = inr [TStr s]) ["best"; "avg"; "last"]
  /\ natural_sort ["best"; "avg"; "last"] true
     = inr (sorted String.ltb ["best"; "avg"; "last"]).
Proof.
  apply (natural_sort_of_plain_names ["best"; "avg"; "last"] true).
  repeat constructor.
Defined.
